(** * The Obsidian markdown loader: a model of [loaders.ts]

    The loader keeps a store of entries in step with a directory of markdown
    files: a full pass over the files matched by a glob pattern, followed by
    handlers for the watcher's add, change and unlink events.

    The collaborators of the loader (file system, splitter, digest,
    validation, renderer, glob matcher, path helpers) are the fields of an
    environment record: each answers as a function of its arguments, so the
    files do not change while a pass or a handler runs, and two passes over
    unchanged files are two passes with one environment.  The shared mutable
    objects of the loader (the store, [untouchedEntries], [fileToIdMap]) and
    the calls made to the collaborators are the fields of a world record;
    the store is a finite map from identifiers to entries, on which
    [store.set] writes the entry at its identifier and [store.delete]
    removes it.

    An [async] function is a tree whose nodes are the points where the
    function is suspended on an [await]; what runs between two such points
    runs at once.  The tasks of a full pass are the slots of a pool from
    which the event loop resumes any task that is suspended, and starts the
    next one queued while fewer than ten are running.  [load_any] is the
    full pass under any such schedule and [load] the full pass under one of
    them, which computes. *)

From stdpp Require Import gmap strings list fin_maps.

Open Scope string_scope.
Open Scope list_scope.

(** ** Values *)

(** A settled promise of a collaborator: fulfilled with a value, or rejected
    with an error of which the loader only reads [message]. *)
Inductive res (A : Type) : Type :=
  | Ok (a : A)
  | Fail (message : string).
Arguments Ok {A} a.
Arguments Fail {A} message.

Definition is_ok {A : Type} (r : res A) : bool :=
  match r with
  | Ok _ => true
  | Fail _ => false
  end.

(** Front-matter: keys and values. *)
Definition Data : Type := list (string * string).

(** What [stat] returns; the loader passes it on untouched. *)
Record Stats := { size : Z; mtimeMs : Z }.

Record RenderedMetadata := { imagePaths : option (list string) }.

Record RenderedContent := {
  html : string;
  metadata : option RenderedMetadata
}.

(** An entry of the store.  The optional fields of the store's entry type
    are options here. *)
Record DataEntry := {
  id : string;
  data : Data;
  body : option string;
  filePath : option string;
  digest : option string;
  rendered : option RenderedContent;
  assetImports : option (list string);
  deferredRender : option bool
}.

Record EntryInfo := { info_body : string; info_data : Data }.

(** The last argument of [getEntryInfo]. *)
Record EntryContext := {
  ctx_author : option string;
  ctx_baseUrl : string;
  ctx_files : list string;
  ctx_i18n : option bool;
  ctx_defaultLocale : option string
}.

(** [pattern?: string | Array<string>] *)
Inductive Pattern :=
  | PatString (p : string)
  | PatArray (ps : list string).

Definition DEFAULT_PATTERN : Pattern := PatString "**/*.md".

Record ObsidianMdLoaderOptions := {
  opt_pattern : option Pattern;
  opt_base : option string;
  opt_i18n : option bool;
  opt_url : option string;
  opt_author : option string
}.

(** The part of Astro's configuration that the loader reads. *)
Record AstroConfig := {
  root : string;
  i18n_defaultLocale : option string
}.

(** ** Collaborators *)

Record Env := {
  readFile : string → res string;
  stat : string → res Stats;
  getEntryInfo : string → string → string → Stats → EntryContext → res EntryInfo;
  generateId : string → string → Data → string;
  generateDigest : string → string;
  parseData : string → Data → string → res Data;
  render : string → Data → string → string → string → res RenderedContent;
  isConfigFile : string → string → bool;
  isMatch : string → Pattern → bool;
  fastGlob : Pattern → string → list string;
  posixRelative : string → string → string;
  fileURLToPath : string → string;
  pathToFileURL : string → string;
  newURL : string → string → string;
  encodeURI : string → string;
  green : string → string
}.

(** ** The world *)

(** The calls that the loader makes to its collaborators, in the order in
    which it makes them. *)
Inductive Call :=
  | CReadFile (fileUrl : string)
  | CStat (fileUrl : string)
  | CGetEntryInfo (contents fileUrl entry : string) (files : list string)
  | CParseData (id : string) (data : Data) (filePath : string)
  | CRender (id : string) (data : Data) (body filePath digest : string)
  | CStoreGet (id : string) (found : option DataEntry)
  | CStoreSet (e : DataEntry)
  | CStoreDelete (id : string)
  | CAddModuleImport (filePath : string)
  | CLogError (message : string)
  | CLogWarn (message : string)
  | CLogInfo (message : string).

Record World := {
  store : gmap string DataEntry;
  untouchedEntries : gset string;
  fileToIdMap : gmap string string;
  calls : list Call
}.

Definition call (c : Call) (W : World) : World :=
  {| store := store W; untouchedEntries := untouchedEntries W;
     fileToIdMap := fileToIdMap W; calls := calls W ++ [c] |}.

Definition store_set (e : DataEntry) (W : World) : World :=
  {| store := <[id e := e]> (store W); untouchedEntries := untouchedEntries W;
     fileToIdMap := fileToIdMap W; calls := calls W ++ [CStoreSet e] |}.

Definition store_delete (i : string) (W : World) : World :=
  {| store := delete i (store W); untouchedEntries := untouchedEntries W;
     fileToIdMap := fileToIdMap W; calls := calls W ++ [CStoreDelete i] |}.

Definition untouched_delete (i : string) (W : World) : World :=
  {| store := store W; untouchedEntries := untouchedEntries W ∖ {[i]};
     fileToIdMap := fileToIdMap W; calls := calls W |}.

Definition untouched_init (W : World) : World :=
  {| store := store W; untouchedEntries := dom (store W);
     fileToIdMap := fileToIdMap W; calls := calls W |}.

Definition fileToIdMap_set (p i : string) (W : World) : World :=
  {| store := store W; untouchedEntries := untouchedEntries W;
     fileToIdMap := <[p := i]> (fileToIdMap W); calls := calls W |}.

Definition fileToIdMap_delete (p : string) (W : World) : World :=
  {| store := store W; untouchedEntries := untouchedEntries W;
     fileToIdMap := delete p (fileToIdMap W); calls := calls W |}.

(** ** Truthiness of the values the loader tests *)

Definition truthy_string (o : option string) : bool :=
  match o with
  | Some s => negb (String.eqb s "")
  | None => false
  end.

Definition truthy_bool (o : option bool) : bool :=
  match o with
  | Some b => b
  | None => false
  end.

(** [a === b] on a value that is a string or [undefined]. *)
Definition strict_eq (a b : option string) : bool :=
  match a, b with
  | Some x, Some y => String.eqb x y
  | None, None => true
  | _, _ => false
  end.

(** [s.endsWith(suffix)] *)
Definition endsWith (s suffix : string) : bool :=
  let n := String.length s in
  let m := String.length suffix in
  (m <=? n)%nat && String.eqb (String.substring (n - m) m s) suffix.

(** ** Async functions *)

(** A call of an [async] function that has been started: it has resolved,
    it has been rejected, or it is suspended on an [await] and will run its
    next segment, on the world as it then is, when it is resumed. *)
#[local] Set Warnings "-register-all".
Inductive Task :=
  | Resolved
  | Rejected (message : string)
  | Await (k : World → World * Task).

(** An [async] function applied to its arguments: calling it runs the
    segment up to the first [await]. *)
Definition Async : Type := World → World * Task.

(** [await t; k]: once [t] has resolved the caller is resumed with [k]; a
    rejection of [t] is the caller's. *)
Fixpoint andThen (t : Task) (k : Async) : Task :=
  match t with
  | Resolved => Await k
  | Rejected m => Rejected m
  | Await f => Await (λ W, let (W', t') := f W in (W', andThen t' k))
  end.

(** Runs a task with nothing else scheduled in between. *)
Fixpoint run (t : Task) (W : World) : World * res unit :=
  match t with
  | Resolved => (W, Ok ())
  | Rejected m => (W, Fail m)
  | Await f => let (W', t') := f W in run t' W'
  end.

Definition start (a : Async) (W : World) : World * res unit :=
  let (W', t) := a W in run t W'.

(** Induction on a task: the hypothesis holds for whatever the next segment
    leaves to be done. *)
Fixpoint Task_segments_ind (P : Task → Prop)
    (HResolved : P Resolved)
    (HRejected : ∀ m, P (Rejected m))
    (HAwait : ∀ f, (∀ W, P (f W).2) → P (Await f))
    (t : Task) : P t :=
  match t with
  | Resolved => HResolved
  | Rejected m => HRejected m
  | Await f =>
      HAwait f (λ W, Task_segments_ind P HResolved HRejected HAwait (f W).2)
  end.

(** *** A task among others

    Between two segments of a task the event loop may run segments of other
    tasks, so a segment finds the world as the others left it.  An execution
    of a task lists, for each of its segments in turn, the world that the
    segment found and the world that it left. *)
Inductive segments : Task → list (World * World) → res unit → Prop :=
  | segments_resolved : segments Resolved [] (Ok ())
  | segments_rejected m : segments (Rejected m) [] (Fail m)
  | segments_await k W l o :
      segments (k W).2 l o →
      segments (Await k) ((W, (k W).1) :: l) o.

Definition executes (a : Async) (l : list (World * World)) (o : res unit) : Prop :=
  ∃ W l', l = (W, (a W).1) :: l' ∧ segments (a W).2 l' o.

(** The execution of a task that runs with nothing else scheduled in
    between. *)
Fixpoint alone (t : Task) (W : World) : list (World * World) :=
  match t with
  | Await k => (W, (k W).1) :: alone (k W).2 (k W).1
  | _ => []
  end.

Definition alone_from (a : Async) (W : World) : list (World * World) :=
  (W, (a W).1) :: alone (a W).2 (a W).1.

(** The calls that a segment made. *)
Definition made (p : World * World) : list Call :=
  drop (length (calls p.1)) (calls p.2).

Definition makes (l : list (World * World)) (c : Call) : Prop :=
  ∃ p, p ∈ l ∧ c ∈ made p.

(** A task that is rejected whatever the worlds that its segments find. *)
Fixpoint rejects (t : Task) : Prop :=
  match t with
  | Resolved => False
  | Rejected _ => True
  | Await k => ∀ W, rejects (k W).2
  end.

(** The calls that render an entry or write it to the store. *)
Definition rewrites (c : Call) : Prop :=
  match c with
  | CRender _ _ _ _ _ | CStoreSet _ => True
  | _ => False
  end.

(** The calls that transform an entry or change the store. *)
Definition transforms (c : Call) : Prop :=
  match c with
  | CParseData _ _ _ | CRender _ _ _ _ _ | CStoreSet _ | CStoreDelete _ => True
  | _ => False
  end.

(** ** The loader *)

Section Loader.

Variable E : Env.
Variable opts : ObsidianMdLoaderOptions.
Variable config : AstroConfig.
Variable collection : string.

Definition pattern : Pattern := default DEFAULT_PATTERN (opt_pattern opts).

(** [const baseUrl = opts.url ?? collection] *)
Definition baseUrl : string := default collection (opt_url opts).

(** [rendered?.metadata?.imagePaths] *)
Definition imagePathsOf (r : option RenderedContent) : option (list string) :=
  match r with
  | Some r' =>
      match metadata r' with
      | Some m => imagePaths m
      | None => None
      end
  | None => None
  end.

(** The record that the slow path writes. *)
Definition newEntry (i : string) (parsedData : Data) (b relativePath d : string)
    (r : option RenderedContent) : DataEntry :=
  {| id := i;
     data := parsedData;
     body := Some b;
     filePath := Some relativePath;
     digest := Some d;
     rendered := r;
     assetImports := imagePathsOf r;
     deferredRender := None |}.

(** The test of the fast path. *)
Definition unchanged (existingEntry : option DataEntry) (d : string) : bool :=
  match existingEntry with
  | Some e => strict_eq (digest e) (Some d) && truthy_string (filePath e)
  | None => false
  end.

(** [!contents && contents !== ""] *)
Definition noContents (contents : option string) : bool :=
  negb (truthy_string contents) && negb (strict_eq contents (Some "")).

(** [store.set({...}); fileToIdMap.set(filePath, id)] *)
Definition writeEntry (i : string) (parsedData : Data)
    (b filePath' relativePath d : string) (r : option RenderedContent)
    (W : World) : World :=
  fileToIdMap_set filePath' i
    (store_set (newEntry i parsedData b relativePath d r) W).

(** After [await render(...)], inside or past the [try]. *)
Definition afterRender (entry i : string) (parsedData : Data)
    (b filePath' relativePath d : string) : Async := λ W,
  match render E i parsedData b filePath' d with
  | Ok r =>
      (writeEntry i parsedData b filePath' relativePath d (Some r) W, Resolved)
  | Fail m =>
      (writeEntry i parsedData b filePath' relativePath d None
         (call (CLogError ("Error rendering " +:+ entry +:+ ": " +:+ m)) W),
       Resolved)
  end.

(** After [await parseData(...)]. *)
Definition afterParseData (entry i : string) (d' : Data)
    (b filePath' relativePath d : string) : Async := λ W,
  match parseData E i d' filePath' with
  | Fail m => (W, Rejected m)
  | Ok parsedData =>
      (call (CRender i parsedData b filePath' d) W,
       Await (afterRender entry i parsedData b filePath' relativePath d))
  end.

(** The context that [syncData] hands to [getEntryInfo]. *)
Definition entryContext (files : list string) : EntryContext :=
  {| ctx_author := opt_author opts;
     ctx_baseUrl := baseUrl;
     ctx_files := files;
     ctx_i18n := opt_i18n opts;
     ctx_defaultLocale := i18n_defaultLocale config |}.

(** [baseDir], the base of the full pass: [opts.base] resolved against
    [config.root], or [config.root] itself, with a slash put at the end of
    its pathname when there is none.  A URL is its string here: a file URL
    ends with its pathname, one with a query or a fragment apart. *)
Definition baseDir : string :=
  let b := if truthy_string (opt_base opts)
           then newURL E (default "" (opt_base opts)) (root config)
           else root config in
  if endsWith b "/" then b else b +:+ "/".

(** [config.root] as the routine finds it.  Without [opts.base], [baseDir]
    is the very object [config.root], so the slash that [load] puts at the
    end of the pathname of [baseDir] is put on [config.root]. *)
Definition rootUrl : string :=
  if truthy_string (opt_base opts) then root config else baseDir.

(** [posixRelative(fileURLToPath(config.root), filePath)] *)
Definition relativePathOf (filePath' : string) : string :=
  posixRelative E (fileURLToPath E rootUrl) filePath'.

(** After [await getEntryInfo(...)]. *)
Definition afterGetEntryInfo (entry base : string) (files : list string)
    (fileUrl contents : string) (stats : Stats) : Async := λ W,
  match getEntryInfo E contents fileUrl entry stats (entryContext files) with
  | Fail m => (W, Rejected m)
  | Ok info =>
      let i := generateId E entry base (info_data info) in
      let W := untouched_delete i W in
      let existingEntry := store W !! i in
      let W := call (CStoreGet i existingEntry) W in
      let d := generateDigest E contents in
      if unchanged existingEntry d then
        match existingEntry with
        | Some e =>
            if truthy_bool (deferredRender e)
            then (call (CAddModuleImport (default "" (filePath e))) W, Resolved)
            else (W, Resolved)
        | None => (W, Resolved)
        end
      else
        let filePath' := fileURLToPath E fileUrl in
        let relativePath := relativePathOf filePath' in
        (call (CParseData i (info_data info) filePath') W,
         Await (afterParseData entry i (info_data info) (info_body info)
                  filePath' relativePath d))
  end.

(** After [await stat(fileUrl)].  Past the test of the contents, the
    contents are a string: [noContents None] is [true]. *)
Definition afterStat (entry base : string) (files : list string)
    (fileUrl : string) (contents : option string) : Async := λ W,
  match stat E fileUrl with
  | Fail m => (W, Rejected m)
  | Ok stats =>
      if noContents contents then
        (call (CLogWarn ("No contents found for " +:+ entry)) W, Resolved)
      else
        match contents with
        | Some c =>
            (call (CGetEntryInfo c fileUrl entry files) W,
             Await (afterGetEntryInfo entry base files fileUrl c stats))
        | None => (W, Resolved)
        end
  end.

(** After [await readFile(fileUrl, "utf-8").catch(...)]: the handler of
    [catch] has logged a failed read and left [undefined]. *)
Definition afterReadFile (entry base : string) (files : list string)
    (fileUrl : string) : Async := λ W,
  match readFile E fileUrl with
  | Ok c =>
      (call (CStat fileUrl) W,
       Await (afterStat entry base files fileUrl (Some c)))
  | Fail m =>
      (call (CStat fileUrl)
         (call (CLogError ("Error reading " +:+ entry +:+ ": " +:+ m)) W),
       Await (afterStat entry base files fileUrl None))
  end.

(** [new URL(encodeURI(entry), base)] *)
Definition fileUrlOf (entry base : string) : string :=
  newURL E (encodeURI E entry) base.

Definition syncData (entry base : string) (files : list string) : Async := λ W,
  let fileUrl := fileUrlOf entry base in
  (call (CReadFile fileUrl) W, Await (afterReadFile entry base files fileUrl)).

(** *** Where a call of [syncData] stands

    The contents that the routine holds once the read has settled. *)
Definition contentsOf (fileUrl : string) : option string :=
  match readFile E fileUrl with
  | Ok c => Some c
  | Fail _ => None
  end.

(** The routine, called on [entry], derives the identifier [i] from the
    contents [c]: the read, [stat] and the splitter all succeed. *)
Definition derives (entry base : string) (fs : list string)
    (i c : string) : Prop :=
  ∃ st info,
    readFile E (fileUrlOf entry base) = Ok c ∧
    stat E (fileUrlOf entry base) = Ok st ∧
    getEntryInfo E c (fileUrlOf entry base) entry st (entryContext fs) = Ok info ∧
    i = generateId E entry base (info_data info).

(** *** The limiter and [Promise.all] *)

(** [pLimit(10)] *)
Definition concurrency : nat := 10.

(** An element of the array given to [Promise.all]: a function waiting in
    the queue of the limiter, or a promise. *)
Inductive Slot :=
  | Queued (a : Async)
  | Running (t : Task).

Definition active (s : Slot) : bool :=
  match s with
  | Running (Await _) => true
  | _ => false
  end.

Definition settled (s : Slot) : bool :=
  match s with
  | Running Resolved | Running (Rejected _) => true
  | _ => false
  end.

Definition queued (s : Slot) : bool :=
  match s with
  | Queued _ => true
  | Running _ => false
  end.

Definition activeCount (slots : list Slot) : nat :=
  length (filter (λ s, active s = true) slots).

(** [Promise.all] is rejected with the first rejection among its
    promises. *)
Definition note (t : Task) (rejection : option string) : option string :=
  match rejection, t with
  | None, Rejected m => Some m
  | _, _ => rejection
  end.

Definition Pool : Type := World * list Slot * option string.

(** What a turn of the event loop runs of a slot. *)
Definition slot_step (s : Slot) (W : World) : option (World * Task) :=
  match s with
  | Queued a => Some (a W)
  | Running (Await k) => Some (k W)
  | Running _ => None
  end.

(** The slots that a call [syncData(entry, base, fs)] goes through. *)
Inductive phase (entry base : string) (fs : list string) : Slot → Prop :=
  | phase_queued :
      phase entry base fs (Queued (syncData entry base fs))
  | phase_read :
      phase entry base fs
        (Running (Await (afterReadFile entry base fs (fileUrlOf entry base))))
  | phase_stat contents :
      contents = contentsOf (fileUrlOf entry base) →
      phase entry base fs
        (Running (Await (afterStat entry base fs (fileUrlOf entry base) contents)))
  | phase_info c st :
      readFile E (fileUrlOf entry base) = Ok c →
      stat E (fileUrlOf entry base) = Ok st →
      phase entry base fs
        (Running (Await (afterGetEntryInfo entry base fs (fileUrlOf entry base) c st)))
  | phase_parse c st info :
      readFile E (fileUrlOf entry base) = Ok c →
      stat E (fileUrlOf entry base) = Ok st →
      getEntryInfo E c (fileUrlOf entry base) entry st (entryContext fs) = Ok info →
      phase entry base fs
        (Running (Await (afterParseData entry
                           (generateId E entry base (info_data info))
                           (info_data info) (info_body info)
                           (fileURLToPath E (fileUrlOf entry base))
                           (relativePathOf (fileURLToPath E (fileUrlOf entry base)))
                           (generateDigest E c))))
  | phase_render c st info parsedData :
      readFile E (fileUrlOf entry base) = Ok c →
      stat E (fileUrlOf entry base) = Ok st →
      getEntryInfo E c (fileUrlOf entry base) entry st (entryContext fs) = Ok info →
      parseData E (generateId E entry base (info_data info)) (info_data info)
        (fileURLToPath E (fileUrlOf entry base)) = Ok parsedData →
      phase entry base fs
        (Running (Await (afterRender entry
                           (generateId E entry base (info_data info))
                           parsedData (info_body info)
                           (fileURLToPath E (fileUrlOf entry base))
                           (relativePathOf (fileURLToPath E (fileUrlOf entry base)))
                           (generateDigest E c))))
  | phase_resolved :
      phase entry base fs (Running Resolved)
  | phase_rejected m :
      phase entry base fs (Running (Rejected m)).

(** One turn of the event loop: the limiter starts the function at the head
    of its queue when fewer than [concurrency] are running, or a suspended
    task is resumed. *)
Inductive pool_step : Pool → Pool → Prop :=
  | step_start i a W slots r :
      slots !! i = Some (Queued a) →
      (∀ j s, (j < i)%nat → slots !! j = Some s → queued s = false) →
      (activeCount slots < concurrency)%nat →
      pool_step (W, slots, r)
                ((a W).1, <[i := Running (a W).2]> slots, note (a W).2 r)
  | step_resume i k W slots r :
      slots !! i = Some (Running (Await k)) →
      pool_step (W, slots, r)
                ((k W).1, <[i := Running (k W).2]> slots, note (k W).2 r).

Inductive pool_steps : Pool → Pool → Prop :=
  | steps_refl p : pool_steps p p
  | steps_step p1 p2 p3 : pool_step p1 p2 → pool_steps p2 p3 → pool_steps p1 p3.

Definition quiescent (slots : list Slot) : Prop :=
  Forall (λ s, settled s = true) slots.

Definition note_res (o : res unit) (rejection : option string) : option string :=
  match rejection, o with
  | None, Fail m => Some m
  | _, _ => rejection
  end.

(** The schedule in which every function runs to its end before the next
    one is started. *)
Fixpoint run_slots (slots : list Slot) (W : World) (r : option string)
    : World * option string :=
  match slots with
  | [] => (W, r)
  | Queued a :: rest =>
      let (W', o) := start a W in
      run_slots rest W' (note_res o r)
  | Running t :: rest =>
      let (W', o) := run t W in
      run_slots rest W' (note_res o r)
  end.

(** *** The full pass *)

Definition files : list string := fastGlob E pattern (fileURLToPath E baseDir).

(** [files.map((entry) => ...)] *)
Definition schedule : list Slot :=
  map (λ entry,
         if isConfigFile E entry baseDir then Running Resolved
         else Queued (syncData entry baseDir files))
      files.

(** A slot of the pass and the file it stands for: nothing runs for a
    configuration file, and the routine runs for any other file. *)
Definition scheduled (entry : string) (s : Slot) : Prop :=
  entry ∈ files ∧
  if isConfigFile E entry baseDir then s = Running Resolved
  else phase entry baseDir files s.

(** The store [S] is up to date for [entry]: for the identifier that the
    routine derives from the file, it has a record with the digest of the
    contents of the file and a known file path.  When not [strict], an entry
    whose front-matter fails the validation counts as well: the routine
    writes no record for it. *)
Definition upToDate (strict : bool) (entry : string)
    (S : gmap string DataEntry) : Prop :=
  ∀ c st info,
    readFile E (fileUrlOf entry baseDir) = Ok c →
    stat E (fileUrlOf entry baseDir) = Ok st →
    getEntryInfo E c (fileUrlOf entry baseDir) entry st (entryContext files) = Ok info →
    unchanged (S !! generateId E entry baseDir (info_data info))
      (generateDigest E c) = true
    ∨ (strict = false ∧
       ∃ m, parseData E (generateId E entry baseDir (info_data info))
              (info_data info) (fileURLToPath E (fileUrlOf entry baseDir)) = Fail m).

(** The same, of a world whose [untouchedEntries] no longer has that
    identifier. *)
Definition accounted (strict : bool) (entry : string) (W : World) : Prop :=
  upToDate strict entry (store W) ∧
  ∀ i c, derives entry baseDir files i c → i ∉ untouchedEntries W.

(** Every record of the store is still in [untouchedEntries] or has the
    identifier of a file of the pass. *)
Definition store_accounted (W : World) : Prop :=
  ∀ i,
    is_Some (store W !! i) →
    i ∈ untouchedEntries W ∨
    ∃ entry c,
      entry ∈ files ∧ isConfigFile E entry baseDir = false ∧
      derives entry baseDir files i c.

(** A slot of the pass with what is known of the world at each point of
    the routine: past the lookup of the store the identifier has left
    [untouchedEntries], and once the routine has settled its entry is
    accounted for, strictly so when it has resolved. *)
Inductive tracked (entry : string) (W : World) : Slot → Prop :=
  | tracked_queued :
      tracked entry W (Queued (syncData entry baseDir files))
  | tracked_read :
      tracked entry W
        (Running (Await (afterReadFile entry baseDir files (fileUrlOf entry baseDir))))
  | tracked_stat contents :
      contents = contentsOf (fileUrlOf entry baseDir) →
      tracked entry W
        (Running (Await (afterStat entry baseDir files (fileUrlOf entry baseDir)
                           contents)))
  | tracked_info c st :
      readFile E (fileUrlOf entry baseDir) = Ok c →
      stat E (fileUrlOf entry baseDir) = Ok st →
      tracked entry W
        (Running (Await (afterGetEntryInfo entry baseDir files
                           (fileUrlOf entry baseDir) c st)))
  | tracked_parse c st info :
      readFile E (fileUrlOf entry baseDir) = Ok c →
      stat E (fileUrlOf entry baseDir) = Ok st →
      getEntryInfo E c (fileUrlOf entry baseDir) entry st (entryContext files) = Ok info →
      generateId E entry baseDir (info_data info) ∉ untouchedEntries W →
      tracked entry W
        (Running (Await (afterParseData entry
                           (generateId E entry baseDir (info_data info))
                           (info_data info) (info_body info)
                           (fileURLToPath E (fileUrlOf entry baseDir))
                           (relativePathOf (fileURLToPath E (fileUrlOf entry baseDir)))
                           (generateDigest E c))))
  | tracked_render c st info parsedData :
      readFile E (fileUrlOf entry baseDir) = Ok c →
      stat E (fileUrlOf entry baseDir) = Ok st →
      getEntryInfo E c (fileUrlOf entry baseDir) entry st (entryContext files) = Ok info →
      generateId E entry baseDir (info_data info) ∉ untouchedEntries W →
      tracked entry W
        (Running (Await (afterRender entry
                           (generateId E entry baseDir (info_data info))
                           parsedData (info_body info)
                           (fileURLToPath E (fileUrlOf entry baseDir))
                           (relativePathOf (fileURLToPath E (fileUrlOf entry baseDir)))
                           (generateDigest E c))))
  | tracked_resolved :
      accounted true entry W → tracked entry W (Running Resolved)
  | tracked_rejected m :
      accounted false entry W → tracked entry W (Running (Rejected m)).

Definition tracked_slot (W : World) (entry : string) (s : Slot) : Prop :=
  entry ∈ files ∧
  if isConfigFile E entry baseDir then s = Running Resolved
  else tracked entry W s.

(** The calls of a routine that finds its entry up to date: no render, no
    [store.set], no [store.delete], and a validation only when not
    [strict]. *)
Definition idle (strict : bool) (c : Call) : Prop :=
  match c with
  | CRender _ _ _ _ _ | CStoreSet _ | CStoreDelete _ => False
  | CParseData _ _ _ => strict = false
  | _ => True
  end.

(** A task that, run on worlds whose store is [S], leaves the store as it
    is and makes idle calls only. *)
Fixpoint quiet (strict : bool) (S : gmap string DataEntry) (t : Task) : Prop :=
  match t with
  | Await k =>
      ∀ W, store W = S →
           store (k W).1 = S ∧
           (∃ l, calls (k W).1 = calls W ++ l ∧ ∀ c, c ∈ l → idle strict c) ∧
           quiet strict S (k W).2
  | _ => True
  end.

Definition quiet_slot (strict : bool) (S : gmap string DataEntry) (s : Slot) : Prop :=
  match s with
  | Queued a => quiet strict S (Await a)
  | Running t => quiet strict S t
  end.

(** What a step of the routine on [entry] may do to the store and to
    [untouchedEntries]: the latter does not grow, and the former is as it
    was or has a new record for the identifier of the entry. *)
Definition step_effect (entry : string) (W W1 : World) : Prop :=
  untouchedEntries W1 ⊆ untouchedEntries W ∧
  (store W1 = store W
   ∨ ∃ c st info pd r,
       readFile E (fileUrlOf entry baseDir) = Ok c ∧
       stat E (fileUrlOf entry baseDir) = Ok st ∧
       getEntryInfo E c (fileUrlOf entry baseDir) entry st (entryContext files) = Ok info ∧
       store W1
       = <[generateId E entry baseDir (info_data info) :=
             newEntry (generateId E entry baseDir (info_data info)) pd
               (info_body info)
               (relativePathOf (fileURLToPath E (fileUrlOf entry baseDir)))
               (generateDigest E c) r]> (store W)).

(** For every file of the pass [stat] succeeds, and so do the splitter and
    the validation on what the routine hands them. *)
Definition others_succeed : Prop :=
  ∀ entry,
    entry ∈ files → isConfigFile E entry baseDir = false →
    (∃ st, stat E (fileUrlOf entry baseDir) = Ok st) ∧
    (∀ c st,
       readFile E (fileUrlOf entry baseDir) = Ok c →
       stat E (fileUrlOf entry baseDir) = Ok st →
       ∃ info parsedData,
         getEntryInfo E c (fileUrlOf entry baseDir) entry st (entryContext files)
         = Ok info ∧
         parseData E (generateId E entry baseDir (info_data info)) (info_data info)
           (fileURLToPath E (fileUrlOf entry baseDir)) = Ok parsedData).

(** Distinct files of the pass yield distinct identifiers. *)
Definition distinct_identifiers : Prop :=
  ∀ entry1 entry2 i c1 c2,
    entry1 ∈ files → isConfigFile E entry1 baseDir = false →
    entry2 ∈ files → isConfigFile E entry2 baseDir = false →
    derives entry1 baseDir files i c1 →
    derives entry2 baseDir files i c2 →
    entry1 = entry2.

(** The path of a file of the pass, relative to the root, is not empty. *)
Definition known_paths : Prop :=
  ∀ entry,
    entry ∈ files → isConfigFile E entry baseDir = false →
    relativePathOf (fileURLToPath E (fileUrlOf entry baseDir)) ≠ "".

Definition rejects_slot (s : Slot) : Prop :=
  match s with
  | Queued a => rejects (Await a)
  | Running t => rejects t
  end.

(** Whenever a slot shows a rejection, one has been noted. *)
Definition rejections_noted (slots : list Slot) (r : option string) : Prop :=
  ∀ j m, slots !! j = Some (Running (Rejected m)) → r ≠ None.

(** What [run_slots] can start from. *)
Definition startable (s : Slot) : Prop :=
  queued s = true ∨ s = Running Resolved.

(** [untouchedEntries.forEach((id) => store.delete(id))].  The identifiers
    are taken in the order of [elements]; in the loader the order is that of
    [store.keys()], which is the store's own. *)
Definition sweep (W : World) : World :=
  foldl (λ W i, store_delete i W) W (elements (untouchedEntries W)).

(** What the handlers of the watcher keep of the call of [load] that
    registered them. *)
Record Watching := { w_files : list string; w_basePath : string }.

Definition basePath : string := fileURLToPath E baseDir.

(** What [load] does once [Promise.all] has settled: a rejection is the
    caller's; otherwise the entries not found are removed and, with a
    watcher, the handlers are registered. *)
Definition finish (watcher : bool) (W : World) (r : option string)
    : World * res (option Watching) :=
  match r with
  | Some m => (W, Fail m)
  | None =>
      (sweep W,
       Ok (if watcher then Some {| w_files := files; w_basePath := basePath |}
           else None))
  end.

(** [load], under any schedule of the tasks of the pass, seen once every
    task has settled: when the promise of [load] resolves, and, for a pass
    that is rejected, when the tasks still in flight at the rejection have
    come to their end. *)
Definition load_any (watcher : bool) (W : World)
    (out : World * res (option Watching)) : Prop :=
  ∃ W' slots r,
    pool_steps (untouched_init W, schedule, None) (W', slots, r) ∧
    quiescent slots ∧
    out = finish watcher W' r.

(** [load], under the schedule of [run_slots]. *)
Definition load (watcher : bool) (W : World) : World * res (option Watching) :=
  let (W', r) := run_slots schedule (untouched_init W) None in
  finish watcher W' r.

(** *** The handlers of the watcher *)

Definition matchesGlob (entry : string) : bool :=
  negb (String.prefix "../" entry) && isMatch E entry pattern.

Definition onChange (w : Watching) (changedPath : string) : Async := λ W,
  let entry := posixRelative E (w_basePath w) changedPath in
  if negb (matchesGlob entry) then (W, Resolved)
  else
    let baseUrl' := pathToFileURL E (w_basePath w) in
    let (W', t) := syncData entry baseUrl' (w_files w) W in
    (W', andThen t (λ W,
           (call (CLogInfo ("Reloaded data from " +:+ green E entry)) W,
            Resolved))).

Definition onUnlink (w : Watching) (deletedPath : string) : Async := λ W,
  let entry := posixRelative E (w_basePath w) deletedPath in
  if negb (matchesGlob entry) then (W, Resolved)
  else
    let i := fileToIdMap W !! deletedPath in
    if truthy_string i then
      match i with
      | Some i' => (fileToIdMap_delete deletedPath (store_delete i' W), Resolved)
      | None => (W, Resolved)
      end
    else (W, Resolved).

Inductive WatchEvent :=
  | EvAdd (path : string)
  | EvChange (path : string)
  | EvUnlink (path : string).

Definition event_path (ev : WatchEvent) : string :=
  match ev with
  | EvAdd p | EvChange p | EvUnlink p => p
  end.

(** [watcher.on("change", onChange)], [watcher.on("add", onChange)] and
    [watcher.on("unlink", ...)] *)
Definition handler (w : Watching) (ev : WatchEvent) : Async :=
  match ev with
  | EvAdd p => onChange w p
  | EvChange p => onChange w p
  | EvUnlink p => onUnlink w p
  end.

(** The context of the splitter as a reading of the handlers would have
    it: on a change event the list of files handed to the splitter is the
    path of the entry alone. *)
Definition own_path_context (w : Watching) (path : string) (W : World) : Prop :=
  ∀ c u e fs,
    CGetEntryInfo c u e fs
      ∈ made (W, (start (handler w (EvChange path)) W).1) →
    fs = [posixRelative E (w_basePath w) path].

(** *** Errors that the routine does not catch *)

(** [m] is the error of one of the awaits of the routine, called on
    [entry], that no handler catches: that of [stat], that of the splitter
    on the contents read, or that of the validation on what the splitter
    returned. *)
Definition uncaught (entry base : string) (fs : list string) (m : string) : Prop :=
  stat E (fileUrlOf entry base) = Fail m
  ∨ ∃ c st,
      readFile E (fileUrlOf entry base) = Ok c ∧
      stat E (fileUrlOf entry base) = Ok st ∧
      (getEntryInfo E c (fileUrlOf entry base) entry st (entryContext fs) = Fail m
       ∨ ∃ info,
           getEntryInfo E c (fileUrlOf entry base) entry st (entryContext fs)
           = Ok info ∧
           parseData E (generateId E entry base (info_data info)) (info_data info)
             (fileURLToPath E (fileUrlOf entry base)) = Fail m).

(** *** Schedules given turn by turn *)

(** The turn of the event loop that runs the slot [j], when there is one:
    the function of the slot is started when it is at the head of the queue
    of the limiter and fewer than [concurrency] are running, and a suspended
    task is resumed. *)
Definition turn_at (j : nat) (p : Pool) : option Pool :=
  let '(W, slots, r) := p in
  match slots !! j with
  | Some (Queued a) =>
      if forallb (λ s, negb (queued s)) (take j slots)
         && (activeCount slots <? concurrency)%nat
      then Some ((a W).1, <[j := Running (a W).2]> slots, note (a W).2 r)
      else None
  | Some (Running (Await k)) =>
      Some ((k W).1, <[j := Running (k W).2]> slots, note (k W).2 r)
  | _ => None
  end.

(** The turns that run the slots of [order], one after the other. *)
Fixpoint turns_at (order : list nat) (p : Pool) : option Pool :=
  match order with
  | [] => Some p
  | j :: rest =>
      match turn_at j p with
      | Some p' => turns_at rest p'
      | None => None
      end
  end.

(** [load], under the schedule that takes the turns of [order]: nothing
    when [order] is no schedule of the pass, or leaves a task unsettled. *)
Definition load_in (order : list nat) (watcher : bool) (W : World)
    : option (World * res (option Watching)) :=
  match turns_at order (untouched_init W, schedule, None) with
  | Some (W', slots, r) =>
      if forallb settled slots then Some (finish watcher W' r) else None
  | None => None
  end.

(** A task that takes [i] out of [untouchedEntries] before it settles,
    whatever the worlds that its segments find. *)
Fixpoint touches (i : string) (t : Task) : Prop :=
  match t with
  | Await k => ∀ W, i ∉ untouchedEntries (k W).1 ∨ touches i (k W).2
  | _ => False
  end.

Definition touches_slot (i : string) (s : Slot) : Prop :=
  match s with
  | Queued a => touches i (Await a)
  | Running t => touches i t
  end.

(** *** The routine by itself *)

(** The identifier that the routine derives from [entry] in a full pass,
    when the read, [stat] and the splitter succeed. *)
Definition derived (entry : string) : option string :=
  match readFile E (fileUrlOf entry baseDir), stat E (fileUrlOf entry baseDir) with
  | Ok c, Ok st =>
      match getEntryInfo E c (fileUrlOf entry baseDir) entry st (entryContext files) with
      | Ok info => Some (generateId E entry baseDir (info_data info))
      | Fail _ => None
      end
  | _, _ => None
  end.

(** What the routine, run on [entry] in a full pass with nothing else
    scheduled in between, makes of the store [S], and whether it
    resolves. *)
Definition synced (entry : string) (S : gmap string DataEntry)
    : gmap string DataEntry * bool :=
  let fileUrl := fileUrlOf entry baseDir in
  match stat E fileUrl with
  | Fail _ => (S, false)
  | Ok stats =>
      match readFile E fileUrl with
      | Fail _ => (S, true)
      | Ok contents =>
          match getEntryInfo E contents fileUrl entry stats (entryContext files) with
          | Fail _ => (S, false)
          | Ok info =>
              let i := generateId E entry baseDir (info_data info) in
              let d := generateDigest E contents in
              let filePath' := fileURLToPath E fileUrl in
              if unchanged (S !! i) d then (S, true)
              else
                match parseData E i (info_data info) filePath' with
                | Fail _ => (S, false)
                | Ok parsedData =>
                    (<[i := newEntry i parsedData (info_body info)
                             (relativePathOf filePath') d
                             (match render E i parsedData (info_body info)
                                      filePath' d with
                              | Ok r => Some r
                              | Fail _ => None
                              end)]> S,
                     true)
                end
          end
      end
  end.

(** A task that, run among others that leave the records of the
    identifiers [own] alone, settles with these records as they are in
    [Sy], resolved when [ok] and rejected otherwise.  [S] has the records
    of these identifiers as the task last left them. *)
Fixpoint follows (own : string → Prop) (S Sy : gmap string DataEntry)
    (ok : bool) (t : Task) : Prop :=
  match t with
  | Resolved => ok = true ∧ ∀ i, own i → S !! i = Sy !! i
  | Rejected _ => ok = false ∧ ∀ i, own i → S !! i = Sy !! i
  | Await k =>
      ∀ W, (∀ i, own i → store W !! i = S !! i) →
           follows own (store (k W).1) Sy ok (k W).2
  end.

Definition follows_slot (own : string → Prop) (S Sy : gmap string DataEntry)
    (ok : bool) (s : Slot) : Prop :=
  match s with
  | Queued a => follows own S Sy ok (Await a)
  | Running t => follows own S Sy ok t
  end.

(** A task that, run among others that leave the records of the
    identifiers [own] alone, makes the call [c] before it settles.  [S] has
    the records of these identifiers as the task last left them. *)
Fixpoint says (own : string → Prop) (S : gmap string DataEntry) (c : Call)
    (t : Task) : Prop :=
  match t with
  | Await k =>
      ∀ W, (∀ i, own i → store W !! i = S !! i) →
           c ∈ made (W, (k W).1) ∨ says own (store (k W).1) c (k W).2
  | _ => False
  end.

Definition says_slot (own : string → Prop) (S : gmap string DataEntry) (c : Call)
    (s : Slot) : Prop :=
  match s with
  | Queued a => says own S c (Await a)
  | Running t => says own S c t
  end.

End Loader.

(** ** A vault on which the loader can be run *)

Module Vault.

(** A file: what [readFile] and [stat] settle with. *)
Definition Disk : Type := list (string * (res string * res Stats)).

Definition lookup_file (d : Disk) (url : string) : option (res string * res Stats) :=
  snd <$> List.find (λ f, String.eqb (fst f) url) d.

Definition ENOENT : string := "ENOENT: no such file or directory".

Definition mem (x : string) (l : list string) : bool :=
  existsb (String.eqb x) l.

Definition drop_prefix (n : nat) (s : string) : string :=
  String.substring n (String.length s - n) s.

(** The segments of a path: the pieces between slashes, none empty. *)
Fixpoint path_segments (s : string) (piece : string) : list string :=
  match s with
  | EmptyString => if String.eqb piece "" then [] else [piece]
  | String c s' =>
      if Ascii.eqb c (Ascii.ascii_of_nat 47)
      then (if String.eqb piece "" then [] else [piece]) ++ path_segments s' ""
      else path_segments s' (piece +:+ String c EmptyString)
  end.

Fixpoint strip_common (from to : list string) : list string * list string :=
  match from, to with
  | f :: from', t :: to' =>
      if String.eqb f t then strip_common from' to' else (from, to)
  | _, _ => (from, to)
  end.

(** [path.posix.relative] on absolute paths. *)
Definition relative (from to : string) : string :=
  let (up, down) := strip_common (path_segments from "") (path_segments to "") in
  String.concat "/" (map (λ _, "..") up ++ down).

(** The collaborators over a disk [d], with [globbed] the files that the
    pattern matches, [invalid] the identifiers whose front-matter fails
    validation and [unrenderable] those whose body fails to render. *)
Definition env (d : Disk) (globbed invalid unrenderable : list string) : Env :=
  {| readFile := λ url,
       match lookup_file d url with
       | Some f => fst f
       | None => Fail ENOENT
       end;
     stat := λ url,
       match lookup_file d url with
       | Some f => snd f
       | None => Fail ENOENT
       end;
     getEntryInfo := λ contents fileUrl entry stats ctx,
       Ok {| info_body := contents; info_data := [("title", entry)] |};
     generateId := λ entry base data,
       String.substring 0 (String.length entry - 3) entry;
     generateDigest := λ contents, "sha:" +:+ contents;
     parseData := λ i data filePath,
       if mem i invalid then Fail ("invalid front-matter in " +:+ i) else Ok data;
     render := λ i data body filePath digest,
       if mem i unrenderable then Fail ("cannot render " +:+ i)
       else Ok {| html := "<p>" +:+ body +:+ "</p>"; metadata := None |};
     isConfigFile := λ entry base, String.eqb entry "config.md";
     isMatch := λ entry pattern, endsWith entry ".md";
     fastGlob := λ pattern cwd, globbed;
     posixRelative := relative;
     fileURLToPath := drop_prefix 7;
     pathToFileURL := λ p, "file://" +:+ p;
     newURL := λ rel base, base +:+ rel;
     encodeURI := λ s, s;
     green := λ s, s |}.

Definition opts : ObsidianMdLoaderOptions :=
  {| opt_pattern := None; opt_base := Some "vault"; opt_i18n := None;
     opt_url := None; opt_author := None |}.

Definition config : AstroConfig :=
  {| root := "file:///site/"; i18n_defaultLocale := None |}.

Definition collection : string := "notes".

Definition file (contents : string) : res string * res Stats :=
  (Ok contents, Ok {| size := Z.of_nat (String.length contents); mtimeMs := 0 |}).

Definition empty_world : World :=
  {| store := ∅; untouchedEntries := ∅; fileToIdMap := ∅; calls := [] |}.

(** *** A vault of two notes and the settings of the loader *)

Definition a_md : string := "file:///site/vault/a.md".
Definition b_md : string := "file:///site/vault/b.md".
Definition config_md : string := "file:///site/vault/config.md".

Definition disk : Disk :=
  [(a_md, file "alpha"); (b_md, file ""); (config_md, file "settings")].

Definition globbed : list string := ["a.md"; "b.md"; "config.md"].

Definition vault : Env := env disk globbed [] [].

(** The world after a first full pass with a watcher, and what the
    handlers then keep. *)
Definition first_pass : World * res (option Watching) :=
  load vault opts config collection true empty_world.

Definition watching : Watching :=
  {| w_files := globbed; w_basePath := "/site/vault/" |}.

(** A new lifetime of the loader: the store is the one that Astro kept,
    the map from paths to identifiers is new. *)
Definition restart (W : World) : World :=
  {| store := store W; untouchedEntries := ∅; fileToIdMap := ∅; calls := [] |}.

(** *** Variations *)

(** [b.md] is removed after the glob has listed it: neither read nor
    [stat] finds it. *)
Definition vanished : Env :=
  env [(a_md, file "alpha"); (config_md, file "settings")] globbed [] [].

(** [b.md] is there but cannot be read. *)
Definition unreadable : Env :=
  env [(a_md, file "alpha");
       (b_md, (Fail "EACCES: permission denied", Ok {| size := 5; mtimeMs := 0 |}));
       (config_md, file "settings")]
    globbed [] [].

(** [b.md] is removed and the glob no longer lists it. *)
Definition removed : Env :=
  env [(a_md, file "alpha"); (config_md, file "settings")]
    ["a.md"; "config.md"] [] [].

(** [a.md] is edited. *)
Definition edited : Env :=
  env [(a_md, file "alpha, edited"); (b_md, file ""); (config_md, file "settings")]
    globbed [] [].

(** The body of [a.md] does not render. *)
Definition unrendered : Env := env disk globbed [] ["a"].

(** The front-matter of [a.md] is not valid. *)
Definition invalid : Env := env disk globbed ["a"] [].

(** A record left by an earlier pass for a file that is gone. *)
Definition old_entry : DataEntry :=
  {| id := "old"; data := [("title", "old.md")]; body := Some "old";
     filePath := Some "vault/old.md"; digest := Some "sha:old";
     rendered := None; assetImports := None; deferredRender := None |}.

Definition stale_world : World :=
  {| store := {[ "old" := old_entry ]}; untouchedEntries := ∅;
     fileToIdMap := ∅; calls := [] |}.

(** *** Runs *)

Definition base : string := baseDir vault opts config.

(** The routine on the file that vanished, and the full passes over the
    vault with the file vanished and with the file unreadable. *)
Definition vanished_routine : World * res unit :=
  start (syncData vanished opts config collection "b.md" base globbed) stale_world.

Definition vanished_pass : World * res (option Watching) :=
  load vanished opts config collection true stale_world.

Definition unreadable_pass : World * res (option Watching) :=
  load unreadable opts config collection true stale_world.

(** A change event for the settings file, after the first pass. *)
Definition config_changed : World * res unit :=
  start (handler vault opts config collection watching
           (EvChange "/site/vault/config.md"))
    first_pass.1.

(** A full pass in a new lifetime of the loader, and the removal of
    [a.md] after it; the same removal in the first lifetime. *)
Definition second_life : World * res (option Watching) :=
  load vault opts config collection true (restart first_pass.1).

Definition a_unlinked_second_life : World * res unit :=
  start (handler vault opts config collection watching
           (EvUnlink "/site/vault/a.md"))
    second_life.1.

Definition a_unlinked_first_life : World * res unit :=
  start (handler vault opts config collection watching
           (EvUnlink "/site/vault/a.md"))
    first_pass.1.

(** The routine alone on the empty note, on the note that does not
    render and on the note that is not valid, from the empty world. *)
Definition b_alone : list (World * World) :=
  alone_from (syncData vault opts config collection "b.md" base globbed)
    empty_world.

Definition a_unrendered_alone : list (World * World) :=
  alone_from (syncData unrendered opts config collection "a.md" base globbed)
    empty_world.


(** The routine alone on [a.md] after the first pass, and the handler
    alone on a change of [a.md] after the first pass. *)
Definition a_again_alone : list (World * World) :=
  alone_from (syncData vault opts config collection "a.md" base globbed)
    first_pass.1.

Definition a_changed_alone : list (World * World) :=
  alone_from (handler edited opts config collection watching
                (EvChange "/site/vault/a.md"))
    first_pass.1.


Definition second_pass : World * res (option Watching) :=
  load vault opts config collection false first_pass.1.

Definition removed_pass : World * res (option Watching) :=
  load removed opts config collection false first_pass.1.

(** The routine alone on the note that cannot be read, on the note that
    vanished, and on the edited note after the first pass. *)
Definition b_unreadable_alone : list (World * World) :=
  alone_from (syncData unreadable opts config collection "b.md" base globbed)
    empty_world.

Definition b_vanished_alone : list (World * World) :=
  alone_from (syncData vanished opts config collection "b.md" base globbed)
    stale_world.

Definition a_edited_alone : list (World * World) :=
  alone_from (syncData edited opts config collection "a.md" base globbed)
    first_pass.1.

(** A store in which the record of [a.md] is up to date and its rendering
    is deferred, and the routine alone on [a.md] over it. *)
Definition deferred_entry : DataEntry :=
  {| id := "a"; data := [("title", "a.md")]; body := Some "alpha";
     filePath := Some "vault/a.md"; digest := Some "sha:alpha";
     rendered := None; assetImports := None; deferredRender := Some true |}.

Definition deferred_world : World :=
  {| store := {[ "a" := deferred_entry ]}; untouchedEntries := ∅;
     fileToIdMap := ∅; calls := [] |}.

Definition a_deferred_alone : list (World * World) :=
  alone_from (syncData vault opts config collection "a.md" base globbed)
    deferred_world.

(** The notes are gone and the settings file is all that the glob lists;
    the full pass over what the first pass left. *)
Definition deserted : Env :=
  env [(config_md, file "settings")] ["config.md"] [] [].

Definition deserted_pass : World * res (option Watching) :=
  load deserted opts config collection false first_pass.1.

(** A schedule of the pass over the vault in which the tasks of [a.md]
    and [b.md] take turns, the one of [b.md] overtaking the other; the
    first pass and the pass with the note that does not render, under it. *)
Definition taking_turns : list nat := [0; 1; 1; 0; 1; 1; 0; 0; 1; 1; 0; 0].

Definition first_pass_taking_turns : option (World * res (option Watching)) :=
  load_in vault opts config collection taking_turns true empty_world.

Definition unrendered_pass_taking_turns : option (World * res (option Watching)) :=
  load_in unrendered opts config collection taking_turns true empty_world.

(** The pass with the note that is not valid, up to the turn in which the
    task of [a.md] is rejected: the task of [b.md] has not been started. *)
Definition invalid_pass_rejecting : option Pool :=
  turns_at [0; 0; 0; 0; 0]
    (untouched_init empty_world, schedule invalid opts config collection, None).

(** The pass with the note that does not render, up to the turn in which
    the task of [a.md] has logged the failure and written its record, the
    task of [b.md] waiting on its read. *)
Definition unrendered_pass_written : option Pool :=
  turns_at [0; 1; 0; 0; 0; 0; 0]
    (untouched_init empty_world, schedule unrendered opts config collection, None).

(** A change of [a.md] after the first pass, and its removal after that. *)
Definition a_changed : World * res unit :=
  start (handler edited opts config collection watching
           (EvChange "/site/vault/a.md"))
    first_pass.1.

Definition a_changed_unlinked : World * res unit :=
  start (handler edited opts config collection watching
           (EvUnlink "/site/vault/a.md"))
    a_changed.1.

(** The routine on [a.md] from the empty world, and once more on the world
    that it left. *)
Definition a_synced : World * res unit :=
  start (syncData vault opts config collection "a.md" base globbed) empty_world.

Definition a_synced_again : World * res unit :=
  start (syncData vault opts config collection "a.md" base globbed) a_synced.1.

End Vault.

(** * Properties *)

(** ** Calls made *)

Lemma made_app (W W' : World) (l : list Call) :
  calls W' = calls W ++ l → made (W, W') = l.
Proof.
  intros H. unfold made. simpl. rewrite H. apply drop_app_length.
Qed.

Lemma made_same (W : World) : made (W, W) = [].
Proof. apply made_app. by rewrite app_nil_r. Qed.

Lemma made_call (c : Call) (W : World) : made (W, call c W) = [c].
Proof. by apply made_app. Qed.

Lemma made_call2 (c1 c2 : Call) (W : World) :
  made (W, call c2 (call c1 W)) = [c1; c2].
Proof. apply made_app. simpl. by rewrite <- app_assoc. Qed.

Lemma made_twice (W : World) (l1 l2 : list Call) (W1 W2 : World) :
  calls W1 = calls W ++ l1 → calls W2 = calls W1 ++ l2 →
  made (W, W2) = l1 ++ l2.
Proof. intros H1 H2. apply made_app. by rewrite H2, H1, app_assoc. Qed.

Lemma makes_here (p : World * World) (l : list (World * World)) (c : Call) :
  c ∈ made p → makes (p :: l) c.
Proof. intros H. exists p. split; [left | done]. Qed.

Lemma makes_later (p : World * World) (l : list (World * World)) (c : Call) :
  makes l c → makes (p :: l) c.
Proof. intros (q & Hq & Hc). exists q. split; [by right | done]. Qed.

Lemma makes_cons (p : World * World) (l : list (World * World)) (c : Call) :
  makes (p :: l) c → c ∈ made p ∨ makes l c.
Proof.
  intros (q & Hq & Hc). apply elem_of_cons in Hq as [-> | Hq]; [by left |].
  right. by exists q.
Qed.

Lemma makes_nil (c : Call) : ¬ makes [] c.
Proof. intros (q & Hq & _). by apply elem_of_nil in Hq. Qed.

(** Computes the calls made by a segment whose worlds are known. *)
Ltac made_simpl :=
  unfold made, writeEntry;
  cbn [fst snd calls call store_set store_delete untouched_delete
       fileToIdMap_set fileToIdMap_delete];
  rewrite <- ?app_assoc; rewrite ?drop_app_length, ?drop_all;
  cbn [app].

Ltac made_simpl_in H :=
  unfold made, writeEntry in H;
  cbn [fst snd calls call store_set store_delete untouched_delete
       fileToIdMap_set fileToIdMap_delete] in H;
  rewrite <- ?app_assoc in H; rewrite ?drop_app_length, ?drop_all in H;
  cbn [app] in H.

Ltac elem_solve :=
  solve [ apply list_elem_of_here
        | apply list_elem_of_further; elem_solve ].

Ltac makes_solve :=
  solve [ apply makes_here; made_simpl; elem_solve
        | apply makes_later; makes_solve ].

(** Finds which segment of a known execution made a call. *)
Ltac makes_inv H :=
  repeat (apply makes_cons in H as [H | H];
          [made_simpl_in H;
           repeat (apply elem_of_cons in H as [H | H]; [try discriminate H |]);
           try (by apply elem_of_nil in H) |]);
  try (by apply makes_nil in H);
  simplify_eq.

Ltac head_of t :=
  lazymatch t with
  | ?f _ => head_of f
  | _ => t
  end.

(** Follows a task through its segments, with a case for every way in which
    a collaborator may settle. *)
Ltac seg_inv :=
  repeat match goal with
  | H : segments Resolved _ _ |- _ => inversion H; subst; clear H
  | H : segments (Rejected _) _ _ |- _ => inversion H; subst; clear H
  | H : segments (Await _) _ _ |- _ => inversion H; subst; clear H
  | H : segments (?t).2 _ _ |- _ =>
      lazymatch t with
      | (_, _) => cbn [fst snd] in *
      | match ?x with _ => _ end =>
          first [ match goal with Hx : x = _ |- _ => rewrite Hx in * end
                | destruct x eqn:? ]
      | _ => let h := head_of t in unfold h in *; cbn beta in *
      end
  end.

Ltac run_segments H :=
  destruct H as (? & ? & -> & H);
  unfold syncData in *; cbn [fst snd] in *;
  seg_inv.

(** Follows a slot through one step, with a case for every way in which a
    collaborator may settle. *)
Ltac step_cases H :=
  cbn [slot_step] in H; try discriminate H;
  apply (inj Some) in H;
  repeat lazymatch type of H with
  | (_, _) = (_, _) => injection H as <- <-
  | match ?x with _ => _ end = _ =>
      first [ match goal with Hx : x = _ |- _ => rewrite Hx in H end
            | destruct x eqn:? ]
  | ?t = _ => let h := head_of t in unfold h in H; cbv beta zeta in H
  end.

(** Two results of one call of a collaborator are one result. *)
Ltac same_results :=
  repeat match goal with
  | H1 : ?t = _, H2 : ?t = _ |- _ => rewrite H1 in H2; simplify_eq
  end.

(** Finds which segment of a known execution a pair of worlds is. *)
Ltac pairs_inv H :=
  repeat (apply elem_of_cons in H as [-> | H]);
  try (by apply elem_of_nil in H).

Lemma segments_alone (t : Task) (W : World) :
  segments t (alone t W) (run t W).2.
Proof.
  revert W. induction t as [| m | f IH] using Task_segments_ind; intros W.
  - constructor.
  - constructor.
  - simpl. specialize (IH W (f W).1).
    destruct (f W) as [W' t'] eqn:Hf. simpl in *.
    replace W' with (f W).1 by (by rewrite Hf).
    constructor. by rewrite Hf.
Qed.

(** The run of a task alone is one of its executions. *)
Lemma executes_alone (a : Async) (W : World) :
  executes a (alone_from a W) (start a W).2.
Proof.
  exists W, (alone (a W).2 (a W).1). split; [done |].
  unfold start. destruct (a W) as [W' t]. apply segments_alone.
Qed.

Section Properties.

Variable E : Env.
Variable opts : ObsidianMdLoaderOptions.
Variable config : AstroConfig.
Variable collection : string.

Abbreviation SyncData := (syncData E opts config collection).
Abbreviation Handler := (handler E opts config collection).
Abbreviation MatchesGlob := (matchesGlob E opts).
Abbreviation FileUrlOf := (fileUrlOf E).
Abbreviation EntryContext := (entryContext opts config collection).

(** ** Events on paths outside the base *)

(** C10: an event whose path, taken relative to the base, begins with
    [../] does not match, and its handler returns at once: the world is as
    it was (no call of [readFile], so no call of the routine, and the store
    untouched) and the promise is resolved. *)
Theorem C10_escaping_event_discarded (w : Watching) (ev : WatchEvent) (W : World) :
  String.prefix "../" (posixRelative E (w_basePath w) (event_path ev)) = true →
  MatchesGlob (posixRelative E (w_basePath w) (event_path ev)) = false ∧
  Handler w ev W = (W, Resolved).
Proof.
  intros Hup.
  assert (Hno : MatchesGlob (posixRelative E (w_basePath w) (event_path ev)) = false).
  { unfold matchesGlob. by rewrite Hup. }
  split; [done |].
  destruct ev; simpl in *;
    unfold onChange, onUnlink; by rewrite Hno.
Qed.

(** ** Executions of the routine *)

Lemma noContents_None (contents : option string) :
  noContents contents = true ↔ contents = None.
Proof.
  destruct contents as [s|]; simpl; [|done].
  unfold noContents; simpl. split; [|done].
  destruct (String.eqb s "") eqn:Hs; simpl; done.
Qed.

(** C9: a file read with success as the empty string is not taken for a
    failed read.  Under any interleaving with other tasks, the routine
    makes no [No contents found] warning, hands the empty contents to the
    splitter, and whatever it then writes to the store carries the body
    that the splitter returned and the digest of the empty contents.  Run
    on a store without a record for the identifier, with the splitter and
    the validation succeeding, it resolves and leaves such a record. *)
Theorem C9_empty_contents_proceed (entry base : string) (fs : list string)
    (st : Stats) (l : list (World * World)) (o : res unit) :
  readFile E (FileUrlOf entry base) = Ok "" →
  stat E (FileUrlOf entry base) = Ok st →
  executes (SyncData entry base fs) l o →
  makes l (CGetEntryInfo "" (FileUrlOf entry base) entry fs) ∧
  (∀ m, ¬ makes l (CLogWarn m)) ∧
  (∀ e, makes l (CStoreSet e) →
     ∃ info,
       getEntryInfo E "" (FileUrlOf entry base) entry st (EntryContext fs) = Ok info ∧
       body e = Some (info_body info) ∧
       digest e = Some (generateDigest E "")) ∧
  (∀ W info parsedData,
     getEntryInfo E "" (FileUrlOf entry base) entry st (EntryContext fs) = Ok info →
     store W !! generateId E entry base (info_data info) = None →
     parseData E (generateId E entry base (info_data info)) (info_data info)
       (fileURLToPath E (FileUrlOf entry base)) = Ok parsedData →
     (start (SyncData entry base fs) W).2 = Ok () ∧
     ∃ e,
       store (start (SyncData entry base fs) W).1
         !! generateId E entry base (info_data info) = Some e ∧
       body e = Some (info_body info) ∧
       digest e = Some (generateDigest E "")).
Proof.
  intros Hread Hstat Hex.
  split; [| split; [| split]].
  - run_segments Hex; try discriminate; makes_solve.
  - intros m Hm. run_segments Hex; try discriminate; makes_inv Hm.
  - intros e0 Hm. run_segments Hex; try discriminate; makes_inv Hm; eauto.
  - clear Hex. intros W info parsedData Hinfo Hnone Hparse.
    unfold start, syncData, afterReadFile. cbn. rewrite Hread. cbn.
    unfold afterStat. rewrite Hstat. cbn.
    unfold afterGetEntryInfo. rewrite Hinfo. cbn. rewrite Hnone. cbn.
    unfold afterParseData. rewrite Hparse. cbn.
    unfold afterRender.
    destruct (render E _ _ _ _ _); cbn;
      (split; [done |]); eexists; (split; [apply lookup_insert_eq | done]).
Qed.

Lemma unchanged_true (e : DataEntry) (d : string) :
  digest e = Some d → truthy_string (filePath e) = true →
  unchanged (Some e) d = true.
Proof.
  intros Hd Hp. unfold unchanged. rewrite Hd, Hp. simpl.
  by rewrite String.eqb_refl.
Qed.

Lemma unchanged_inv (x : option DataEntry) (d : string) :
  unchanged x d = true →
  ∃ e, x = Some e ∧ digest e = Some d ∧ truthy_string (filePath e) = true.
Proof.
  destruct x as [e|]; [|done]. unfold unchanged.
  intros [H1 H2]%andb_true_iff. exists e. split; [done |]. split; [|done].
  destruct (digest e) as [d'|]; [|done]. simpl in H1.
  apply String.eqb_eq in H1. by subst.
Qed.

(** The fast path, under any interleaving with other tasks: when the
    lookup of the store returns a record with the digest of the contents
    just read and a known file path, the routine resolves without a call
    of the validation, of the renderer or of [store.set], and none of its
    segments changes the store. *)
Lemma fast_path (entry base : string) (fs : list string)
    (l : list (World * World)) (o : res unit) (c i : string) (e : DataEntry) :
  executes (SyncData entry base fs) l o →
  readFile E (FileUrlOf entry base) = Ok c →
  makes l (CStoreGet i (Some e)) →
  digest e = Some (generateDigest E c) →
  truthy_string (filePath e) = true →
  o = Ok () ∧
  (∀ p, p ∈ l → store p.2 = store p.1) ∧
  (∀ c', makes l c' → ¬ transforms c').
Proof.
  intros Hex Hread Hget Hd Hp.
  run_segments Hex; makes_inv Hget.
  all: cbn [store untouched_delete] in *.
  all: try match goal with
       | H : unchanged (Some ?x) _ = false |- _ =>
           rewrite (unchanged_true x _ Hd Hp) in H; discriminate H
       | H : unchanged ?x _ = false, H' : Some _ = ?x |- _ =>
           rewrite <- H' in H;
           rewrite (unchanged_true _ _ Hd Hp) in H; discriminate H
       | H : unchanged ?x _ = false, H' : ?x = Some _ |- _ =>
           rewrite H' in H;
           rewrite (unchanged_true _ _ Hd Hp) in H; discriminate H
       end.
  all: split; [done |]; split;
    [ intros p Hp'; repeat (apply elem_of_cons in Hp' as [-> | Hp']); try done;
      try (by apply elem_of_nil in Hp')
    | intros c' Hc'; makes_inv Hc'; simpl; tauto ].
Qed.

(** A failed render, under any interleaving with other tasks: the routine
    that called the renderer and saw it fail resolves, logs the error, and
    calls [store.set] with a record that has the validated data, the body
    and the digest but neither [rendered] nor [assetImports]; of the store,
    its segments change the record of its own identifier only. *)
Lemma render_failure_stored (entry base : string) (fs : list string)
    (l : list (World * World)) (o : res unit)
    (i : string) (parsedData : Data) (b fp d m : string) :
  executes (SyncData entry base fs) l o →
  makes l (CRender i parsedData b fp d) →
  render E i parsedData b fp d = Fail m →
  o = Ok () ∧
  makes l (CLogError ("Error rendering " +:+ entry +:+ ": " +:+ m)) ∧
  (∃ e,
     makes l (CStoreSet e) ∧
     id e = i ∧ data e = parsedData ∧ body e = Some b ∧ digest e = Some d ∧
     rendered e = None ∧ assetImports e = None ∧
     ∃ p, p ∈ l ∧ store p.2 = <[i := e]> (store p.1)) ∧
  (∀ p j, p ∈ l → j ≠ i → store p.2 !! j = store p.1 !! j).
Proof.
  intros Hex Hcall Hfail.
  run_segments Hex; makes_inv Hcall.
  all: same_results.
  split; [done |]. split; [makes_solve |]. split.
  - eexists. split; [makes_solve |].
    repeat (split; [reflexivity |]).
    eexists. split; [do 5 right; left |]. reflexivity.
  - intros p j Hp Hj. pairs_inv Hp; try done.
    cbn. by rewrite lookup_insert_ne.
Qed.


(** ** The handlers of the watcher *)

Lemma segments_await_inv (k : Async) (l : list (World * World)) (o : res unit) :
  segments (Await k) l o →
  ∃ W l', l = (W, (k W).1) :: l' ∧ segments (k W).2 l' o.
Proof. inversion 1; subst. eauto. Qed.

Lemma segments_andThen (t : Task) (k : Async) (l : list (World * World))
    (o : res unit) :
  segments (andThen t k) l o →
  ∃ l1 o1,
    segments t l1 o1 ∧
    ((o1 = Ok () ∧ ∃ W l2, l = l1 ++ (W, (k W).1) :: l2 ∧ segments (k W).2 l2 o)
     ∨ (∃ m, o1 = Fail m ∧ l = l1 ∧ o = Fail m)).
Proof.
  revert l. induction t as [| m | f IH] using Task_segments_ind; intros l H.
  - simpl in H. apply segments_await_inv in H as (W & l' & -> & H).
    exists [], (Ok ()). split; [constructor |]. left. split; [done |].
    by exists W, l'.
  - simpl in H. inversion H; subst.
    exists [], (Fail m). split; [constructor |]. right. by exists m.
  - simpl in H. apply segments_await_inv in H as (W & l' & -> & H).
    destruct (f W) as [W' t'] eqn:Hf. simpl in *.
    specialize (IH W). rewrite Hf in IH. simpl in IH.
    destruct (IH _ H) as (l1 & o1 & Hseg & Hrest).
    exists ((W, W') :: l1), o1. split.
    + replace W' with (f W).1 by (by rewrite Hf).
      constructor. by rewrite Hf.
    + destruct Hrest as [(-> & W2 & l2 & -> & Hk) | (m & -> & -> & ->)].
      * left. split; [done |]. by exists W2, l2.
      * right. by exists m.
Qed.

(** On an add or change event for a path that matches, the handler calls
    the routine for that one entry, relative to the base, with the list of
    files that it keeps, and logs the reload once the routine has
    resolved. *)
Lemma onChange_syncs_entry (w : Watching) (ev : WatchEvent)
    (path : string) (l : list (World * World)) (o : res unit) :
  ev = EvAdd path ∨ ev = EvChange path →
  MatchesGlob (posixRelative E (w_basePath w) path) = true →
  executes (Handler w ev) l o →
  let entry := posixRelative E (w_basePath w) path in
  let base := pathToFileURL E (w_basePath w) in
  (∃ l1 o1,
     executes (SyncData entry base (w_files w)) l1 o1 ∧
     ((o1 = Ok () ∧ o = Ok () ∧
       ∃ W, l = l1 ++ [(W, call (CLogInfo ("Reloaded data from " +:+ green E entry)) W)])
      ∨ (∃ m, o1 = Fail m ∧ o = Fail m ∧ l = l1))) ∧
  makes l (CReadFile (FileUrlOf entry base)) ∧
  (∀ c u e fs, makes l (CGetEntryInfo c u e fs) →
     e = entry ∧ u = FileUrlOf entry base ∧ fs = w_files w).
Proof.
  intros Hev Hmatch Hex.
  assert (Hh : Handler w ev = onChange E opts config collection w path)
    by (destruct Hev as [-> | ->]; done).
  rewrite Hh in Hex. clear Hh Hev.
  destruct Hex as (W0 & l0 & -> & Hseg).
  unfold onChange in *. cbv zeta in *.
  set (entry := posixRelative E (w_basePath w) path) in *.
  set (base := pathToFileURL E (w_basePath w)) in *.
  rewrite Hmatch in *. cbn [negb] in *.
  destruct (SyncData entry base (w_files w) W0) as [W0' t] eqn:Hsync.
  cbn [fst snd] in *.
  apply segments_andThen in Hseg as (l1 & o1 & Hseg & Hrest).
  assert (Hex1 : executes (SyncData entry base (w_files w)) ((W0, W0') :: l1) o1).
  { exists W0, l1. rewrite Hsync. done. }
  assert (Hshape :
    (o1 = Ok () ∧ o = Ok () ∧
     ∃ W, (W0, W0') :: l0
          = ((W0, W0') :: l1)
              ++ [(W, call (CLogInfo ("Reloaded data from " +:+ green E entry)) W)])
    ∨ (∃ m, o1 = Fail m ∧ o = Fail m ∧ (W0, W0') :: l0 = (W0, W0') :: l1)).
  { destruct Hrest as [(-> & W & l2 & -> & Hk) | (m & -> & -> & ->)].
    - left. cbn [fst snd] in Hk. inversion Hk; subst. eauto.
    - right. eauto. }
  split; [by exists ((W0, W0') :: l1), o1 |].
  assert (Hsub : ∀ c, makes ((W0, W0') :: l0) c →
            makes ((W0, W0') :: l1) c ∨ ∃ m, c = CLogInfo m).
  { intros c (p & Hp & Hc).
    destruct Hshape as [(_ & _ & W & Hl) | (m & _ & _ & Hl)]; rewrite Hl in Hp.
    - apply elem_of_app in Hp as [Hp | Hp].
      + left. by exists p.
      + right. apply list_elem_of_singleton in Hp as ->.
        rewrite made_call in Hc. apply list_elem_of_singleton in Hc. eauto.
    - left. by exists p. }
  split.
  - apply makes_here. unfold syncData in Hsync. simplify_eq.
    made_simpl. elem_solve.
  - intros c u e fs Hc. apply Hsub in Hc as [Hc | (m & Hm)]; [| done].
    clear Hsub Hshape Hseg Hsync. revert Hc Hex1.
    generalize ((W0, W0') :: l1). intros l' Hc Hex1.
    run_segments Hex1; makes_inv Hc; done.
Qed.

(** ** The pool of the full pass *)

Abbreviation Phase := (phase E opts config collection).
Abbreviation Files := (files E opts config).
Abbreviation BaseDir := (baseDir E opts config).
Abbreviation Schedule := (schedule E opts config collection).
Abbreviation Load_any := (load_any E opts config collection).
Abbreviation Load := (load E opts config collection).

Lemma pool_step_slot (W W' : World) (slots slots' : list Slot)
    (r r' : option string) :
  pool_step (W, slots, r) (W', slots', r') →
  ∃ j s t',
    slots !! j = Some s ∧ slot_step s W = Some (W', t') ∧
    slots' = <[j := Running t']> slots ∧ r' = note t' r.
Proof.
  inversion 1; subst.
  - exists i, (Queued a), (a W).2. simpl. by destruct (a W).
  - exists i, (Running (Await k)), (k W).2. simpl. by destruct (k W).
Qed.

(** A step of a call of the routine leaves a call of the routine. *)
Lemma phase_step (entry base : string) (fs : list string) (s : Slot)
    (W W' : World) (t' : Task) :
  Phase entry base fs s → slot_step s W = Some (W', t') →
  Phase entry base fs (Running t').
Proof.
  intros Hph Hstep. destruct Hph; step_cases Hstep.
  all: try (by constructor).
  all: try (by econstructor; eauto).
  all: try (by constructor; unfold contentsOf;
               match goal with H : readFile _ _ = _ |- _ => rewrite H end).
  unfold contentsOf in *. destruct (readFile E _) eqn:?; simplify_eq.
  by econstructor.
Qed.

Abbreviation Scheduled := (scheduled E opts config collection).

(** Proving that a property holds of every pool that the event loop can
    reach.  [R] relates the world, a file and its slot, [P] is about the
    world, the slots and the rejection noted so far.  Both hold at the
    start; a step of a slot keeps [P], leaves the slot in [R], and does
    not take any slot out of [R]. *)
Lemma pool_invariant (R : World → string → Slot → Prop)
    (P : World → list Slot → option string → Prop)
    (entries : list string) (p p' : Pool) :
  pool_steps p p' →
  Forall2 (R p.1.1) entries p.1.2 →
  P p.1.1 p.1.2 p.2 →
  (∀ W slots r j entry s W1 t1,
     P W slots r → slots !! j = Some s → R W entry s →
     slot_step s W = Some (W1, t1) →
     P W1 (<[j := Running t1]> slots) (note t1 r) ∧
     R W1 entry (Running t1) ∧
     ∀ entry' s', R W entry' s' → R W1 entry' s') →
  Forall2 (R p'.1.1) entries p'.1.2 ∧ P p'.1.1 p'.1.2 p'.2.
Proof.
  intros Hsteps HR HP Hkeep.
  induction Hsteps as [p | p1 p2 p3 Hstep _ IH]; [done |].
  destruct p1 as [[W slots] r], p2 as [[W2 slots2] r2].
  apply pool_step_slot in Hstep as (j & s & t' & Hj & Hs & -> & ->).
  cbn [fst snd] in *.
  destruct (Forall2_lookup_r _ _ _ _ _ HR Hj) as (entry & Hentry & Hslot).
  destruct (Hkeep _ _ _ _ _ _ _ _ HP Hj Hslot Hs) as (HP' & Hslot' & Hothers).
  apply IH; [| done].
  replace entries with (<[j := entry]> entries) by (by apply list_insert_id).
  apply Forall2_insert; [| done].
  eapply Forall2_impl; [exact HR | done].
Qed.

Lemma schedule_scheduled : Forall2 Scheduled Files Schedule.
Proof.
  unfold schedule. apply Forall2_fmap_r, Forall_Forall2_diag, Forall_forall.
  intros entry Hin. split; [done |].
  destruct (isConfigFile E entry BaseDir); constructor.
Qed.

Lemma scheduled_step (entry : string) (s : Slot) (W W1 : World) (t1 : Task) :
  Scheduled entry s → slot_step s W = Some (W1, t1) →
  entry ∈ Files ∧ isConfigFile E entry BaseDir = false ∧
  Phase entry BaseDir Files s ∧ Scheduled entry (Running t1).
Proof.
  intros [Hin Hs] Hstep. unfold scheduled.
  destruct (isConfigFile E entry BaseDir); [by subst |].
  repeat split; try done. by eapply phase_step.
Qed.

(** *** The schedule of [run_slots] is one of the schedules *)

Lemma pool_steps_trans (p1 p2 p3 : Pool) :
  pool_steps p1 p2 → pool_steps p2 p3 → pool_steps p1 p3.
Proof.
  induction 1 as [| p1 p p2 Hst _ IH]; [done |].
  intros H. eapply steps_step; [exact Hst | by apply IH].
Qed.

Lemma note_res_ok (r : option string) : note_res (Ok ()) r = r.
Proof. by destruct r. Qed.

Lemma run_reaches (t : Task) :
  ∀ W slots r j,
    slots !! j = Some (Running t) →
    ∃ t',
      pool_steps (W, slots, note t r)
        ((run t W).1, <[j := Running t']> slots, note_res (run t W).2 r) ∧
      settled (Running t') = true.
Proof.
  induction t as [| m | f IH] using Task_segments_ind; intros W slots r j Hj.
  - exists Resolved. split; [| done]. simpl.
    rewrite list_insert_id by done. destruct r; apply steps_refl.
  - exists (Rejected m). split; [| done]. simpl.
    rewrite list_insert_id by done. destruct r; apply steps_refl.
  - simpl. destruct (f W) as [W1 t1] eqn:Hf.
    specialize (IH W). rewrite Hf in IH. simpl in IH.
    destruct (IH W1 (<[j := Running t1]> slots) r j) as (t' & Hsteps & Hset).
    { apply list_lookup_insert_eq. by eapply lookup_lt_Some. }
    exists t'. split; [| done].
    rewrite list_insert_insert_eq in Hsteps.
    eapply steps_step; [| exact Hsteps].
    pose proof (step_resume j f W slots r Hj) as Hstep.
    rewrite Hf in Hstep.
    replace (note (Await f) r) with r by (by destruct r). exact Hstep.
Qed.

Lemma activeCount_idle (slots : list Slot) :
  Forall (λ s, active s = false) slots → activeCount slots = 0.
Proof.
  unfold activeCount. induction 1 as [| s l Hs _ IH]; [done |].
  rewrite filter_cons_False; [done | congruence].
Qed.

Lemma run_slots_reaches (rest : list Slot) :
  ∀ done' W r,
    Forall (λ s, settled s = true) done' →
    Forall startable rest →
    ∃ rest',
      pool_steps (W, done' ++ rest, r)
        ((run_slots rest W r).1, done' ++ rest', (run_slots rest W r).2) ∧
      quiescent rest'.
Proof.
  induction rest as [| s rest IH]; intros done' W r Hdone Hrest.
  - exists []. split; [constructor | constructor].
  - apply Forall_cons in Hrest as [Hs Hrest].
    destruct s as [a | t].
    + simpl. unfold start. destruct (a W) as [W1 t1] eqn:Ha.
      destruct (run t1 W1) as [W2 o] eqn:Hrun.
      assert (Hlook : (done' ++ Queued a :: rest) !! length done' = Some (Queued a))
        by (by apply list_lookup_middle).
      assert (Hstart : pool_step (W, done' ++ Queued a :: rest, r)
                (W1, done' ++ Running t1 :: rest, note t1 r)).
      { pose proof (step_start (length done') a W (done' ++ Queued a :: rest) r Hlook)
          as Hstep.
        rewrite Ha in Hstep. cbn [fst snd] in Hstep.
        rewrite insert_app_r_alt, Nat.sub_diag in Hstep by done.
        apply Hstep.
        - intros j s Hlt Hjs. rewrite lookup_app_l in Hjs by done.
          eapply Forall_lookup_1 in Hdone; [| exact Hjs].
          by destruct s as [| [| |]].
        - rewrite activeCount_idle; [unfold concurrency; lia |].
          apply Forall_app. split.
          + eapply Forall_impl; [exact Hdone |]. by intros [| [| |]].
          + constructor; [done |].
            eapply Forall_impl; [exact Hrest |].
            intros s [Hq | ->]; [| done]. by destruct s. }
      destruct (run_reaches t1 W1 (done' ++ Running t1 :: rest) r (length done'))
        as (t' & Hsteps & Hset); [by apply list_lookup_middle |].
      rewrite Hrun in Hsteps. cbn [fst snd] in Hsteps.
      rewrite insert_app_r_alt, Nat.sub_diag in Hsteps by done.
      cbn [insert list_insert] in Hsteps.
      destruct (IH (done' ++ [Running t']) W2 (note_res o r)) as (rest' & Hrest' & Hq);
        [apply Forall_app; split; [done | by constructor] | done |].
      rewrite <- !app_assoc in Hrest'. cbn [app] in Hrest'.
      exists (Running t' :: rest'). split; [| by constructor].
      eapply steps_step; [exact Hstart |].
      eapply pool_steps_trans; [exact Hsteps | exact Hrest'].
    + destruct Hs as [Hs | ->]; [done |]. simpl. rewrite note_res_ok.
      destruct (IH (done' ++ [Running Resolved]) W r) as (rest' & Hrest' & Hq);
        [apply Forall_app; split; [done | by constructor] | done |].
      rewrite <- !app_assoc in Hrest'. cbn [app] in Hrest'.
      exists (Running Resolved :: rest'). split; [done | by constructor].
Qed.

Lemma schedule_startable : Forall startable Schedule.
Proof.
  unfold schedule. apply Forall_fmap, Forall_forall. intros entry _. simpl.
  destruct (isConfigFile E entry BaseDir); [by right | by left].
Qed.

(** [load] is [load_any] under one of the schedules, so what holds of
    [load_any] holds of a full pass that does take place. *)
Lemma load_is_load_any (watcher : bool) (W : World) :
  Load_any watcher W (Load watcher W).
Proof.
  unfold load_any, load.
  destruct (run_slots_reaches Schedule [] (untouched_init W) None)
    as (slots & Hsteps & Hq); [done | apply schedule_startable |].
  cbn [app] in Hsteps.
  destruct (run_slots Schedule (untouched_init W) None) as [W' r] eqn:Hrun.
  by exists W', slots, r.
Qed.

(** ** Entries not found by the pass *)

Abbreviation Derives := (derives E opts config collection).

Lemma sweep_fold_store (l : list string) (W : World) (i : string) :
  store (foldl (λ W i, store_delete i W) W l) !! i
  = if decide (i ∈ l) then None else store W !! i.
Proof.
  revert W. induction l as [| j l IH]; intros W.
  - cbn [foldl]. case_decide as Hin; [by apply elem_of_nil in Hin | done].
  - cbn [foldl]. rewrite IH. cbn [store store_delete].
    destruct (decide (i ∈ l)) as [Hin | Hnin].
    + by rewrite decide_True by (by right).
    + destruct (decide (i = j)) as [-> | Hne].
      * rewrite decide_True by left. apply lookup_delete_eq.
      * rewrite decide_False by (intros [? | ?]%elem_of_cons; done).
        by apply lookup_delete_ne.
Qed.

Lemma sweep_fold_calls (l : list string) (W : World) :
  calls (foldl (λ W i, store_delete i W) W l) = calls W ++ map CStoreDelete l.
Proof.
  revert W. induction l as [| j l IH]; intros W.
  - cbn [foldl map]. by rewrite app_nil_r.
  - cbn [foldl map]. rewrite IH. cbn [calls store_delete].
    by rewrite <- app_assoc.
Qed.

Lemma sweep_untouched (W : World) (i : string) :
  i ∈ untouchedEntries W → store (sweep W) !! i = None.
Proof.
  intros Hi. unfold sweep. rewrite sweep_fold_store.
  by rewrite decide_True by (by apply elem_of_elements).
Qed.

Lemma sweep_touched (W : World) (i : string) :
  i ∉ untouchedEntries W → store (sweep W) !! i = store W !! i.
Proof.
  intros Hi. unfold sweep. rewrite sweep_fold_store.
  by rewrite decide_False by (by rewrite elem_of_elements).
Qed.

(** C3: under any schedule, once a full pass has completed (the promise of
    [load] has resolved), an identifier that the store held when the pass
    began and that the routine derived from no file of the pass (files
    that are configuration files apart, for which the routine is not
    called) has no record in the store. *)
Theorem C3_stale_identifier_deleted (watcher : bool) (W W' : World)
    (w : option Watching) (i : string) :
  Load_any watcher W (W', Ok w) →
  i ∈ dom (store W) →
  (∀ entry c, entry ∈ Files → isConfigFile E entry BaseDir = false →
              ¬ Derives entry BaseDir Files i c) →
  store W' !! i = None.
Proof.
  intros (W2 & slots & r & Hsteps & _ & Hfin) Hi Hnew.
  unfold finish in Hfin. destruct r as [m |]; [done |].
  injection Hfin as -> _.
  apply sweep_untouched.
  apply (pool_invariant (λ _, Scheduled) (λ W _ _, i ∈ untouchedEntries W) Files)
    in Hsteps as [_ H]; [done | apply schedule_scheduled | done |].
  intros W0 slots0 r j entry s W1 t1 HP _ HR Hstep.
  destruct (scheduled_step _ _ _ _ _ HR Hstep) as (Hin & Hcfg & Hph & HR').
  split; [| by split].
  destruct Hph; step_cases Hstep; try done.
  all: cbn [untouchedEntries call untouched_delete writeEntry store_set
            fileToIdMap_set].
  all: try (apply elem_of_difference; split; [done |];
            rewrite not_elem_of_singleton; intros ->;
            eapply Hnew; [exact Hin | exact Hcfg |];
            eexists _, _; eauto).
Qed.

(** ** Failures of the validation *)



(** ** A second pass over unchanged files *)

Abbreviation UpToDate := (upToDate E opts config collection).
Abbreviation Accounted := (accounted E opts config collection).
Abbreviation Store_accounted := (store_accounted E opts config collection).
Abbreviation Tracked := (tracked E opts config collection).
Abbreviation Tracked_slot := (tracked_slot E opts config collection).
Abbreviation Distinct_identifiers := (distinct_identifiers E opts config collection).
Abbreviation Known_paths := (known_paths E opts config).
Abbreviation Step_effect := (step_effect E opts config collection).

Lemma newEntry_unchanged (i : string) (pd : Data) (b rp d : string)
    (r : option RenderedContent) :
  rp ≠ "" → unchanged (Some (newEntry i pd b rp d r)) d = true.
Proof.
  intros Hrp. apply unchanged_true; [done |]. simpl.
  destruct (String.eqb rp "") eqn:Heq; [| done].
  by apply String.eqb_eq in Heq.
Qed.

Lemma accounted_weaken (strict : bool) (entry : string) (W : World) :
  Accounted true entry W → Accounted strict entry W.
Proof.
  intros [Hup Hout]. split; [| done].
  intros c st info Hr Hs Hg.
  destruct (Hup c st info Hr Hs Hg) as [? | [? _]]; [by left | done].
Qed.

Lemma accounted_no_derivation (strict : bool) (entry : string) (W : World) :
  (∀ i c, ¬ Derives entry BaseDir Files i c) → Accounted strict entry W.
Proof.
  intros Hno. split.
  - intros c st info Hr Hs Hg. exfalso. eapply Hno. by eexists st, info.
  - intros i c Hd. exfalso. by eapply Hno.
Qed.

Lemma accounted_derived (strict : bool) (entry : string) (W : World)
    (c : string) (st : Stats) (info : EntryInfo) :
  readFile E (FileUrlOf entry BaseDir) = Ok c →
  stat E (FileUrlOf entry BaseDir) = Ok st →
  getEntryInfo E c (FileUrlOf entry BaseDir) entry st (EntryContext Files) = Ok info →
  generateId E entry BaseDir (info_data info) ∉ untouchedEntries W →
  (unchanged (store W !! generateId E entry BaseDir (info_data info))
     (generateDigest E c) = true
   ∨ (strict = false ∧
      ∃ m, parseData E (generateId E entry BaseDir (info_data info))
             (info_data info) (fileURLToPath E (FileUrlOf entry BaseDir)) = Fail m)) →
  Accounted strict entry W.
Proof.
  intros Hr Hs Hg Hout Hup. split.
  - intros c' st' info' Hr' Hs' Hg'. by same_results.
  - intros i c' (st' & info' & Hr' & Hs' & Hg' & ->). by same_results.
Qed.

Lemma untouched_delete_gone (i : string) (S : gset string) : i ∉ S ∖ {[i]}.
Proof. intros [_ Hn]%elem_of_difference. apply Hn. by apply elem_of_singleton. Qed.

Lemma tracked_step (entry : string) (s : Slot) (W W1 : World) (t1 : Task) :
  Known_paths →
  entry ∈ Files → isConfigFile E entry BaseDir = false →
  Tracked entry W s → slot_step s W = Some (W1, t1) →
  Tracked entry W1 (Running t1).
Proof.
  intros Hpaths Hin Hcfg Htr Hstep.
  destruct Htr; step_cases Hstep.
  all: try (by econstructor; eauto).
  all: try (by constructor; unfold contentsOf;
               match goal with H : readFile _ _ = _ |- _ => rewrite H end).
  - apply noContents_None in Heqb. subst contents.
    constructor. apply accounted_no_derivation.
    intros i c (st & info & Hr & _). unfold contentsOf in *.
    by rewrite Hr in *.
  - unfold contentsOf in *. destruct (readFile E _) eqn:Hr; simplify_eq.
    by econstructor.
  - subst contents. done.
  - constructor. apply accounted_no_derivation.
    intros i c (st & info & _ & Hs & _). congruence.
  - constructor. eapply accounted_derived; eauto.
    + apply untouched_delete_gone.
    + left. cbn [store call untouched_delete] in *. by rewrite Heqo.
  - constructor. eapply accounted_derived; eauto.
    + apply untouched_delete_gone.
    + left. cbn [store call untouched_delete] in *. by rewrite Heqo.
  - econstructor; eauto. apply untouched_delete_gone.
  - constructor. apply accounted_no_derivation.
    intros i c' (st' & info' & Hr' & Hs' & Hg' & _). by same_results.
  - constructor. eapply accounted_derived; eauto.
  - constructor. eapply accounted_derived; eauto.
    left. cbn. rewrite lookup_insert_eq. apply newEntry_unchanged.
    by apply Hpaths.
  - constructor. eapply accounted_derived; eauto.
    left. cbn. rewrite lookup_insert_eq. apply newEntry_unchanged.
    by apply Hpaths.
Qed.

Lemma tracked_effect (entry : string) (s : Slot) (W W1 : World) (t1 : Task) :
  Tracked entry W s → slot_step s W = Some (W1, t1) → Step_effect entry W W1.
Proof.
  intros Htr Hstep. destruct Htr; step_cases Hstep.
  all: split;
    [ unfold writeEntry;
      cbn [untouchedEntries call untouched_delete store_set fileToIdMap_set];
      first [ done | by apply subseteq_difference_l ]
    | first [ by left | right; by eexists _, _, _, _, _ ] ].
Qed.

Lemma accounted_stable (strict : bool) (entry entry' : string) (W W1 : World) :
  Distinct_identifiers → Known_paths →
  entry ∈ Files → isConfigFile E entry BaseDir = false →
  entry' ∈ Files → isConfigFile E entry' BaseDir = false →
  Step_effect entry W W1 →
  Accounted strict entry' W → Accounted strict entry' W1.
Proof.
  intros Hids Hpaths Hin Hcfg Hin' Hcfg' [Hsub Hstore] [Hup Hout]. split.
  - intros c' st' info' Hr' Hs' Hg'.
    destruct (Hup c' st' info' Hr' Hs' Hg') as [Hsame | Hfails]; [| by right].
    left. destruct Hstore as [-> | (c & st & info & pd & r & Hr & Hs & Hg & ->)];
      [done |].
    destruct (decide (generateId E entry' BaseDir (info_data info')
                      = generateId E entry BaseDir (info_data info))) as [Heq | Hne].
    + assert (entry' = entry) as ->.
      { eapply (Hids entry' entry); try done.
        - by eexists st', info'.
        - eexists st, info. by repeat split. }
      same_results. rewrite lookup_insert_eq.
      apply newEntry_unchanged. by apply Hpaths.
    + by rewrite lookup_insert_ne.
  - intros i c Hd Hi. by eapply Hout, Hsub.
Qed.

Lemma tracked_stable (entry entry' : string) (W W1 : World) (s' : Slot) :
  Distinct_identifiers → Known_paths →
  entry ∈ Files → isConfigFile E entry BaseDir = false →
  entry' ∈ Files → isConfigFile E entry' BaseDir = false →
  Step_effect entry W W1 →
  Tracked entry' W s' → Tracked entry' W1 s'.
Proof.
  intros Hids Hpaths Hin Hcfg Hin' Hcfg' Heff Htr.
  pose proof Heff as [Hsub _].
  destruct Htr; econstructor; eauto using accounted_stable.
Qed.

Lemma rejections_noted_step (slots : list Slot) (r : option string)
    (j : nat) (t : Task) :
  j < length slots →
  rejections_noted slots r →
  rejections_noted (<[j := Running t]> slots) (note t r).
Proof.
  intros Hlen Hnoted i m Hi. destruct (decide (i = j)) as [-> | Hne].
  - rewrite list_lookup_insert_eq in Hi by done.
    injection Hi as ->. by destruct r.
  - rewrite list_lookup_insert_ne in Hi by done.
    apply Hnoted in Hi. by destruct r, t.
Qed.

Lemma schedule_no_rejection : rejections_noted Schedule None.
Proof.
  intros i m Hi. unfold schedule in Hi. rewrite list_lookup_fmap in Hi.
  destruct (Files !! i) as [e |]; [| done]. cbn in Hi.
  by destruct (isConfigFile E e BaseDir).
Qed.

(** Once the tasks of a pass have settled, every file of the pass is
    accounted for, strictly so when no task was rejected; the store has no
    record that has not been looked at or written by the pass, and
    [untouchedEntries] has not grown. *)
Lemma pass_accounts (W W2 : World) (slots : list Slot) (r : option string) :
  Distinct_identifiers → Known_paths →
  pool_steps (untouched_init W, Schedule, None) (W2, slots, r) →
  quiescent slots →
  ∀ entry, entry ∈ Files → isConfigFile E entry BaseDir = false →
           Accounted (bool_decide (r = None)) entry W2.
Proof.
  intros Hids Hpaths Hsteps Hq entry Hin Hcfg.
  apply (pool_invariant Tracked_slot (λ _ slots r, rejections_noted slots r) Files)
    in Hsteps as [HR Hnoted]; [| | apply schedule_no_rejection |].
  - cbn [fst snd] in HR, Hnoted.
    apply list_elem_of_lookup in Hin as [j Hj].
    destruct (Forall2_lookup_l _ _ _ _ _ HR Hj) as (s & Hs & _ & Htr).
    rewrite Hcfg in Htr.
    eapply Forall_lookup_1 in Hq; [| exact Hs].
    destruct Htr; try done.
    + by apply accounted_weaken.
    + apply Hnoted in Hs. by rewrite bool_decide_eq_false_2.
  - unfold schedule. apply Forall2_fmap_r, Forall_Forall2_diag, Forall_forall.
    intros entry' Hin'. split; [done |].
    destruct (isConfigFile E entry' BaseDir); [done | constructor].
  - intros W0 slots0 r0 j entry0 s W1 t1 Hnoted Hj [Hin0 Htr] Hstep.
    destruct (isConfigFile E entry0 BaseDir) eqn:Hcfg0; [by subst |].
    split; [| split].
    + apply rejections_noted_step; [by eapply lookup_lt_Some | done].
    + split; [done |]. rewrite Hcfg0. by eapply tracked_step.
    + intros entry' s' [Hin' Htr']. split; [done |].
      destruct (isConfigFile E entry' BaseDir) eqn:Hcfg'; [done |].
      eapply (tracked_stable entry0); try done.
      by eapply tracked_effect.
Qed.

(** What a step of the routine does to [untouchedEntries] and to the
    store: it leaves them, or it takes out, or writes, the identifier that
    the routine derives from the entry. *)
Lemma phase_effect (entry : string) (s : Slot) (W W1 : World) (t1 : Task) :
  Phase entry BaseDir Files s → slot_step s W = Some (W1, t1) →
  (untouchedEntries W1 = untouchedEntries W
   ∨ ∃ i c, Derives entry BaseDir Files i c ∧
            untouchedEntries W1 = untouchedEntries W ∖ {[i]}) ∧
  (store W1 = store W
   ∨ ∃ i c e, Derives entry BaseDir Files i c ∧
              store W1 = <[i := e]> (store W)).
Proof.
  intros Hph Hstep. destruct Hph; step_cases Hstep.
  all: unfold writeEntry;
    cbn [store untouchedEntries call untouched_delete store_set fileToIdMap_set
         id newEntry].
  all: split;
    first [ by left
          | right; eexists _, _; split; [by eexists _, _ | reflexivity]
          | right; eexists _, _, _; split; [by eexists _, _ | reflexivity] ].
Qed.

Lemma pass_store_accounted (W W2 : World) (slots : list Slot) (r : option string) :
  pool_steps (untouched_init W, Schedule, None) (W2, slots, r) →
  Store_accounted W2 ∧ untouchedEntries W2 ⊆ dom (store W).
Proof.
  intros Hsteps.
  apply (pool_invariant (λ _, Scheduled)
           (λ W1 _ _, Store_accounted W1 ∧ untouchedEntries W1 ⊆ dom (store W)) Files)
    in Hsteps as [_ H]; [done | apply schedule_scheduled | |].
  - cbn [fst snd]. split; [| done].
    intros i Hi. left. by apply elem_of_dom.
  - intros W0 slots0 r0 j entry s W1 t1 [Hacc Hsub] _ HR Hstep.
    destruct (scheduled_step _ _ _ _ _ HR Hstep) as (Hin & Hcfg & Hph & HR').
    split; [| by split].
    destruct (phase_effect _ _ _ _ _ Hph Hstep) as [Hu Hs]. split.
    + intros i Hi.
      assert (Hbefore : is_Some (store W0 !! i) ∨
                ∃ c, Derives entry BaseDir Files i c).
      { destruct Hs as [<- | (i' & c & e & Hd & Heq)]; [by left |].
        rewrite Heq in Hi. destruct (decide (i = i')) as [-> | Hne].
        - right. by exists c.
        - left. by rewrite lookup_insert_ne in Hi. }
      destruct Hbefore as [Hi0 | [c Hd]]; [| right; by exists entry, c].
      destruct (Hacc i Hi0) as [Hin0 | Hd]; [| by right].
      destruct Hu as [-> | (i' & c & Hd & ->)]; [by left |].
      destruct (decide (i = i')) as [-> | Hne].
      * right. by exists entry, c.
      * left. apply elem_of_difference. split; [done |].
        by rewrite not_elem_of_singleton.
    + destruct Hu as [-> | (i' & c & Hd & ->)]; [done |].
      etrans; [apply subseteq_difference_l |]; done.
Qed.

Ltac quiet_calls :=
  eexists; split;
  [ cbn [calls call untouched_delete]; rewrite <- ?app_assoc;
    first [ reflexivity | symmetry; apply app_nil_r ]
  | let c := fresh "c" in let Hc := fresh "Hc" in
    intros c Hc;
    repeat (apply elem_of_cons in Hc as [-> | Hc]; [done |]);
    by apply elem_of_nil in Hc ].

(** On a store in which its entry is up to date, the routine is quiet. *)
Lemma syncData_quiet (strict : bool) (entry : string) (S : gmap string DataEntry) :
  UpToDate strict entry S →
  quiet strict S (Await (SyncData entry BaseDir Files)).
Proof.
  intros Hup. cbn [quiet]. intros W HW. unfold syncData. cbn [fst snd].
  split; [done |]. split; [quiet_calls |].
  intros W1 HW1. unfold afterReadFile.
  destruct (readFile E _) as [c | m] eqn:Hr; cbn [fst snd];
    (split; [done |]); (split; [quiet_calls |]);
    intros W2 HW2; unfold afterStat;
    (destruct (stat E _) as [st | m'] eqn:Hs; cbn [fst snd];
     [| by split; [| split; [quiet_calls |]]]).
  2: { cbn. by split; [| split; [quiet_calls |]]. }
  destruct (noContents (Some c)); cbn [fst snd];
    (split; [done |]); (split; [quiet_calls |]); [done |].
  intros W3 HW3. unfold afterGetEntryInfo.
  destruct (getEntryInfo E _ _ _ _ _) as [info | m'] eqn:Hg; cbn [fst snd];
    [| by split; [| split; [quiet_calls |]]].
  cbn [store untouched_delete]. rewrite HW3.
  destruct (unchanged (S !! _) _) eqn:Hun.
  - destruct (S !! _) as [e |]; [destruct (truthy_bool _) |]; cbn [fst snd];
      by split; [| split; [quiet_calls |]].
  - destruct (Hup c st info Hr Hs Hg) as [Hsame | [-> [m' Hfails]]];
      [congruence |].
    cbn [fst snd]. split; [done |]. split; [quiet_calls |].
    intros W4 HW4. unfold afterParseData.
    rewrite Hfails. cbn [fst snd]. by split; [| split; [quiet_calls |]].
Qed.

Lemma quiet_pool (strict : bool) (S : gmap string DataEntry) (p p' : Pool) :
  pool_steps p p' →
  Forall (quiet_slot strict S) p.1.2 → store p.1.1 = S →
  store p'.1.1 = S ∧
  ∃ l, calls p'.1.1 = calls p.1.1 ++ l ∧ ∀ c, c ∈ l → idle strict c.
Proof.
  induction 1 as [p | p1 p2 p3 Hstep _ IH]; intros Hq HS.
  - split; [done |]. exists []. split; [by rewrite app_nil_r |].
    by intros c ?%elem_of_nil.
  - destruct p1 as [[W slots] r], p2 as [[W2 slots2] r2].
    apply pool_step_slot in Hstep as (j & s & t' & Hj & Hs & -> & ->).
    cbn [fst snd] in *.
    pose proof (Forall_lookup_1 _ _ _ _ Hq Hj) as Hquiet.
    assert (Hseg : store W2 = S ∧
              (∃ l, calls W2 = calls W ++ l ∧ ∀ c, c ∈ l → idle strict c) ∧
              quiet strict S t').
    { destruct s as [a | [| m | k]]; cbn [slot_step] in Hs; try done;
        injection Hs as Hs; cbn [quiet_slot quiet] in Hquiet;
        specialize (Hquiet W HS); rewrite Hs in Hquiet; exact Hquiet. }
    destruct Hseg as (HS2 & (l1 & Hl1 & Hno1) & Hq').
    destruct IH as (HS3 & l2 & Hl2 & Hno2); [by apply Forall_insert | done |].
    split; [done |]. exists (l1 ++ l2). split.
    + by rewrite Hl2, Hl1, app_assoc.
    + intros c [? | ?]%elem_of_app; [by apply Hno1 | by apply Hno2].
Qed.

Lemma accounted_sweep (strict : bool) (entry : string) (W : World) :
  Accounted strict entry W → UpToDate strict entry (store (sweep W)).
Proof.
  intros [Hup Hout] c st info Hr Hs Hg.
  destruct (Hup c st info Hr Hs Hg) as [Hsame | Hfails]; [| by right].
  left. rewrite sweep_touched; [done |].
  eapply Hout. by eexists st, info.
Qed.

(** What a pass leaves: every file of the pass is up to date in the store,
    strictly so when the pass has resolved, and then every record of the
    store has the identifier of a file of the pass. *)
Lemma pass_leaves (watcher : bool) (W0 W1 : World) (out : res (option Watching)) :
  Distinct_identifiers → Known_paths →
  Load_any watcher W0 (W1, out) →
  (∀ entry, entry ∈ Files → isConfigFile E entry BaseDir = false →
            UpToDate (is_ok out) entry (store W1)) ∧
  (is_ok out = true →
   ∀ i, is_Some (store W1 !! i) →
        ∃ entry c, entry ∈ Files ∧ isConfigFile E entry BaseDir = false ∧
                   Derives entry BaseDir Files i c).
Proof.
  intros Hids Hpaths (W1' & slots & r & Hsteps & Hq & Hfin).
  pose proof (pass_accounts _ _ _ _ Hids Hpaths Hsteps Hq) as Hacc.
  pose proof (pass_store_accounted _ _ _ _ Hsteps) as [Hstore _].
  unfold finish in Hfin. destruct r as [m |]; injection Hfin as -> ->.
  - split; [| done].
    intros entry Hin Hcfg. apply (Hacc entry Hin Hcfg).
  - split.
    + intros entry Hin Hcfg. apply accounted_sweep, (Hacc entry Hin Hcfg).
    + intros _ i Hi.
      destruct (decide (i ∈ untouchedEntries W1')) as [Hu | Hu].
      * rewrite sweep_untouched in Hi by done. by destruct Hi.
      * rewrite sweep_touched in Hi by done.
        destruct (Hstore i Hi) as [? | ?]; done.
Qed.

(** What the tasks of a pass do on a store in which every file of the pass
    is up to date: the store stays as it is and the calls are idle. *)
Lemma pool_over_up_to_date (strict : bool) (W1 W2 : World) (slots : list Slot)
    (r : option string) :
  (∀ entry, entry ∈ Files → isConfigFile E entry BaseDir = false →
            UpToDate strict entry (store W1)) →
  pool_steps (untouched_init W1, Schedule, None) (W2, slots, r) →
  store W2 = store W1 ∧
  ∃ l, calls W2 = calls W1 ++ l ∧ ∀ c, c ∈ l → idle strict c.
Proof.
  intros Hup Hsteps.
  apply (quiet_pool strict (store W1)) in Hsteps; [done | | done].
  cbn [fst snd]. unfold schedule. apply Forall_fmap, Forall_forall.
  intros entry Hin. cbn.
  destruct (isConfigFile E entry BaseDir) eqn:Hcfg; [done |].
  apply syncData_quiet. by apply Hup.
Qed.

Lemma sweep_nothing (W : World) : untouchedEntries W = ∅ → sweep W = W.
Proof. intros H. unfold sweep. by rewrite H, elements_empty. Qed.

Lemma idle_not_rewrites (strict : bool) (c : Call) : idle strict c → ¬ rewrites c.
Proof. destruct c; cbn; tauto. Qed.

Lemma idle_not_transforms (c : Call) : idle true c → ¬ transforms c.
Proof. destruct c; cbn; intuition discriminate. Qed.

(** C2: the fast path, and a second pass over unchanged files.  Under any
    interleaving with other tasks, when the lookup of the store returns
    a record with the digest of the contents just read and a known file
    path, the routine resolves without a call of the validation, of the
    renderer or of [store.set], and none of its segments changes the
    store.  Take distinct files to yield distinct identifiers and file
    paths relative to the root not to be empty.  Under any schedules, a
    full pass that follows a full pass, with the same collaborators and on
    the world that the first one left, makes no call of the renderer and
    no call of [store.set]; when the first pass has resolved, the second
    makes no call of the validation and no call of [store.delete] either,
    and leaves the store as it found it. *)
Theorem C2_unchanged_entries_not_rewritten :
  (∀ entry base fs l o c i e,
     executes (SyncData entry base fs) l o →
     readFile E (FileUrlOf entry base) = Ok c →
     makes l (CStoreGet i (Some e)) →
     digest e = Some (generateDigest E c) →
     truthy_string (filePath e) = true →
     o = Ok () ∧
     (∀ p, p ∈ l → store p.2 = store p.1) ∧
     (∀ c', makes l c' → ¬ transforms c')) ∧
  (Distinct_identifiers → Known_paths →
   ∀ watcher1 watcher2 W0 W1 out1 W2 out2,
     Load_any watcher1 W0 (W1, out1) →
     Load_any watcher2 W1 (W2, out2) →
     (∀ c, c ∈ made (W1, W2) → ¬ rewrites c) ∧
     (is_ok out1 = true →
      store W2 = store W1 ∧ ∀ c, c ∈ made (W1, W2) → ¬ transforms c)).
Proof.
  split; [intros; by eapply fast_path |].
  intros Hids Hpaths watcher1 watcher2 W0 W1 out1 W2 out2 Hload1
    (W2' & slots & r & Hsteps & Hq & Hfin).
  destruct (pass_leaves _ _ _ _ Hids Hpaths Hload1) as [Hup Hderived].
  destruct (pool_over_up_to_date _ _ _ _ _ Hup Hsteps) as (HS & l & Hl & Hidle).
  split.
  - intros c Hc. unfold finish in Hfin. destruct r; injection Hfin as -> _.
    + rewrite (made_app _ _ _ Hl) in Hc. by eapply idle_not_rewrites, Hidle.
    + assert (Hl' : calls (sweep W2')
                = calls W1 ++ (l ++ map CStoreDelete (elements (untouchedEntries W2'))))
        by (unfold sweep; by rewrite sweep_fold_calls, Hl, app_assoc).
      rewrite (made_app _ _ _ Hl') in Hc.
      apply elem_of_app in Hc as [Hc | Hc]; [by eapply idle_not_rewrites, Hidle |].
      apply list_elem_of_fmap in Hc as (? & -> & _). by intros [].
  - intros Hok. rewrite Hok in Hidle.
    assert (Hnone : untouchedEntries W2' = ∅).
    { apply elem_of_equiv_empty_L. intros i Hi.
      destruct (pass_store_accounted _ _ _ _ Hsteps) as [_ Hsub].
      pose proof (Hsub _ Hi) as Hrec. apply elem_of_dom in Hrec.
      destruct (Hderived Hok i Hrec) as (entry & c & Hin & Hcfg & Hd).
      destruct (pass_accounts _ _ _ _ Hids Hpaths Hsteps Hq entry Hin Hcfg)
        as [_ Hout].
      exact (Hout i c Hd Hi). }
    assert (HW2 : W2 = W2').
    { unfold finish in Hfin. destruct r; injection Hfin as -> _; [done |].
      by apply sweep_nothing. }
    subst W2. split; [done |].
    intros c Hc. rewrite (made_app _ _ _ Hl) in Hc.
    by eapply idle_not_transforms, Hidle.
Qed.

(** ** Failures of the read and of [stat] *)

(** A failed read of a file on which [stat] succeeds, under any
    interleaving with other tasks: the routine logs the error, warns that
    there are no contents and resolves; none of its segments changes the
    store, [untouchedEntries] or [fileToIdMap]. *)
Lemma read_failure_skips (entry base : string) (fs : list string)
    (l : list (World * World)) (o : res unit) (m : string) (st : Stats) :
  readFile E (FileUrlOf entry base) = Fail m →
  stat E (FileUrlOf entry base) = Ok st →
  executes (SyncData entry base fs) l o →
  o = Ok () ∧
  makes l (CLogError ("Error reading " +:+ entry +:+ ": " +:+ m)) ∧
  makes l (CLogWarn ("No contents found for " +:+ entry)) ∧
  (∀ p, p ∈ l →
     store p.2 = store p.1 ∧
     untouchedEntries p.2 = untouchedEntries p.1 ∧
     fileToIdMap p.2 = fileToIdMap p.1).
Proof.
  intros Hread Hstat Hex. run_segments Hex; try discriminate.
  split; [done |]. split; [makes_solve |]. split; [makes_solve |].
  intros p Hp. pairs_inv Hp; done.
Qed.

(** A failure of [stat], under any interleaving with other tasks: the
    routine is rejected with the error of [stat], also when the read has
    failed and has been logged. *)
Lemma stat_failure_rejects (entry base : string) (fs : list string)
    (l : list (World * World)) (o : res unit) (m : string) :
  stat E (FileUrlOf entry base) = Fail m →
  executes (SyncData entry base fs) l o →
  o = Fail m ∧
  (∀ m', readFile E (FileUrlOf entry base) = Fail m' →
         makes l (CLogError ("Error reading " +:+ entry +:+ ": " +:+ m')) ∧
         ∀ w, ¬ makes l (CLogWarn w)) ∧
  (∀ p, p ∈ l → store p.2 = store p.1).
Proof.
  intros Hstat Hex. run_segments Hex.
  all: split; [done |]; split; [| intros p Hp; pairs_inv Hp; done].
  all: intros m' Hm'; simplify_eq.
  split; [makes_solve | intros w Hw; makes_inv Hw].
Qed.

Lemma stat_failure_rejects_slot (entry base : string) (fs : list string)
    (m : string) :
  stat E (FileUrlOf entry base) = Fail m →
  rejects_slot (Queued (SyncData entry base fs)).
Proof.
  intros Hstat. cbn. intros W W1. unfold afterReadFile.
  destruct (readFile E _); cbn; intros W2; unfold afterStat;
    by rewrite Hstat.
Qed.

(** A slot whose task is rejected whatever the others do: once the pool
    is at rest, a rejection has been noted. *)
Lemma rejecting_slot_noted (p p' : Pool) (j : nat) (s : Slot) :
  pool_steps p p' →
  (∀ i m, p.1.2 !! i = Some (Running (Rejected m)) → p.2 ≠ None) →
  p.1.2 !! j = Some s → rejects_slot s →
  quiescent p'.1.2 →
  p'.2 ≠ None.
Proof.
  intros Hsteps. revert s.
  induction Hsteps as [p | p1 p2 p3 Hstep _ IH]; intros s Hnoted Hj Hrej Hq.
  - eapply Forall_lookup_1 in Hq; [| exact Hj].
    destruct s as [a | [| m | k]]; try done. by eapply Hnoted.
  - destruct p1 as [[W slots] r], p2 as [[W2 slots2] r2].
    apply pool_step_slot in Hstep as (i & s0 & t' & Hi & Hs0 & -> & ->).
    cbn [fst snd] in *.
    assert (Hlen : i < length slots) by (by eapply lookup_lt_Some).
    destruct (decide (i = j)) as [-> | Hne].
    + eapply (IH (Running t')); [| by apply list_lookup_insert_eq | | done].
      * intros i' m' Hi'. destruct (decide (i' = j)) as [-> | Hne'].
        -- rewrite list_lookup_insert_eq in Hi' by done.
           injection Hi' as ->. by destruct r.
        -- rewrite list_lookup_insert_ne in Hi' by done.
           apply Hnoted in Hi'. by destruct r, t'.
      * rewrite Hj in Hi. injection Hi as <-.
        destruct s as [a | [| m | k]]; cbn [slot_step] in Hs0; try done;
          injection Hs0 as Hs0; cbn in Hrej; specialize (Hrej W);
          by rewrite Hs0 in Hrej.
    + eapply (IH s); [| by rewrite list_lookup_insert_ne | done | done].
      intros i' m' Hi'. destruct (decide (i' = i)) as [-> | Hne'].
      * rewrite list_lookup_insert_eq in Hi' by done.
        injection Hi' as ->. by destruct r.
      * rewrite list_lookup_insert_ne in Hi' by done.
        apply Hnoted in Hi'. by destruct r, t'.
Qed.

(** Under any schedule, a full pass over a file on which [stat] fails is
    rejected: the entries not found are not removed and no handler is
    registered. *)
Lemma stat_failure_rejects_pass (watcher : bool) (W W' : World)
    (out : res (option Watching)) (entry m : string) :
  entry ∈ Files → isConfigFile E entry BaseDir = false →
  stat E (FileUrlOf entry BaseDir) = Fail m →
  Load_any watcher W (W', out) →
  ∃ m', out = Fail m'.
Proof.
  intros Hin Hcfg Hstat (W2 & slots & r & Hsteps & Hq & Hfin).
  apply list_elem_of_lookup in Hin as [j Hj].
  eapply (rejecting_slot_noted _ _ j) in Hsteps; cbn [fst snd]; [| | | | done].
  - unfold finish in Hfin. destruct r as [m' |]; [| done].
    exists m'. by simplify_eq.
  - intros i m' Hi. unfold schedule in Hi.
    rewrite list_lookup_fmap in Hi.
    destruct (Files !! i) as [e |]; [| done]. cbn in Hi.
    by destruct (isConfigFile E e BaseDir).
  - unfold schedule. rewrite list_lookup_fmap, Hj. cbn. by rewrite Hcfg.
  - by eapply stat_failure_rejects_slot.
Qed.

(** ** Configuration files *)

(** The full pass does not call the routine for a configuration file. *)
Lemma config_file_not_scheduled (j : nat) (entry : string) :
  Files !! j = Some entry → isConfigFile E entry BaseDir = true →
  Schedule !! j = Some (Running Resolved).
Proof.
  intros Hj Hcfg. unfold schedule. rewrite list_lookup_fmap, Hj. cbn.
  by rewrite Hcfg.
Qed.

(** ** Unlink events *)

(** On an unlink event for a path that matches: with an identifier on
    record for the path (and not the empty string) the handler deletes
    the record of the identifier and forgets the path; without one it
    leaves the world as it is. *)
Lemma onUnlink_matching (w : Watching) (path : string) (W : World) :
  MatchesGlob (posixRelative E (w_basePath w) path) = true →
  (∀ i, fileToIdMap W !! path = Some i → i ≠ "" →
        Handler w (EvUnlink path) W
        = (fileToIdMap_delete path (store_delete i W), Resolved)) ∧
  (fileToIdMap W !! path = None →
   Handler w (EvUnlink path) W = (W, Resolved)).
Proof.
  intros Hmatch. cbn. unfold onUnlink. rewrite Hmatch. cbn. split.
  - intros i Hi Hne. rewrite Hi. cbn.
    destruct (String.eqb i "") eqn:Heq; [| done].
    by apply String.eqb_eq in Heq.
  - by intros ->.
Qed.

Abbreviation Others_succeed := (others_succeed E opts config collection).

(** Whatever the renderer does, at any point of any schedule, no task of a
    pass in which [stat], the splitter and the validation succeed has
    rejected [Promise.all]. *)
Lemma pool_not_rejected (W0 W2 : World) (slots : list Slot) (r : option string) :
  Others_succeed →
  pool_steps (W0, Schedule, None) (W2, slots, r) →
  r = None.
Proof.
  intros Hok Hsteps.
  apply (pool_invariant (λ _, Scheduled) (λ _ _ r, r = None) Files)
    in Hsteps as [_ Hr]; [done | apply schedule_scheduled | done |].
  intros W slots0 r0 j entry s W1 t1 -> _ HR Hstep.
  destruct (scheduled_step _ _ _ _ _ HR Hstep) as (Hin & Hcfg & Hph & HR').
  split; [| by split].
  destruct (Hok entry Hin Hcfg) as [[st0 Hst0] Hrest].
  destruct Hph; step_cases Hstep; try done.
  + destruct (Hrest _ _ H H0) as (info & pd & Hg & _). congruence.
  + destruct (Hrest _ _ H H0) as (info' & pd & Hg & Hp). by same_results.
Qed.

(** ** Schedules given turn by turn *)

Lemma turn_at_step (j : nat) (p p' : Pool) :
  turn_at j p = Some p' → pool_step p p'.
Proof.
  destruct p as [[W slots] r]. unfold turn_at.
  destruct (slots !! j) as [[a | [| m | k]] |] eqn:Hj; try done.
  - destruct (forallb _ _ && _) eqn:Hcan; [| done].
    apply andb_prop in Hcan as [Hhead Hfree].
    intros [= <-]. apply step_start; [done | |].
    + intros j' s Hlt Hs.
      rewrite forallb_forall in Hhead.
      assert (Hin : s ∈ take j slots) by (apply elem_of_take; by exists j').
      apply list_elem_of_In, Hhead in Hin. by destruct (queued s).
    + by apply Nat.ltb_lt.
  - intros [= <-]. by apply step_resume.
Qed.

Lemma turns_at_steps (order : list nat) (p p' : Pool) :
  turns_at order p = Some p' → pool_steps p p'.
Proof.
  revert p. induction order as [| j rest IH]; intros p; cbn [turns_at].
  - intros [= <-]. apply steps_refl.
  - destruct (turn_at j p) as [p1 |] eqn:Hturn; [| done].
    intros Hrest. eapply steps_step; [by apply (turn_at_step j) | by apply IH].
Qed.

Lemma load_in_load_any (order : list nat) (watcher : bool) (W : World)
    (out : World * res (option Watching)) :
  load_in E opts config collection order watcher W = Some out →
  Load_any watcher W out.
Proof.
  unfold load_in.
  destruct (turns_at order _) as [[[W' slots] r] |] eqn:Hturns; [| done].
  destruct (forallb settled slots) eqn:Hq; [| done].
  intros [= <-]. exists W', slots, r.
  split; [by apply (turns_at_steps order) |]. split; [| done].
  apply Forall_forall. intros s Hs.
  rewrite forallb_forall in Hq. by apply Hq, list_elem_of_In.
Qed.

(** ** What the handlers keep of the pass *)

Lemma load_any_watching (watcher : bool) (W W1 : World) (w : Watching) :
  Load_any watcher W (W1, Ok (Some w)) →
  w = {| w_files := Files; w_basePath := basePath E opts config |}.
Proof.
  intros (W2 & slots & r & _ & _ & Hfin). unfold finish in Hfin.
  destruct r; [done |]. destruct watcher; by simplify_eq.
Qed.

End Properties.

Section Watching.

(** The collaborators as they were during the full pass, [E0], and as they
    are when the event arrives, [E]. *)
Variables E0 E : Env.
Variable opts : ObsidianMdLoaderOptions.
Variable config : AstroConfig.
Variable collection : string.

(** C4: on an add or change event for a path that matches, the handler
    calls the routine for that one entry, relative to the base, and the
    list of files that it hands over is the one that the full pass computed
    before it registered the handlers: the list is not computed again, and
    it is not the path of the entry alone.  The routine is called (its read
    of the file is made), the splitter is only ever called for this entry
    with that list, and the reload is logged once the routine has
    resolved. *)
Theorem C4_event_syncs_entry_with_pass_files (watcher : bool) (W0 W1 : World)
    (w : Watching) (ev : WatchEvent) (path : string)
    (l : list (World * World)) (o : res unit) :
  load_any E0 opts config collection watcher W0 (W1, Ok (Some w)) →
  ev = EvAdd path ∨ ev = EvChange path →
  matchesGlob E opts (posixRelative E (w_basePath w) path) = true →
  executes (handler E opts config collection w ev) l o →
  let entry := posixRelative E (w_basePath w) path in
  let base := pathToFileURL E (w_basePath w) in
  w_files w = files E0 opts config ∧
  (∃ l1 o1,
     executes (syncData E opts config collection entry base (files E0 opts config)) l1 o1 ∧
     ((o1 = Ok () ∧ o = Ok () ∧
       ∃ W, l = l1 ++ [(W, call (CLogInfo ("Reloaded data from " +:+ green E entry)) W)])
      ∨ (∃ m, o1 = Fail m ∧ o = Fail m ∧ l = l1))) ∧
  makes l (CReadFile (fileUrlOf E entry base)) ∧
  (∀ c u e fs, makes l (CGetEntryInfo c u e fs) →
     e = entry ∧ u = fileUrlOf E entry base ∧ fs = files E0 opts config).
Proof.
  intros Hload Hev Hmatch Hex entry base.
  apply load_any_watching in Hload.
  assert (Hfiles : w_files w = files E0 opts config) by (by subst w).
  split; [done |]. rewrite <- Hfiles.
  by apply (onChange_syncs_entry E opts config collection w ev path).
Qed.

End Watching.


Lemma C10_escaping_event_discarded_witness :
  matchesGlob (Vault.env [] [] [] []) Vault.opts
    (posixRelative (Vault.env [] [] [] []) "/site/vault/" "/elsewhere/x.md") = false ∧
  handler (Vault.env [] [] [] []) Vault.opts Vault.config Vault.collection
    {| w_files := []; w_basePath := "/site/vault/" |}
    (EvUnlink "/elsewhere/x.md") Vault.empty_world
  = (Vault.empty_world, Resolved).
Proof.
  apply (C10_escaping_event_discarded (Vault.env [] [] [] []) Vault.opts Vault.config
           Vault.collection {| w_files := []; w_basePath := "/site/vault/" |}
           (EvUnlink "/elsewhere/x.md") Vault.empty_world).
  reflexivity.
Defined.

(** * The vault *)

(** Proves that a call is not among the calls of a world that computes. *)
Ltac not_called :=
  let H := fresh "H" in
  intros H; vm_compute in H;
  repeat (apply elem_of_cons in H as [H | H]; [discriminate H |]);
  by apply elem_of_nil in H.

(** C1: a file that vanishes after the glob has listed it.  Its read fails
    and is logged, but [stat], called before the contents are looked at,
    fails as well: the routine is rejected instead of returning, and so is
    the full pass, which then neither removes the record of a file long
    gone nor registers the handlers.  With a file that is there but cannot
    be read, [stat] succeeds and the pass completes. *)
Theorem C1_vanished_file_rejects_pass :
  readFile Vault.vanished Vault.b_md = Fail Vault.ENOENT ∧
  stat Vault.vanished Vault.b_md = Fail Vault.ENOENT ∧
  Vault.vanished_routine.2 = Fail Vault.ENOENT ∧
  CLogError ("Error reading b.md: " +:+ Vault.ENOENT) ∈ calls Vault.vanished_routine.1 ∧
  (CLogWarn "No contents found for b.md" ∉ calls Vault.vanished_routine.1) ∧
  Vault.vanished_pass.2 = Fail Vault.ENOENT ∧
  store Vault.vanished_pass.1 !! "old" = Some Vault.old_entry ∧
  Vault.unreadable_pass.2 = Ok (Some Vault.watching) ∧
  store Vault.unreadable_pass.1 !! "old" = None.
Proof.
  repeat split; try (vm_compute; reflexivity).
  - vm_compute. elem_solve.
  - not_called.
Qed.

(** C5: the settings file of the loader matches the pattern.  The full pass
    leaves it alone (it is not read and gets no record), but a change event
    for it, after the pass, calls the routine: the file is read and a record
    is written for it. *)
Theorem C5_change_event_ingests_config_file :
  isConfigFile Vault.vault "config.md" Vault.base = true ∧
  matchesGlob Vault.vault Vault.opts "config.md" = true ∧
  posixRelative Vault.vault (w_basePath Vault.watching) "/site/vault/config.md"
  = "config.md" ∧
  Vault.first_pass.2 = Ok (Some Vault.watching) ∧
  (CReadFile Vault.config_md ∉ calls Vault.first_pass.1) ∧
  store Vault.first_pass.1 !! "config" = None ∧
  Vault.config_changed.2 = Ok () ∧
  CReadFile Vault.config_md ∈ calls Vault.config_changed.1 ∧
  is_Some (store Vault.config_changed.1 !! "config").
Proof.
  repeat split; try (vm_compute; reflexivity).
  - not_called.
  - vm_compute. elem_solve.
  - vm_compute. eexists. reflexivity.
Qed.

(** C7: a file synced in an earlier lifetime of the loader.  In the new
    lifetime the full pass finds its record up to date and takes the fast
    path, which returns before the path is mapped to the identifier; when the
    file is then removed, the unlink handler finds no identifier and leaves
    the record in the store.  In the lifetime in which the record was
    written, the same event deletes it. *)
Theorem C7_unlink_after_fast_path_keeps_record :
  is_Some (store (Vault.restart Vault.first_pass.1) !! "a") ∧
  Vault.second_life.2 = Ok (Some Vault.watching) ∧
  store Vault.second_life.1 = store Vault.first_pass.1 ∧
  fileToIdMap Vault.second_life.1 !! "/site/vault/a.md" = None ∧
  matchesGlob Vault.vault Vault.opts
    (posixRelative Vault.vault (w_basePath Vault.watching) "/site/vault/a.md") = true ∧
  Vault.a_unlinked_second_life = (Vault.second_life.1, Ok ()) ∧
  is_Some (store Vault.a_unlinked_second_life.1 !! "a") ∧
  fileToIdMap Vault.first_pass.1 !! "/site/vault/a.md" = Some "a" ∧
  store Vault.a_unlinked_first_life.1 !! "a" = None.
Proof.
  repeat split; try (vm_compute; reflexivity).
  - vm_compute. eexists. reflexivity.
  - vm_compute. eexists. reflexivity.
Qed.

(** C4, with the path of the entry alone as the list of files: after a
    pass over three files, a change event for [a.md] hands the splitter the
    three files of the pass, not [a.md] alone. *)
Lemma C4_context_is_not_own_path :
  ¬ own_path_context Vault.edited Vault.opts Vault.config Vault.collection
      Vault.watching "/site/vault/a.md" Vault.first_pass.1.
Proof.
  intros H.
  specialize (H "alpha, edited" Vault.a_md "a.md" Vault.globbed).
  assert (Hfs : Vault.globbed = ["a.md"]); [| discriminate Hfs].
  apply H. vm_compute. elem_solve.
Qed.

(** ** Instances of the theorems *)

(** Finds, in an execution that computes, the segment that made a call. *)
Ltac makes_compute_from :=
  solve [ apply makes_here; vm_compute; elem_solve
        | apply makes_later; makes_compute_from ].

Ltac makes_compute :=
  lazymatch goal with
  | |- makes ?l ?c =>
      let l' := eval vm_compute in l in
      change (makes l' c); makes_compute_from
  end.

Lemma load_any_of_load (E : Env) (opts : ObsidianMdLoaderOptions)
    (config : AstroConfig) (collection : string) (watcher : bool) (W : World) :
  load_any E opts config collection watcher W
    ((load E opts config collection watcher W).1,
     (load E opts config collection watcher W).2).
Proof. rewrite <- surjective_pairing. apply load_is_load_any. Qed.

Lemma C9_empty_contents_proceed_witness :
  readFile Vault.vault Vault.b_md = Ok "" ∧
  makes Vault.b_alone (CGetEntryInfo "" Vault.b_md "b.md" Vault.globbed) ∧
  (∀ m, ¬ makes Vault.b_alone (CLogWarn m)).
Proof.
  split; [reflexivity |].
  pose proof (C9_empty_contents_proceed Vault.vault Vault.opts Vault.config
                Vault.collection "b.md" Vault.base Vault.globbed
                {| size := 0; mtimeMs := 0 |} Vault.b_alone _
                eq_refl eq_refl (executes_alone _ _)) as (H1 & H2 & _).
  split; [exact H1 | exact H2].
Defined.

Lemma unrendered_others_succeed :
  others_succeed Vault.unrendered Vault.opts Vault.config Vault.collection.
Proof.
  intros entry Hin Hcfg. vm_compute in Hin.
  repeat (apply elem_of_cons in Hin as [-> | Hin]);
    try (by apply elem_of_nil in Hin);
    try (vm_compute in Hcfg; discriminate Hcfg);
    (split; [eexists; vm_compute; reflexivity |]);
    intros c st Hr Hs; eexists _, _; (split; [reflexivity |]);
    vm_compute; reflexivity.
Qed.


Lemma C3_stale_identifier_deleted_witness :
  is_Some (store Vault.first_pass.1 !! "b") ∧
  store Vault.removed_pass.1 !! "b" = None.
Proof.
  split; [vm_compute; eexists; reflexivity |].
  apply (C3_stale_identifier_deleted Vault.removed Vault.opts Vault.config
           Vault.collection false Vault.first_pass.1 Vault.removed_pass.1 None "b").
  - replace (Ok None) with Vault.removed_pass.2 by (vm_compute; reflexivity).
    apply load_any_of_load.
  - apply elem_of_dom. vm_compute. eexists. reflexivity.
  - intros entry c Hin Hcfg (st & info & _ & _ & _ & Hi).
    vm_compute in Hin.
    repeat (apply elem_of_cons in Hin as [-> | Hin]);
      [ vm_compute in Hi; discriminate Hi
      | vm_compute in Hcfg; discriminate Hcfg
      | by apply elem_of_nil in Hin ].
Defined.

Lemma vault_distinct_identifiers :
  distinct_identifiers Vault.vault Vault.opts Vault.config Vault.collection.
Proof.
  intros e1 e2 i c1 c2 Hin1 Hcfg1 Hin2 Hcfg2
    (st1 & info1 & _ & _ & _ & Hi1) (st2 & info2 & _ & _ & _ & Hi2).
  vm_compute in Hin1, Hin2.
  repeat (apply elem_of_cons in Hin1 as [-> | Hin1]);
    try (by apply elem_of_nil in Hin1);
    repeat (apply elem_of_cons in Hin2 as [-> | Hin2]);
    try (by apply elem_of_nil in Hin2);
    try reflexivity;
    try (vm_compute in Hcfg1; discriminate Hcfg1);
    try (vm_compute in Hcfg2; discriminate Hcfg2);
    vm_compute in Hi1, Hi2; subst i; discriminate Hi2.
Qed.

Lemma vault_known_paths : known_paths Vault.vault Vault.opts Vault.config.
Proof.
  intros entry Hin Hcfg. vm_compute in Hin.
  repeat (apply elem_of_cons in Hin as [-> | Hin]);
    try (by apply elem_of_nil in Hin);
    vm_compute; discriminate.
Qed.

Lemma C2_unchanged_entries_not_rewritten_witness :
  readFile Vault.vault Vault.a_md = Ok "alpha" ∧
  is_ok Vault.first_pass.2 = true ∧
  (∀ c, makes Vault.a_again_alone c → ¬ transforms c) ∧
  store Vault.second_pass.1 = store Vault.first_pass.1 ∧
  (∀ c, c ∈ made (Vault.first_pass.1, Vault.second_pass.1) → ¬ transforms c).
Proof.
  split; [reflexivity |]. split; [reflexivity |].
  pose proof (C2_unchanged_entries_not_rewritten Vault.vault Vault.opts Vault.config
                Vault.collection) as [Hfast Hpass].
  split.
  - assert (Hget : ∃ e, makes Vault.a_again_alone (CStoreGet "a" (Some e)) ∧
                        digest e = Some "sha:alpha" ∧
                        truthy_string (filePath e) = true).
    { eexists. split; [unfold Vault.a_again_alone; makes_compute |].
      split; reflexivity. }
    destruct Hget as (e & Hget & Hd & Hp).
    apply (Hfast "a.md" Vault.base Vault.globbed Vault.a_again_alone _ "alpha" "a" e
             (executes_alone _ _) eq_refl Hget Hd Hp).
  - apply (Hpass vault_distinct_identifiers vault_known_paths true false
             Vault.empty_world Vault.first_pass.1 Vault.first_pass.2
             Vault.second_pass.1 Vault.second_pass.2
             (load_any_of_load _ _ _ _ _ _) (load_any_of_load _ _ _ _ _ _)).
    reflexivity.
Defined.

Lemma C4_event_syncs_entry_with_pass_files_witness :
  matchesGlob Vault.edited Vault.opts
    (posixRelative Vault.edited (w_basePath Vault.watching) "/site/vault/a.md") = true ∧
  w_files Vault.watching = files Vault.vault Vault.opts Vault.config ∧
  makes Vault.a_changed_alone (CReadFile Vault.a_md) ∧
  (∀ c u e fs, makes Vault.a_changed_alone (CGetEntryInfo c u e fs) →
               e = "a.md" ∧ fs = Vault.globbed).
Proof.
  split; [reflexivity |].
  assert (Hload : load_any Vault.vault Vault.opts Vault.config Vault.collection true
            Vault.empty_world (Vault.first_pass.1, Ok (Some Vault.watching))).
  { replace (Ok (Some Vault.watching)) with Vault.first_pass.2
      by (vm_compute; reflexivity).
    apply load_any_of_load. }
  pose proof (C4_event_syncs_entry_with_pass_files Vault.vault Vault.edited Vault.opts
                Vault.config Vault.collection true Vault.empty_world
                Vault.first_pass.1 Vault.watching (EvChange "/site/vault/a.md")
                "/site/vault/a.md" Vault.a_changed_alone _
                Hload (or_intror eq_refl) eq_refl (executes_alone _ _))
    as (Hfiles & _ & Hread & Hsplit).
  split; [exact Hfiles |]. split; [exact Hread |].
  intros c u e fs Hc. destruct (Hsplit c u e fs Hc) as (He & _ & Hfs).
  split; [exact He | exact Hfs].
Defined.

(** * Further properties of the loader *)

Section Further.

Variable E : Env.
Variable opts : ObsidianMdLoaderOptions.
Variable config : AstroConfig.
Variable collection : string.

Abbreviation SyncData := (syncData E opts config collection).
Abbreviation Handler := (handler E opts config collection).
Abbreviation MatchesGlob := (matchesGlob E opts).
Abbreviation FileUrlOf := (fileUrlOf E).
Abbreviation EntryContext := (entryContext opts config collection).
Abbreviation RelativePathOf := (relativePathOf E opts config).
Abbreviation Phase := (phase E opts config collection).
Abbreviation Files := (files E opts config).
Abbreviation BaseDir := (baseDir E opts config).
Abbreviation Schedule := (schedule E opts config collection).
Abbreviation Load_any := (load_any E opts config collection).
Abbreviation Scheduled := (scheduled E opts config collection).
Abbreviation Derives := (derives E opts config collection).
Abbreviation Distinct_identifiers := (distinct_identifiers E opts config collection).
Abbreviation Known_paths := (known_paths E opts config).
Abbreviation Uncaught := (uncaught E opts config collection).

(** ** The routine *)

(** X1: what the routine writes.  Under any interleaving with other tasks,
    a call of [store.set] by the routine is its last act and the routine
    resolves: the file was read, [stat], the splitter and the validation
    succeeded, and the lookup of the store had not returned an up-to-date
    record.  The record written has the identifier generated from the
    front-matter, the validated data, the body of the splitter, the path of
    the file relative to the root, the digest of the contents, what the
    renderer returned (nothing when it failed), the image paths of that as
    asset imports, and no [deferredRender]; in the same segment the path of
    the file is mapped to the identifier. *)
Theorem X1_store_set_writes_synced_record (entry base : string) (fs : list string)
    (l : list (World * World)) (o : res unit) (e : DataEntry) :
  executes (SyncData entry base fs) l o →
  makes l (CStoreSet e) →
  o = Ok () ∧
  ∃ c st info parsedData found,
    readFile E (FileUrlOf entry base) = Ok c ∧
    stat E (FileUrlOf entry base) = Ok st ∧
    getEntryInfo E c (FileUrlOf entry base) entry st (EntryContext fs) = Ok info ∧
    parseData E (generateId E entry base (info_data info)) (info_data info)
      (fileURLToPath E (FileUrlOf entry base)) = Ok parsedData ∧
    makes l (CStoreGet (generateId E entry base (info_data info)) found) ∧
    unchanged found (generateDigest E c) = false ∧
    id e = generateId E entry base (info_data info) ∧
    data e = parsedData ∧
    body e = Some (info_body info) ∧
    filePath e = Some (RelativePathOf (fileURLToPath E (FileUrlOf entry base))) ∧
    digest e = Some (generateDigest E c) ∧
    rendered e
    = match render E (id e) parsedData (info_body info)
              (fileURLToPath E (FileUrlOf entry base)) (generateDigest E c) with
      | Ok r => Some r
      | Fail _ => None
      end ∧
    assetImports e = imagePathsOf (rendered e) ∧
    deferredRender e = None ∧
    ∃ p, last l = Some p ∧
         store p.2 = <[id e := e]> (store p.1) ∧
         fileToIdMap p.2
         = <[fileURLToPath E (FileUrlOf entry base) := id e]> (fileToIdMap p.1).
Proof.
  intros Hex Hm.
  run_segments Hex; makes_inv Hm.
  all: split; [done |].
  all: eexists _, _, _, _, _.
  all: repeat (split; [first [eassumption | reflexivity | makes_solve] |]).
  all: cbn [id newEntry rendered].
  all: try match goal with H : render _ _ _ _ _ _ = _ |- _ => rewrite H end.
  all: repeat (split; [first [eassumption | reflexivity | makes_solve] |]).
  all: eexists; split; [reflexivity |]; split; reflexivity.
Qed.

(** X2: a record that is not up to date is written again.  Under any
    interleaving with other tasks, when the lookup of the store returns no
    record, or one with another digest or without a file path, the routine
    calls the validation with the path of the file; when the validation
    fails the routine is rejected with its error and writes nothing, and
    when it succeeds the routine calls the renderer with the validated
    data and the digest of the contents, writes a record with them, and
    resolves. *)
Theorem X2_stale_record_is_rewritten (entry base : string) (fs : list string)
    (l : list (World * World)) (o : res unit) (c i : string)
    (found : option DataEntry) :
  executes (SyncData entry base fs) l o →
  readFile E (FileUrlOf entry base) = Ok c →
  makes l (CStoreGet i found) →
  unchanged found (generateDigest E c) = false →
  ∃ d,
    makes l (CParseData i d (fileURLToPath E (FileUrlOf entry base))) ∧
    match parseData E i d (fileURLToPath E (FileUrlOf entry base)) with
    | Fail m => o = Fail m ∧ ∀ e, ¬ makes l (CStoreSet e)
    | Ok parsedData =>
        o = Ok () ∧
        ∃ b e,
          makes l (CRender i parsedData b (fileURLToPath E (FileUrlOf entry base))
                     (generateDigest E c)) ∧
          makes l (CStoreSet e) ∧
          id e = i ∧ data e = parsedData ∧ body e = Some b ∧
          digest e = Some (generateDigest E c)
    end.
Proof.
  intros Hex Hread Hget Hun.
  run_segments Hex; makes_inv Hget.
  all: cbn [store untouched_delete] in *.
  all: try congruence.
  all: eexists; (split; [makes_solve |]).
  all: match goal with H : parseData _ _ _ _ = _ |- _ => rewrite H end.
  all: try (split; [done |]; intros e He; makes_inv He).
  all: split; [done |]; eexists _, _; split; [makes_solve |];
    split; [makes_solve |]; done.
Qed.

(** X3: [store.addModuleImport] is called on the fast path only, and only
    for a record whose rendering is deferred.  Under any interleaving with
    other tasks, a call of it by the routine has the file path of a record
    that the lookup returned with the digest of the contents, a file path
    that is not empty, and [deferredRender] set; the routine then resolves
    without a call of the validation, of the renderer or of the store's
    [set] and [delete].  Conversely, when the lookup returns such an
    up-to-date record, the call is made exactly when [deferredRender] is
    set. *)
Theorem X3_module_import_only_for_deferred (entry base : string) (fs : list string)
    (l : list (World * World)) (o : res unit) :
  executes (SyncData entry base fs) l o →
  (∀ p, makes l (CAddModuleImport p) →
     p ≠ "" ∧
     ∃ c i e,
       readFile E (FileUrlOf entry base) = Ok c ∧
       makes l (CStoreGet i (Some e)) ∧
       digest e = Some (generateDigest E c) ∧
       filePath e = Some p ∧
       deferredRender e = Some true ∧
       o = Ok () ∧
       ∀ c', makes l c' → ¬ transforms c') ∧
  (∀ c i e p,
     readFile E (FileUrlOf entry base) = Ok c →
     makes l (CStoreGet i (Some e)) →
     digest e = Some (generateDigest E c) →
     filePath e = Some p → p ≠ "" →
     (makes l (CAddModuleImport p) ↔ deferredRender e = Some true)).
Proof.
  intros Hex. split.
  - intros p Hm. run_segments Hex; makes_inv Hm.
    match goal with H : unchanged _ _ = true |- _ =>
      apply unchanged_inv in H as (e' & He' & Hd & Hp) end.
    simplify_eq.
    destruct (filePath e') as [p |] eqn:Hfp; [| done].
    destruct (deferredRender e') as [[|] |] eqn:Hdr; try done.
    cbv [default from_option Datatypes.id]. split.
    { intros ->. done. }
    eexists _, _, e'. split; [reflexivity |].
    split; [makes_solve |].
    repeat (split; [done |]).
    intros c' Hc'. makes_inv Hc'; simpl; tauto.
  - intros c i e p Hread Hget Hd Hfp Hp.
    assert (Htruthy : truthy_string (filePath e) = true).
    { rewrite Hfp. simpl. destruct (String.eqb p "") eqn:Heq; [| done].
      by apply String.eqb_eq in Heq. }
    run_segments Hex; makes_inv Hget.
    all: cbn [store untouched_delete] in *.
    all: try match goal with
         | H : unchanged (Some ?x) _ = false |- _ =>
             rewrite (unchanged_true x _ Hd Htruthy) in H; discriminate H
         | H : unchanged ?x _ = false, H' : Some _ = ?x |- _ =>
             rewrite <- H' in H;
             rewrite (unchanged_true _ _ Hd Htruthy) in H; discriminate H
         | H : unchanged ?x _ = false, H' : ?x = Some _ |- _ =>
             rewrite H' in H;
             rewrite (unchanged_true _ _ Hd Htruthy) in H; discriminate H
         end.
    all: split; [intros Hm; makes_inv Hm | intros Hdr].
    all: try (rewrite Hdr in *; discriminate).
    all: try done.
    all: try (rewrite Hfp; cbv [default from_option Datatypes.id]; makes_solve).
    by destruct (deferredRender _) as [[|] |].
Qed.

(** X4: a file that cannot be read but on which [stat] succeeds is
    skipped.  Under any interleaving with other tasks, the routine calls
    [readFile], logs the error of the read, calls [stat] all the same, warns
    that there are no contents, and resolves; these are all its calls (no
    splitter, no lookup of the store), and none of its segments changes the
    store, [untouchedEntries] or [fileToIdMap]. *)
Theorem X4_unreadable_file_is_skipped (entry base : string) (fs : list string)
    (l : list (World * World)) (o : res unit) (m : string) (st : Stats) :
  readFile E (FileUrlOf entry base) = Fail m →
  stat E (FileUrlOf entry base) = Ok st →
  executes (SyncData entry base fs) l o →
  o = Ok () ∧
  concat (made <$> l)
  = [CReadFile (FileUrlOf entry base);
     CLogError ("Error reading " +:+ entry +:+ ": " +:+ m);
     CStat (FileUrlOf entry base);
     CLogWarn ("No contents found for " +:+ entry)] ∧
  (∀ p, p ∈ l →
     store p.2 = store p.1 ∧
     untouchedEntries p.2 = untouchedEntries p.1 ∧
     fileToIdMap p.2 = fileToIdMap p.1).
Proof.
  intros Hread Hstat Hex. run_segments Hex; try discriminate.
  split; [done |]. split.
  - cbn [fmap list_fmap concat]. made_simpl. reflexivity.
  - intros p Hp. pairs_inv Hp; done.
Qed.

(** X5: the routine does not catch a failure of [stat] or of the splitter.
    Under any interleaving with other tasks, when [stat] fails (whether the
    read succeeded or not), or when the file is read, [stat] succeeds and
    the splitter fails, the routine is rejected with that error; it makes
    no [No contents found] warning and no lookup of the store, and none of
    its segments changes the store, [untouchedEntries] or [fileToIdMap]. *)
Theorem X5_uncaught_failure_rejects_routine (entry base : string) (fs : list string)
    (m : string) (l : list (World * World)) (o : res unit) :
  stat E (FileUrlOf entry base) = Fail m
  ∨ (∃ c st,
       readFile E (FileUrlOf entry base) = Ok c ∧
       stat E (FileUrlOf entry base) = Ok st ∧
       getEntryInfo E c (FileUrlOf entry base) entry st (EntryContext fs) = Fail m) →
  executes (SyncData entry base fs) l o →
  o = Fail m ∧
  (∀ w, ¬ makes l (CLogWarn w)) ∧
  (∀ i found, ¬ makes l (CStoreGet i found)) ∧
  (∀ p, p ∈ l →
     store p.2 = store p.1 ∧
     untouchedEntries p.2 = untouchedEntries p.1 ∧
     fileToIdMap p.2 = fileToIdMap p.1).
Proof.
  intros [Hstat | (c & st & Hread & Hstat & Hinfo)] Hex.
  - run_segments Hex.
    all: split; [done |]; split; [intros w Hw; makes_inv Hw |].
    all: split; [intros i found Hg; makes_inv Hg |].
    all: intros p Hp; pairs_inv Hp; done.
  - run_segments Hex; try discriminate.
    all: try match goal with
         | H : noContents (Some _) = true |- _ =>
             apply noContents_None in H; discriminate H
         end.
    all: same_results.
    all: split; [done |]; split; [intros w Hw; makes_inv Hw |].
    all: split; [intros i found Hg; makes_inv Hg |].
    all: intros p Hp; pairs_inv Hp; done.
Qed.

(** X6: the routine touches what is its own.  Under any interleaving with
    other tasks, the routine never calls [store.delete]; none of its
    segments takes a record out of the store, puts an identifier into
    [untouchedEntries] or takes a path out of [fileToIdMap]; the only path
    whose mapping may change is the path of the file, and the records and
    the membership in [untouchedEntries] of all identifiers but the one
    generated from the file are left as they are. *)
Theorem X6_routine_touches_own_entry_only (entry base : string) (fs : list string)
    (l : list (World * World)) (o : res unit) :
  executes (SyncData entry base fs) l o →
  (∀ i, ¬ makes l (CStoreDelete i)) ∧
  ∀ p, p ∈ l →
    untouchedEntries p.2 ⊆ untouchedEntries p.1 ∧
    dom (store p.1) ⊆ dom (store p.2) ∧
    dom (fileToIdMap p.1) ⊆ dom (fileToIdMap p.2) ∧
    (∀ q, q ≠ fileURLToPath E (FileUrlOf entry base) →
          fileToIdMap p.2 !! q = fileToIdMap p.1 !! q) ∧
    (∀ j,
       (∀ c st info,
          readFile E (FileUrlOf entry base) = Ok c →
          stat E (FileUrlOf entry base) = Ok st →
          getEntryInfo E c (FileUrlOf entry base) entry st (EntryContext fs) = Ok info →
          j ≠ generateId E entry base (info_data info)) →
       store p.2 !! j = store p.1 !! j ∧
       (j ∈ untouchedEntries p.1 → j ∈ untouchedEntries p.2)).
Proof.
  intros Hex. split.
  - intros i Hm. run_segments Hex; makes_inv Hm.
  - intros p Hp. run_segments Hex; pairs_inv Hp.
    all: unfold writeEntry;
      cbn [fst snd store untouchedEntries fileToIdMap call untouched_delete
           store_set fileToIdMap_set id newEntry].
    all: split; [first [done | apply subseteq_difference_l; done] |].
    all: split; [first [done | rewrite dom_insert_L; set_solver] |].
    all: split; [first [done | rewrite dom_insert_L; set_solver] |].
    all: split; [intros q Hq; first [done | by rewrite lookup_insert_ne] |].
    all: intros j Hj; split;
      [ first [done | rewrite lookup_insert_ne; [done | intros <-; by eapply Hj]]
      | first [done
              | intros Hin; apply elem_of_difference; split; [done |];
                rewrite not_elem_of_singleton; intros ->; by eapply Hj ] ].
Qed.

Lemma uncaught_failure_rejects_slot (entry base : string) (fs : list string)
    (m : string) :
  stat E (FileUrlOf entry base) = Fail m
  ∨ (∃ c st,
       readFile E (FileUrlOf entry base) = Ok c ∧
       stat E (FileUrlOf entry base) = Ok st ∧
       getEntryInfo E c (FileUrlOf entry base) entry st (EntryContext fs) = Fail m) →
  rejects_slot (Queued (SyncData entry base fs)).
Proof.
  intros [Hstat | (c & st & Hread & Hstat & Hinfo)].
  - by eapply stat_failure_rejects_slot.
  - cbn. intros W W1. unfold afterReadFile. rewrite Hread. cbn.
    intros W2. unfold afterStat. rewrite Hstat.
    destruct (noContents (Some c)) eqn:Hno.
    { by apply noContents_None in Hno. }
    cbn. intros W3. unfold afterGetEntryInfo. by rewrite Hinfo.
Qed.

(** What a sync that resolves leaves: the record of the entry is up to
    date and its identifier has left [untouchedEntries]. *)
Lemma first_sync (entry base : string) (fs : list string) (W : World)
    (c : string) (st : Stats) (info : EntryInfo) :
  readFile E (FileUrlOf entry base) = Ok c →
  stat E (FileUrlOf entry base) = Ok st →
  getEntryInfo E c (FileUrlOf entry base) entry st (EntryContext fs) = Ok info →
  RelativePathOf (fileURLToPath E (FileUrlOf entry base)) ≠ "" →
  (start (SyncData entry base fs) W).2 = Ok () →
  unchanged
    (store (start (SyncData entry base fs) W).1
       !! generateId E entry base (info_data info))
    (generateDigest E c) = true ∧
  generateId E entry base (info_data info)
    ∉ untouchedEntries (start (SyncData entry base fs) W).1.
Proof.
  intros Hread Hstat Hinfo Hpath.
  unfold start, syncData. cbn [fst snd run].
  unfold afterReadFile. rewrite Hread. cbn [fst snd run].
  unfold afterStat. rewrite Hstat.
  destruct (noContents (Some c)) eqn:Hno.
  { by apply noContents_None in Hno. }
  cbn [fst snd run]. unfold afterGetEntryInfo. rewrite Hinfo.
  cbn [fst snd run store call untouched_delete].
  destruct (unchanged (store W !! _) _) eqn:Hun.
  - destruct (store W !! _) as [e |] eqn:He; [| done].
    destruct (truthy_bool (deferredRender e)); cbn [fst snd run];
      intros _; cbn [store untouchedEntries call untouched_delete];
      rewrite He; (split; [done | apply untouched_delete_gone]).
  - cbn [fst snd run]. unfold afterParseData.
    destruct (parseData E _ _ _) as [pd | m']; cbn [fst snd run]; [| done].
    unfold afterRender.
    destruct (render E _ _ _ _ _) as [r | m']; cbn [fst snd run]; intros _;
      unfold writeEntry;
      cbn [store untouchedEntries call untouched_delete store_set
           fileToIdMap_set id newEntry];
      rewrite lookup_insert_eq;
      (split; [by apply newEntry_unchanged | apply untouched_delete_gone]).
Qed.

(** The sync of an entry whose record is up to date. *)
Lemma again_sync (entry base : string) (fs : list string) (W : World)
    (c : string) (st : Stats) (info : EntryInfo) :
  readFile E (FileUrlOf entry base) = Ok c →
  stat E (FileUrlOf entry base) = Ok st →
  getEntryInfo E c (FileUrlOf entry base) entry st (EntryContext fs) = Ok info →
  unchanged (store W !! generateId E entry base (info_data info))
    (generateDigest E c) = true →
  generateId E entry base (info_data info) ∉ untouchedEntries W →
  (start (SyncData entry base fs) W).2 = Ok () ∧
  store (start (SyncData entry base fs) W).1 = store W ∧
  fileToIdMap (start (SyncData entry base fs) W).1 = fileToIdMap W ∧
  untouchedEntries (start (SyncData entry base fs) W).1 = untouchedEntries W ∧
  ∀ c', c' ∈ made (W, (start (SyncData entry base fs) W).1) → ¬ transforms c'.
Proof.
  intros Hread Hstat Hinfo Hun Hout.
  unfold start, syncData. cbn [fst snd run].
  unfold afterReadFile. rewrite Hread. cbn [fst snd run].
  unfold afterStat. rewrite Hstat.
  destruct (noContents (Some c)) eqn:Hno.
  { by apply noContents_None in Hno. }
  cbn [fst snd run]. unfold afterGetEntryInfo. rewrite Hinfo.
  cbn [fst snd run store call untouched_delete]. rewrite Hun.
  destruct (store W !! _) as [e |] eqn:He; [| done].
  destruct (truthy_bool (deferredRender e)); cbn [fst snd run];
    (split; [done |]);
    cbn [store fileToIdMap untouchedEntries call untouched_delete];
    (split; [done |]); (split; [done |]);
    (split; [apply difference_disjoint_L; set_solver |]);
    intros c' Hc'; made_simpl_in Hc';
    repeat (apply elem_of_cons in Hc' as [-> | Hc']; [simpl; tauto |]);
    by apply elem_of_nil in Hc'.
Qed.

(** The sync of an entry that cannot be read. *)
Lemma skip_sync (entry base : string) (fs : list string) (W : World)
    (m : string) (st : Stats) :
  readFile E (FileUrlOf entry base) = Fail m →
  stat E (FileUrlOf entry base) = Ok st →
  (start (SyncData entry base fs) W).2 = Ok () ∧
  store (start (SyncData entry base fs) W).1 = store W ∧
  fileToIdMap (start (SyncData entry base fs) W).1 = fileToIdMap W ∧
  untouchedEntries (start (SyncData entry base fs) W).1 = untouchedEntries W ∧
  ∀ c', c' ∈ made (W, (start (SyncData entry base fs) W).1) → ¬ transforms c'.
Proof.
  intros Hread Hstat.
  unfold start, syncData. cbn [fst snd run].
  unfold afterReadFile. rewrite Hread. cbn [fst snd run].
  unfold afterStat. rewrite Hstat. cbn [noContents truthy_string strict_eq negb andb].
  cbn [fst snd run]. repeat (split; [done |]).
  intros c' Hc'. made_simpl_in Hc'.
  repeat (apply elem_of_cons in Hc' as [-> | Hc']; [simpl; tauto |]).
  by apply elem_of_nil in Hc'.
Qed.

(** X7: the sync of an entry, repeated.  Let the path of the file relative
    to the root not be empty.  When the routine, run on an entry with
    nothing else scheduled in between, has resolved, a second run on the
    world that the first one left, with the file as it was, resolves as
    well, leaves the store, [fileToIdMap] and [untouchedEntries] as the
    first run left them, and makes no call of the validation, of the
    renderer, or of the store's [set] and [delete]. *)
Theorem X7_sync_twice_is_sync_once (entry base : string) (fs : list string)
    (W : World) :
  RelativePathOf (fileURLToPath E (FileUrlOf entry base)) ≠ "" →
  (start (SyncData entry base fs) W).2 = Ok () →
  let W1 := (start (SyncData entry base fs) W).1 in
  let W2 := (start (SyncData entry base fs) W1).1 in
  (start (SyncData entry base fs) W1).2 = Ok () ∧
  store W2 = store W1 ∧
  fileToIdMap W2 = fileToIdMap W1 ∧
  untouchedEntries W2 = untouchedEntries W1 ∧
  ∀ c, c ∈ made (W1, W2) → ¬ transforms c.
Proof.
  intros Hpath Hok W1 W2. subst W2.
  destruct (stat E (FileUrlOf entry base)) as [st | m] eqn:Hstat.
  2: { pose proof (stat_failure_rejects E opts config collection entry base fs _ _ m
                     Hstat (executes_alone _ W)) as [Hrej _].
       rewrite Hrej in Hok. discriminate Hok. }
  destruct (readFile E (FileUrlOf entry base)) as [c | m] eqn:Hread;
    [| by eapply skip_sync].
  destruct (getEntryInfo E c (FileUrlOf entry base) entry st (EntryContext fs))
    as [info | m] eqn:Hinfo.
  - destruct (first_sync entry base fs W c st info Hread Hstat Hinfo Hpath Hok)
      as [Hun Hout].
    by eapply again_sync.
  - exfalso. revert Hok. unfold start, syncData. cbn [fst snd run].
    unfold afterReadFile. rewrite Hread. cbn [fst snd run].
    unfold afterStat. rewrite Hstat.
    destruct (noContents (Some c)) eqn:Hno.
    { by apply noContents_None in Hno. }
    cbn [fst snd run]. unfold afterGetEntryInfo. rewrite Hinfo.
    cbn [fst snd run]. done.
Qed.

(** ** What every turn keeps *)

Lemma pool_steps_keep (I : Pool → Prop) (p p' : Pool) :
  (∀ p1 p2, I p1 → pool_step p1 p2 → I p2) →
  pool_steps p p' → I p → I p'.
Proof.
  intros Hkeep. induction 1 as [| p1 p2 p3 Hstep _ IH]; [done |].
  intros HI. apply IH. by eapply Hkeep.
Qed.

(** ** The calls of a pass *)

(** What a step of a call of the routine adds to the calls: it reads the
    file when it starts, and only then; it deletes nothing. *)
Lemma phase_calls (entry base : string) (fs : list string) (s : Slot)
    (W W1 : World) (t1 : Task) :
  Phase entry base fs s → slot_step s W = Some (W1, t1) →
  ∃ l, calls W1 = calls W ++ l ∧
       (∀ i, CStoreDelete i ∉ l) ∧
       (∀ u, CReadFile u ∈ l → u = FileUrlOf entry base) ∧
       (queued s = true → CReadFile (FileUrlOf entry base) ∈ l).
Proof.
  intros Hph Hstep. destruct Hph; step_cases Hstep.
  all: eexists; split;
    [ unfold writeEntry;
      cbn [calls call store_set untouched_delete fileToIdMap_set];
      rewrite <- ?app_assoc; try reflexivity; by rewrite app_nil_r |].
  all: split;
    [ intros i' Hin;
      repeat (apply elem_of_cons in Hin as [Hin | Hin]; [discriminate Hin |]);
      by apply elem_of_nil in Hin |].
  all: split;
    [ intros u Hin;
      repeat (apply elem_of_cons in Hin as [Hin | Hin];
              [first [discriminate Hin | by injection Hin] |]);
      by apply elem_of_nil in Hin |].
  all: first [ intros Hq; discriminate Hq | intros _; cbn [app]; elem_solve ].
Qed.

Lemma made_grows (W0 W W1 : World) (l l1 : list Call) :
  calls W = calls W0 ++ l → calls W1 = calls W ++ l1 →
  made (W0, W1) = made (W0, W) ++ l1.
Proof.
  intros H H1. rewrite (made_app _ _ _ H).
  apply made_app. by rewrite H1, H, app_assoc.
Qed.

(** The calls of the tasks of a pass: the files that are not configuration
    files are read, each once its task has started, and no other; no record
    is deleted. *)
Lemma pool_calls (W0 W2 : World) (slots : list Slot) (r : option string) :
  pool_steps (W0, Schedule, None) (W2, slots, r) →
  (∃ l, calls W2 = calls W0 ++ l ∧
        (∀ i, CStoreDelete i ∉ l) ∧
        (∀ u, CReadFile u ∈ l →
              ∃ entry, entry ∈ Files ∧ isConfigFile E entry BaseDir = false ∧
                       u = FileUrlOf entry BaseDir)) ∧
  Forall2 (λ entry s,
             isConfigFile E entry BaseDir = false →
             queued s = true ∨ CReadFile (FileUrlOf entry BaseDir) ∈ made (W0, W2))
    Files slots.
Proof.
  intros Hsteps.
  apply (pool_invariant
           (λ W entry s,
              Scheduled entry s ∧
              (isConfigFile E entry BaseDir = false →
               queued s = true ∨ CReadFile (FileUrlOf entry BaseDir) ∈ made (W0, W)))
           (λ W _ _,
              ∃ l, calls W = calls W0 ++ l ∧
                   (∀ i, CStoreDelete i ∉ l) ∧
                   (∀ u, CReadFile u ∈ l →
                         ∃ entry, entry ∈ Files ∧
                                  isConfigFile E entry BaseDir = false ∧
                                  u = FileUrlOf entry BaseDir))
           Files) in Hsteps as [HR HP].
  - split; [exact HP |]. cbn [fst snd] in HR.
    eapply Forall2_impl; [exact HR |]. by intros entry s [_ H].
  - cbn [fst snd]. unfold schedule.
    apply Forall2_fmap_r, Forall_Forall2_diag, Forall_forall.
    intros entry Hin. split.
    + split; [done |]. destruct (isConfigFile E entry BaseDir); constructor.
    + intros ->. by left.
  - cbn [fst snd]. exists []. split; [by rewrite app_nil_r |].
    split; [intros i ?%elem_of_nil | intros u ?%elem_of_nil]; done.
  - intros W slots0 r0 j entry s W1 t1 (l & Hl & Hdel & Hreads) Hj [HR Hread] Hstep.
    destruct (scheduled_step E opts config collection _ _ _ _ _ HR Hstep)
      as (Hin & Hcfg & Hph & HR').
    destruct (phase_calls _ _ _ _ _ _ _ Hph Hstep)
      as (l1 & Hl1 & Hdel1 & Hreads1 & Hstart).
    pose proof (made_grows _ _ _ _ _ Hl Hl1) as Hmade.
    split; [| split].
    + exists (l ++ l1). split; [by rewrite Hl1, Hl, app_assoc |]. split.
      * intros i [? | ?]%elem_of_app; [by eapply Hdel | by eapply Hdel1].
      * intros u [? | Hu]%elem_of_app; [by apply Hreads |].
        exists entry. split; [done |]. split; [done |]. by apply Hreads1.
    + split; [done |]. intros _. right. rewrite Hmade.
      apply elem_of_app.
      destruct (Hread Hcfg) as [Hq | Hbefore]; [right; by apply Hstart | by left].
    + intros entry' s' [HR0 Hread']. split; [done |].
      intros Hcfg'. destruct (Hread' Hcfg') as [? | Hbefore]; [by left |].
      right. rewrite Hmade. apply elem_of_app. by left.
Qed.

Lemma made_untouched_init (W W' : World) :
  made (untouched_init W, W') = made (W, W').
Proof. reflexivity. Qed.

Lemma finish_calls (watcher : bool) (W2 : World) (r : option string)
    (W' : World) (out : res (option Watching)) :
  (W', out) = finish E opts config watcher W2 r →
  ∃ l, calls W' = calls W2 ++ l ∧
       ∀ c, c ∈ l → ∃ i, c = CStoreDelete i ∧ r = None ∧ i ∈ untouchedEntries W2.
Proof.
  unfold finish. destruct r as [m |]; intros Hfin; injection Hfin as -> ->.
  - exists []. split; [by rewrite app_nil_r |]. by intros c ?%elem_of_nil.
  - eexists. split; [apply sweep_fold_calls |].
    intros c (i & -> & Hi)%list_elem_of_fmap. exists i.
    split; [done |]. split; [done |]. by apply elem_of_elements.
Qed.

(** X11: the files that a pass reads.  Under any schedule, whether the
    pass resolves or is rejected, once its tasks have settled the files
    that it has read are the files of the list that are not configuration
    files, each at its URL under the base directory: every one of them has
    been read, and no other file has. *)
Theorem X11_pass_reads_the_scheduled_files (watcher : bool) (W W' : World)
    (out : res (option Watching)) (u : string) :
  Load_any watcher W (W', out) →
  CReadFile u ∈ made (W, W') ↔
  ∃ entry, entry ∈ Files ∧ isConfigFile E entry BaseDir = false ∧
           u = FileUrlOf entry BaseDir.
Proof.
  intros (W2 & slots & r & Hsteps & Hq & Hfin).
  destruct (pool_calls _ _ _ _ Hsteps) as [(l & Hl & _ & Hreads) Hall].
  destruct (finish_calls _ _ _ _ _ Hfin) as (l' & Hl' & Hdels).
  cbn [calls untouched_init] in Hl.
  assert (Hmade : made (W, W') = l ++ l').
  { apply made_app. by rewrite Hl', Hl, app_assoc. }
  rewrite Hmade. split.
  - intros [Hin | Hin]%elem_of_app; [by apply Hreads |].
    destruct (Hdels _ Hin) as (i & Hc & _). discriminate Hc.
  - intros (entry & Hin & Hcfg & ->).
    apply list_elem_of_lookup in Hin as [j Hj].
    destruct (Forall2_lookup_l _ _ _ _ _ Hall Hj) as (s & Hs & Hread).
    destruct (Hread Hcfg) as [Hqueued | Hdone].
    + eapply Forall_lookup_1 in Hq; [| exact Hs]. by destruct s.
    + rewrite made_untouched_init, (made_app _ _ _ Hl) in Hdone.
      apply elem_of_app. by left.
Qed.

(** ** The entries that a pass removes *)

Lemma derives_touches (entry base : string) (fs : list string) (i c : string) :
  Derives entry base fs i c → touches i (Await (SyncData entry base fs)).
Proof.
  intros (st & info & Hread & Hstat & Hinfo & ->).
  cbn [touches]. intros W. right. unfold syncData. cbn [fst snd touches].
  intros W1. right. unfold afterReadFile. rewrite Hread. cbn [fst snd touches].
  intros W2. right. unfold afterStat. rewrite Hstat.
  destruct (noContents (Some c)) eqn:Hno.
  { by apply noContents_None in Hno. }
  cbn [fst snd touches]. intros W3. left.
  unfold afterGetEntryInfo. rewrite Hinfo. cbv zeta.
  destruct (unchanged _ _).
  - destruct (store _ !! _) as [e |]; [destruct (truthy_bool _) |];
      cbn [fst snd untouchedEntries call untouched_delete];
      apply untouched_delete_gone.
  - cbn [fst snd untouchedEntries call untouched_delete].
    apply untouched_delete_gone.
Qed.

(** Once the task of a file has settled, the identifiers that the routine
    derives from the file have left [untouchedEntries]. *)
Lemma pool_touches (W0 W2 : World) (slots : list Slot) (r : option string) :
  pool_steps (W0, Schedule, None) (W2, slots, r) →
  Forall2 (λ entry s,
             isConfigFile E entry BaseDir = false →
             ∀ i c, Derives entry BaseDir Files i c →
                    i ∉ untouchedEntries W2 ∨ touches_slot i s)
    Files slots.
Proof.
  intros Hsteps.
  apply (pool_invariant
           (λ W entry s,
              Scheduled entry s ∧
              (isConfigFile E entry BaseDir = false →
               ∀ i c, Derives entry BaseDir Files i c →
                      i ∉ untouchedEntries W ∨ touches_slot i s))
           (λ _ _ _, True) Files) in Hsteps as [HR _]; [| | done |].
  - cbn [fst snd] in HR. eapply Forall2_impl; [exact HR |]. by intros entry s [_ H].
  - cbn [fst snd]. unfold schedule.
    apply Forall2_fmap_r, Forall_Forall2_diag, Forall_forall.
    intros entry Hin. split.
    + split; [done |]. destruct (isConfigFile E entry BaseDir); constructor.
    + intros -> i c Hd. right. by eapply derives_touches.
  - intros W slots0 r0 j entry s W1 t1 _ Hj [HR Htouch] Hstep.
    destruct (scheduled_step E opts config collection _ _ _ _ _ HR Hstep)
      as (Hin & Hcfg & Hph & HR').
    destruct (phase_effect E opts config collection _ _ _ _ _ Hph Hstep) as [Hu _].
    assert (Hsub : untouchedEntries W1 ⊆ untouchedEntries W).
    { destruct Hu as [-> | (i' & c' & _ & ->)];
        [done | apply subseteq_difference_l; done]. }
    split; [done |]. split.
    + split; [done |]. intros _ i c Hd.
      destruct (Htouch Hcfg i c Hd) as [Hout | Hwill].
      * left. intros Hi. by apply Hout, Hsub.
      * destruct s as [a | [| m | k]]; cbn [slot_step] in Hstep;
          try discriminate Hstep; injection Hstep as Hstep;
          cbn [touches_slot touches] in Hwill; try done;
          specialize (Hwill W); rewrite Hstep in Hwill; exact Hwill.
    + intros entry' s' [HR0 Htouch']. split; [done |].
      intros Hcfg' i c Hd. destruct (Htouch' Hcfg' i c Hd) as [Hout | ?]; [| by right].
      left. intros Hi. by apply Hout, Hsub.
Qed.

(** An identifier that the store held when the pass began and that the
    routine derives from no file of the pass stays in [untouchedEntries]. *)
Lemma stale_stays_untouched (W W2 : World) (slots : list Slot) (r : option string)
    (i : string) :
  pool_steps (untouched_init W, Schedule, None) (W2, slots, r) →
  i ∈ dom (store W) →
  (∀ entry c, entry ∈ Files → isConfigFile E entry BaseDir = false →
              ¬ Derives entry BaseDir Files i c) →
  i ∈ untouchedEntries W2.
Proof.
  intros Hsteps Hi Hnew.
  apply (pool_invariant (λ _, Scheduled) (λ W _ _, i ∈ untouchedEntries W) Files)
    in Hsteps as [_ H]; [done | apply schedule_scheduled | done |].
  intros W0 slots0 r0 j entry s W1 t1 HP _ HR Hstep.
  destruct (scheduled_step E opts config collection _ _ _ _ _ HR Hstep)
    as (Hin & Hcfg & Hph & HR').
  split; [| by split].
  destruct (phase_effect E opts config collection _ _ _ _ _ Hph Hstep) as [Hu _].
  destruct Hu as [-> | (i' & c' & Hd & ->)]; [done |].
  apply elem_of_difference. split; [done |].
  rewrite not_elem_of_singleton. intros ->. by eapply Hnew.
Qed.

(** X12: the entries that a pass removes.  Under any schedule, a pass that
    resolves calls [store.delete] for an identifier exactly when the store
    held a record for it when the pass began and the routine derives it
    from no file of the list (configuration files apart): the record of a
    file that is still there and still yields its identifier is never
    deleted, and a record that no file yields is. *)
Theorem X12_sweep_deletes_exactly_the_stale (watcher : bool) (W W' : World)
    (w : option Watching) (i : string) :
  Load_any watcher W (W', Ok w) →
  CStoreDelete i ∈ made (W, W') ↔
  i ∈ dom (store W) ∧
  ∀ entry c, entry ∈ Files → isConfigFile E entry BaseDir = false →
             ¬ Derives entry BaseDir Files i c.
Proof.
  intros (W2 & slots & r & Hsteps & Hq & Hfin).
  destruct (pool_calls _ _ _ _ Hsteps) as [(l & Hl & Hdel & _) _].
  cbn [calls untouched_init] in Hl.
  unfold finish in Hfin. destruct r as [m |]; [done |]. injection Hfin as -> _.
  assert (Hmade : made (W, sweep W2)
                  = l ++ (CStoreDelete <$> elements (untouchedEntries W2))).
  { apply made_app. unfold sweep. by rewrite sweep_fold_calls, Hl, app_assoc. }
  rewrite Hmade. split.
  - intros [Hin | Hin]%elem_of_app; [by apply Hdel in Hin |].
    apply list_elem_of_fmap in Hin as (i' & Heq & Hi). injection Heq as <-.
    apply elem_of_elements in Hi. split.
    + destruct (pass_store_accounted E opts config collection _ _ _ _ Hsteps)
        as [_ Hsub].
      by apply Hsub.
    + intros entry c Hin Hcfg Hd.
      pose proof (pool_touches _ _ _ _ Hsteps) as Hall.
      apply list_elem_of_lookup in Hin as [j Hj].
      destruct (Forall2_lookup_l _ _ _ _ _ Hall Hj) as (s & Hs & Htouch).
      destruct (Htouch Hcfg i c Hd) as [Hout | Hwill]; [done |].
      eapply Forall_lookup_1 in Hq; [| exact Hs].
      by destruct s as [a | [| m | k]].
  - intros [Hi Hnew]. apply elem_of_app. right.
    apply list_elem_of_fmap. exists i. split; [done |].
    apply elem_of_elements. by eapply stale_stays_untouched.
Qed.

(** ** A pass that is rejected *)

(** The tasks of a pass take no record out of the store, and leave the
    records of the identifiers that the routine derives from no file of the
    pass as they are. *)
Lemma pool_keeps_records (W0 W2 : World) (slots : list Slot) (r : option string) :
  pool_steps (W0, Schedule, None) (W2, slots, r) →
  dom (store W0) ⊆ dom (store W2) ∧
  ∀ i, (∀ entry c, entry ∈ Files → isConfigFile E entry BaseDir = false →
                   ¬ Derives entry BaseDir Files i c) →
       store W2 !! i = store W0 !! i.
Proof.
  intros Hsteps.
  apply (pool_invariant (λ _, Scheduled)
           (λ W _ _,
              dom (store W0) ⊆ dom (store W) ∧
              ∀ i, (∀ entry c, entry ∈ Files → isConfigFile E entry BaseDir = false →
                               ¬ Derives entry BaseDir Files i c) →
                   store W !! i = store W0 !! i) Files)
    in Hsteps as [_ H]; [done | apply schedule_scheduled | done |].
  intros W slots0 r0 j entry s W1 t1 [Hdom Hsame] _ HR Hstep.
  destruct (scheduled_step E opts config collection _ _ _ _ _ HR Hstep)
    as (Hin & Hcfg & Hph & HR').
  split; [| by split].
  destruct (phase_effect E opts config collection _ _ _ _ _ Hph Hstep) as [_ Hs].
  destruct Hs as [-> | (i' & c' & e & Hd & ->)]; [done |]. split.
  - rewrite dom_insert_L. set_solver.
  - intros i Hnew. rewrite lookup_insert_ne; [by apply Hsame |].
    intros ->. by eapply Hnew.
Qed.

(** X13: a pass that is rejected removes nothing.  Under any schedule, when
    the promise of [load] is rejected, no call of [store.delete] has been
    made: every identifier that had a record when the pass began still has
    one, the records of the identifiers that the routine derives from no
    file of the list are as they were, stale ones included, and no handler
    is registered, [load] having returned no more than the error. *)
Theorem X13_rejected_pass_removes_nothing (watcher : bool) (W W' : World)
    (m : string) :
  Load_any watcher W (W', Fail m) →
  (∀ i, CStoreDelete i ∉ made (W, W')) ∧
  dom (store W) ⊆ dom (store W') ∧
  (∀ i, (∀ entry c, entry ∈ Files → isConfigFile E entry BaseDir = false →
                    ¬ Derives entry BaseDir Files i c) →
        store W' !! i = store W !! i).
Proof.
  intros (W2 & slots & r & Hsteps & Hq & Hfin).
  destruct (pool_calls _ _ _ _ Hsteps) as [(l & Hl & Hdel & _) _].
  destruct (pool_keeps_records _ _ _ _ Hsteps) as [Hdom Hsame].
  cbn [calls store untouched_init] in Hl, Hdom, Hsame.
  unfold finish in Hfin. destruct r as [m' |]; [| done]. injection Hfin as -> _.
  split; [| done].
  intros i. rewrite (made_app _ _ _ Hl). apply Hdel.
Qed.

(** X14: a failure of [stat] or of the splitter rejects the pass.  Under
    any schedule, when the list has a file, not a configuration file, on
    which [stat] fails, or which is read and on which the splitter fails,
    the promise of [load] is rejected. *)
Theorem X14_uncaught_failure_rejects_pass (watcher : bool) (W W' : World)
    (out : res (option Watching)) (entry m : string) :
  entry ∈ Files → isConfigFile E entry BaseDir = false →
  stat E (FileUrlOf entry BaseDir) = Fail m
  ∨ (∃ c st,
       readFile E (FileUrlOf entry BaseDir) = Ok c ∧
       stat E (FileUrlOf entry BaseDir) = Ok st ∧
       getEntryInfo E c (FileUrlOf entry BaseDir) entry st (EntryContext Files)
       = Fail m) →
  Load_any watcher W (W', out) →
  ∃ m', out = Fail m'.
Proof.
  intros Hin Hcfg Hfails (W2 & slots & r & Hsteps & Hq & Hfin).
  apply list_elem_of_lookup in Hin as [j Hj].
  eapply (rejecting_slot_noted _ _ j) in Hsteps; cbn [fst snd]; [| | | | done].
  - unfold finish in Hfin. destruct r as [m' |]; [| done].
    exists m'. by simplify_eq.
  - apply schedule_no_rejection.
  - unfold schedule. rewrite list_lookup_fmap, Hj. cbn. by rewrite Hcfg.
  - by eapply uncaught_failure_rejects_slot.
Qed.

(** ** Where a rejection comes from *)

Lemma phase_rejection (entry : string) (s : Slot) (W W1 : World) (m : string) :
  Phase entry BaseDir Files s → slot_step s W = Some (W1, Rejected m) →
  Uncaught entry BaseDir Files m.
Proof.
  intros Hph Hstep.
  remember (Rejected m) as t eqn:Ht.
  destruct Hph; step_cases Hstep; try discriminate Ht.
  all: injection Ht as ->.
  - by left.
  - right. eexists _, _. split; [done |]. split; [done |]. by left.
  - right. eexists _, _. split; [done |]. split; [done |]. right. by eexists.
Qed.

(** X15: where a rejection comes from.  Under any interleaving with other
    tasks, the error with which the routine is rejected is the error of
    [stat], or of the splitter on the contents read, or of the validation
    on what the splitter returned: a failed read and a failed render never
    reject it.  And at any point of any schedule of a pass, settled or not,
    the rejection that [Promise.all] has noted is such an error for a file
    of the list that is not a configuration file. *)
Theorem X15_rejection_comes_from_a_collaborator :
  (∀ entry base fs l m,
     executes (SyncData entry base fs) l (Fail m) →
     stat E (FileUrlOf entry base) = Fail m
     ∨ ∃ c st,
         readFile E (FileUrlOf entry base) = Ok c ∧
         stat E (FileUrlOf entry base) = Ok st ∧
         (getEntryInfo E c (FileUrlOf entry base) entry st (EntryContext fs) = Fail m
          ∨ ∃ info,
              getEntryInfo E c (FileUrlOf entry base) entry st (EntryContext fs)
              = Ok info ∧
              parseData E (generateId E entry base (info_data info)) (info_data info)
                (fileURLToPath E (FileUrlOf entry base)) = Fail m)) ∧
  (∀ W0 W2 slots m,
     pool_steps (W0, Schedule, None) (W2, slots, Some m) →
     ∃ entry,
       entry ∈ Files ∧ isConfigFile E entry BaseDir = false ∧
       Uncaught entry BaseDir Files m).
Proof.
  split.
  - intros entry base fs l m Hex.
    run_segments Hex.
    all: first [ by left
               | right; eexists _, _; split; [reflexivity |];
                 split; [reflexivity |];
                 first [ by left | right; by eexists ] ].
  - intros W0 W2 slots m Hsteps.
    apply (pool_invariant (λ _, Scheduled)
             (λ _ _ r,
                ∀ m, r = Some m →
                  ∃ entry,
                    entry ∈ Files ∧ isConfigFile E entry BaseDir = false ∧
                    Uncaught entry BaseDir Files m) Files)
      in Hsteps as [_ H]; [by apply H | apply schedule_scheduled | done |].
    intros W slots0 r0 j entry s W1 t1 Hprov _ HR Hstep.
    destruct (scheduled_step E opts config collection _ _ _ _ _ HR Hstep)
      as (Hin & Hcfg & Hph & HR').
    split; [| by split].
    intros m0 Hnote. destruct r0 as [m1 |].
    { apply Hprov. by destruct t1. }
    destruct t1 as [| m1 | k]; try done. injection Hnote as ->.
    exists entry. split; [done |]. split; [done |].
    by eapply phase_rejection.
Qed.

(** ** What a pass that resolves leaves *)

(** X16: the store after a pass that has resolved.  Take distinct files to
    yield distinct identifiers and file paths relative to the root not to
    be empty.  Under any schedule, once [load] has resolved, for every file
    of the list that is not a configuration file the store has, at the
    identifier that the routine derives from the file, a record with the
    digest of the contents of the file and a file path; and every record
    of the store has the identifier of such a file. *)
Theorem X16_resolved_pass_leaves_store_in_step (watcher : bool) (W W' : World)
    (w : option Watching) :
  Distinct_identifiers → Known_paths →
  Load_any watcher W (W', Ok w) →
  (∀ entry i c,
     entry ∈ Files → isConfigFile E entry BaseDir = false →
     Derives entry BaseDir Files i c →
     ∃ e, store W' !! i = Some e ∧
          digest e = Some (generateDigest E c) ∧
          truthy_string (filePath e) = true) ∧
  (∀ i, is_Some (store W' !! i) →
        ∃ entry c, entry ∈ Files ∧ isConfigFile E entry BaseDir = false ∧
                   Derives entry BaseDir Files i c).
Proof.
  intros Hids Hpaths Hload.
  destruct (pass_leaves E opts config collection _ _ _ _ Hids Hpaths Hload)
    as [Hup Hrec].
  split; [| by apply Hrec].
  intros entry i c Hin Hcfg (st & info & Hread & Hstat & Hinfo & ->).
  destruct (Hup entry Hin Hcfg c st info Hread Hstat Hinfo) as [Hun | [? _]];
    [| done].
  apply unchanged_inv in Hun as (e & He & Hd & Hp). by exists e.
Qed.

(** ** The paths that a pass records *)

Lemma sweep_fold_map (l : list string) (W : World) :
  fileToIdMap (foldl (λ W i, store_delete i W) W l) = fileToIdMap W.
Proof.
  revert W. induction l as [| j l IH]; intros W; [done |].
  cbn [foldl]. by rewrite IH.
Qed.

Lemma phase_map_effect (entry : string) (s : Slot) (W W1 : World) (t1 : Task) :
  Phase entry BaseDir Files s → slot_step s W = Some (W1, t1) →
  fileToIdMap W1 = fileToIdMap W
  ∨ ∃ i c e,
      Derives entry BaseDir Files i c ∧
      fileToIdMap W1
      = <[fileURLToPath E (FileUrlOf entry BaseDir) := i]> (fileToIdMap W) ∧
      store W1 !! i = Some e ∧ digest e = Some (generateDigest E c).
Proof.
  intros Hph Hstep. destruct Hph; step_cases Hstep.
  all: unfold writeEntry;
    cbn [store fileToIdMap call untouched_delete store_set fileToIdMap_set
         id newEntry].
  all: first
    [ by left
    | right; eexists _, _, _; split; [by eexists _, _ |];
      split; [reflexivity |]; split; [apply lookup_insert_eq | reflexivity] ].
Qed.

(** X17: the paths that a pass records.  Under any schedule, a pass takes
    no path out of [fileToIdMap], and a path that it maps to an identifier
    is the path of a file of the list, not a configuration file, mapped to
    the identifier that the routine derives from that file. *)
Theorem X17_pass_records_paths_of_written_files (watcher : bool) (W W' : World)
    (out : res (option Watching)) :
  Load_any watcher W (W', out) →
  dom (fileToIdMap W) ⊆ dom (fileToIdMap W') ∧
  ∀ p i,
    fileToIdMap W' !! p = Some i →
    fileToIdMap W !! p = Some i
    ∨ ∃ entry c,
        entry ∈ Files ∧ isConfigFile E entry BaseDir = false ∧
        p = fileURLToPath E (FileUrlOf entry BaseDir) ∧
        Derives entry BaseDir Files i c.
Proof.
  intros (W2 & slots & r & Hsteps & _ & Hfin).
  assert (Hmap : fileToIdMap W' = fileToIdMap W2).
  { unfold finish in Hfin. destruct r; injection Hfin as -> _; [done |].
    unfold sweep. apply sweep_fold_map. }
  rewrite Hmap. clear Hfin Hmap.
  apply (pool_invariant (λ _, Scheduled)
           (λ W1 _ _,
              dom (fileToIdMap W) ⊆ dom (fileToIdMap W1) ∧
              ∀ p i,
                fileToIdMap W1 !! p = Some i →
                fileToIdMap W !! p = Some i
                ∨ ∃ entry c,
                    entry ∈ Files ∧ isConfigFile E entry BaseDir = false ∧
                    p = fileURLToPath E (FileUrlOf entry BaseDir) ∧
                    Derives entry BaseDir Files i c) Files)
    in Hsteps as [_ H]; [done | apply schedule_scheduled | |].
  - cbn [fst snd fileToIdMap untouched_init]. split; [done |]. by left.
  - intros W0 slots0 r0 j entry s W1 t1 [Hdom Hprov] _ HR Hstep.
    destruct (scheduled_step E opts config collection _ _ _ _ _ HR Hstep)
      as (Hin & Hcfg & Hph & HR').
    split; [| by split].
    destruct (phase_map_effect _ _ _ _ _ Hph Hstep)
      as [-> | (i' & c' & e & Hd & -> & _)]; [done |].
    split.
    + rewrite dom_insert_L. set_solver.
    + intros p i Hp.
      destruct (decide (p = fileURLToPath E (FileUrlOf entry BaseDir))) as [-> | Hne].
      * rewrite lookup_insert_eq in Hp. injection Hp as <-.
        right. by exists entry, c'.
      * rewrite lookup_insert_ne in Hp by done. by apply Hprov.
Qed.

(** ** A pass with no file to sync *)

(** X18: a pass with no file to sync empties the store.  When the list of
    files is empty, or has configuration files only, the pass runs nothing
    and resolves: it calls [store.delete] once for every identifier of the
    store, in some order, which leaves the store empty, makes no other
    call, and leaves [fileToIdMap] as it is. *)
Theorem X18_pass_without_files_empties_store (watcher : bool) (W W' : World)
    (out : res (option Watching)) :
  (∀ entry, entry ∈ Files → isConfigFile E entry BaseDir = true) →
  Load_any watcher W (W', out) →
  is_ok out = true ∧
  store W' = ∅ ∧
  fileToIdMap W' = fileToIdMap W ∧
  made (W, W') ≡ₚ CStoreDelete <$> elements (dom (store W)).
Proof.
  intros Hcfg (W2 & slots & r & Hsteps & _ & Hfin).
  assert (Hstay : (W2, slots, r) = (untouched_init W, Schedule, None)).
  { inversion Hsteps as [| p1 p2 p3 Hstep _]; subst; [done |]. exfalso.
    destruct p2 as [[W3 slots3] r3].
    apply pool_step_slot in Hstep as (j & s & t' & Hj & Hs & _).
    unfold schedule in Hj. rewrite list_lookup_fmap in Hj.
    destruct (Files !! j) as [entry |] eqn:Hentry; [| done].
    cbn in Hj. rewrite Hcfg in Hj by (by eapply list_elem_of_lookup_2).
    injection Hj as <-. done. }
  injection Hstay as -> -> ->. unfold finish in Hfin. injection Hfin as -> ->.
  split; [done |]. split; [| split].
  - apply map_eq. intros i. unfold sweep. rewrite sweep_fold_store, lookup_empty.
    cbn [untouchedEntries store untouched_init].
    case_decide as Hin; [done |].
    rewrite elem_of_elements in Hin. by apply not_elem_of_dom.
  - unfold sweep. by rewrite sweep_fold_map.
  - rewrite (made_app W (sweep (untouched_init W))
               (CStoreDelete <$> elements (dom (store W)))); [done |].
    unfold sweep. by rewrite sweep_fold_calls.
Qed.

(** ** The handlers of the watcher *)

(** The routine does not log a reload. *)
Lemma syncData_no_info (entry base : string) (fs : list string)
    (l : list (World * World)) (o : res unit) (m : string) :
  executes (SyncData entry base fs) l o → ¬ makes l (CLogInfo m).
Proof. intros Hex Hm. run_segments Hex; makes_inv Hm. Qed.

(** X19: the reload is logged when, and only when, the routine has
    resolved.  Under any interleaving with other tasks, the handler of an
    add or change event for a path that matches logs [Reloaded data from]
    the entry as its last act when it resolves, and logs nothing of the
    kind when the routine is rejected, which rejects the handler.  The
    reload is logged whatever the routine did: for a file that cannot be
    read and on which [stat] succeeds, the handler logs the error of the
    read, then the reload, with the store and [fileToIdMap] unchanged. *)
Theorem X19_reload_logged_iff_resolved (w : Watching) (ev : WatchEvent)
    (path : string) (l : list (World * World)) (o : res unit) :
  ev = EvAdd path ∨ ev = EvChange path →
  MatchesGlob (posixRelative E (w_basePath w) path) = true →
  executes (Handler w ev) l o →
  let entry := posixRelative E (w_basePath w) path in
  let base := pathToFileURL E (w_basePath w) in
  (∀ msg, makes l (CLogInfo msg) →
     msg = "Reloaded data from " +:+ green E entry ∧ o = Ok () ∧
     ∃ p, last l = Some p ∧ made p = [CLogInfo msg]) ∧
  (o = Ok () → makes l (CLogInfo ("Reloaded data from " +:+ green E entry))) ∧
  (∀ m st,
     readFile E (FileUrlOf entry base) = Fail m →
     stat E (FileUrlOf entry base) = Ok st →
     o = Ok () ∧
     makes l (CLogError ("Error reading " +:+ entry +:+ ": " +:+ m)) ∧
     makes l (CLogInfo ("Reloaded data from " +:+ green E entry)) ∧
     ∀ p, p ∈ l → store p.2 = store p.1 ∧ fileToIdMap p.2 = fileToIdMap p.1).
Proof.
  intros Hev Hmatch Hex entry base.
  destruct (onChange_syncs_entry E opts config collection w ev path l o Hev Hmatch Hex)
    as ((l1 & o1 & Hex1 & Hshape) & _ & _).
  fold entry base in Hex1, Hshape.
  assert (Hlog : o = Ok () →
            makes l (CLogInfo ("Reloaded data from " +:+ green E entry))).
  { intros ->. destruct Hshape as [(_ & _ & W & ->) | (m & _ & ? & _)]; [| done].
    exists (W, call (CLogInfo ("Reloaded data from " +:+ green E entry)) W).
    split; [apply elem_of_app; right; apply list_elem_of_singleton; done |].
    rewrite made_call. apply list_elem_of_singleton. done. }
  split; [| split; [done |]].
  - intros msg (p & Hp & Hc).
    destruct Hshape as [(-> & -> & W & ->) | (m & -> & -> & ->)].
    + apply elem_of_app in Hp as [Hp | Hp].
      * exfalso. eapply syncData_no_info; [exact Hex1 |]. by exists p.
      * apply list_elem_of_singleton in Hp as ->.
        rewrite made_call in Hc. apply list_elem_of_singleton in Hc.
        injection Hc as ->. split; [done |]. split; [done |].
        eexists. split; [apply last_snoc |]. apply made_call.
    + exfalso. eapply syncData_no_info; [exact Hex1 |]. by exists p.
  - intros m st Hread Hstat.
    destruct (read_failure_skips E opts config collection entry base (w_files w)
                l1 o1 m st Hread Hstat Hex1) as (-> & Herr & _ & Hsame).
    destruct Hshape as [(_ & -> & W & ->) | (m' & ? & _)]; [| done].
    split; [done |]. split.
    { destruct Herr as (p & Hp & Hc). exists p. split; [| done].
      apply elem_of_app. by left. }
    split; [by apply Hlog |].
    intros p [Hp | Hp]%elem_of_app.
    + destruct (Hsame p Hp) as (? & _ & ?). done.
    + apply list_elem_of_singleton in Hp as ->. done.
Qed.

(** X20: a change of a file, then its removal.  Let a path match and be
    the path of the URL that the handler builds from it.  When the handler
    of a change event for the path, run with nothing else scheduled in
    between, has written a record, the store has that record at its
    identifier and [fileToIdMap] maps the path to the identifier; the
    handler of an unlink event for the same path then deletes the record
    and forgets the path, with [store.delete] as its one call, unless the
    identifier is the empty string, which the handler takes for no
    identifier: it then leaves the world as it is.  The records of all
    other identifiers are, after the two events, as they were before
    them: a record that the file had under another identifier stays in
    the store. *)
Theorem X20_change_then_unlink_removes (w : Watching) (path : string) (W : World)
    (e : DataEntry) :
  let entry := posixRelative E (w_basePath w) path in
  let base := pathToFileURL E (w_basePath w) in
  let W1 := (start (Handler w (EvChange path)) W).1 in
  let W2 := (start (Handler w (EvUnlink path)) W1).1 in
  MatchesGlob entry = true →
  fileURLToPath E (FileUrlOf entry base) = path →
  CStoreSet e ∈ made (W, W1) →
  store W1 !! id e = Some e ∧
  fileToIdMap W1 !! path = Some (id e) ∧
  (start (Handler w (EvUnlink path)) W1).2 = Ok () ∧
  (if String.eqb (id e) "" then W2 = W1
   else
     store W2 = delete (id e) (store W1) ∧
     fileToIdMap W2 = delete path (fileToIdMap W1) ∧
     made (W1, W2) = [CStoreDelete (id e)]) ∧
  (∀ j, j ≠ id e → store W2 !! j = store W !! j).
Proof.
  intros entry base W1 W2 Hmatch Hround Hset.
  assert (Hfirst : store W1 !! id e = Some e ∧ fileToIdMap W1 !! path = Some (id e) ∧
                   ∀ j, j ≠ id e → store W1 !! j = store W !! j).
  { subst W1. revert Hset. cbn [handler]. unfold start, onChange.
    fold entry base. rewrite Hmatch. cbn [negb].
    unfold syncData. cbn [fst snd andThen run].
    unfold afterReadFile.
    destruct (readFile E _) as [c | m]; cbn [fst snd andThen run];
      unfold afterStat;
      (destruct (stat E _) as [st | m']; cbn [fst snd andThen run]).
    2, 4: intros Hc; made_simpl_in Hc;
      repeat (apply elem_of_cons in Hc as [Hc | Hc]; [discriminate Hc |]);
      by apply elem_of_nil in Hc.
    2: { cbn. intros Hc. made_simpl_in Hc.
         repeat (apply elem_of_cons in Hc as [Hc | Hc]; [discriminate Hc |]).
         by apply elem_of_nil in Hc. }
    destruct (noContents (Some c)) eqn:Hno.
    { by apply noContents_None in Hno. }
    cbn [fst snd andThen run]. unfold afterGetEntryInfo.
    destruct (getEntryInfo E _ _ _ _ _) as [info | m'];
      cbn [fst snd andThen run].
    2: { intros Hc; made_simpl_in Hc;
         repeat (apply elem_of_cons in Hc as [Hc | Hc]; [discriminate Hc |]);
         by apply elem_of_nil in Hc. }
    destruct (unchanged _ _).
    { destruct (store _ !! _) as [e' |];
        [destruct (truthy_bool _) |]; cbn [fst snd andThen run];
        intros Hc; made_simpl_in Hc;
        repeat (apply elem_of_cons in Hc as [Hc | Hc]; [discriminate Hc |]);
        by apply elem_of_nil in Hc. }
    cbn [fst snd andThen run]. unfold afterParseData.
    destruct (parseData E _ _ _) as [pd | m']; cbn [fst snd andThen run].
    2: { intros Hc; made_simpl_in Hc;
         repeat (apply elem_of_cons in Hc as [Hc | Hc]; [discriminate Hc |]);
         by apply elem_of_nil in Hc. }
    unfold afterRender.
    destruct (render E _ _ _ _ _) as [r | m']; cbn [fst snd andThen run];
      intros Hc; made_simpl_in Hc;
      repeat (apply elem_of_cons in Hc as [Hc | Hc]; [try discriminate Hc |]);
      try (by apply elem_of_nil in Hc);
      injection Hc as ->;
      unfold writeEntry;
      cbn [store fileToIdMap call store_set fileToIdMap_set untouched_delete
           id newEntry];
      rewrite Hround, !lookup_insert_eq;
      (split; [done |]); (split; [done |]);
      intros j Hj; by rewrite lookup_insert_ne. }
  destruct Hfirst as (Hrec & Hmap & Hothers).
  split; [done |]. split; [done |].
  subst W2. cbn [handler]. unfold start, onUnlink. fold entry.
  rewrite Hmatch, Hmap. cbn [negb truthy_string].
  destruct (String.eqb (id e) "") eqn:Hid; cbn [negb fst snd run].
  { split; [done |]. split; [done |]. exact Hothers. }
  split; [done |].
  cbn [store fileToIdMap store_delete fileToIdMap_delete].
  split.
  - split; [done |]. split; [done |]. made_simpl. reflexivity.
  - intros j Hj. rewrite lookup_delete_ne by done. by apply Hothers.
Qed.

(** The run of [await t; k] with nothing else scheduled in between. *)
Lemma run_andThen (t : Task) (k : Async) (W : World) :
  run (andThen t k) W
  = match (run t W).2 with
    | Ok _ => run (Await k) (run t W).1
    | Fail m => ((run t W).1, Fail m)
    end.
Proof.
  revert W. induction t as [| m | f IH] using Task_segments_ind; intros W.
  - reflexivity.
  - reflexivity.
  - cbn [andThen run]. specialize (IH W). destruct (f W) as [W' t'].
    cbn [fst snd] in *. apply IH.
Qed.

(** X21: an add or change event brings the record of its file up to date.
    Let the path match, the file be read, [stat] and the splitter succeed,
    and the path of the file relative to the root not be empty.  When the
    handler, run with nothing else scheduled in between, has resolved,
    the store has, at the identifier that the routine derives from the
    file, a record with the digest of the contents of the file and a file
    path, whatever the store held before; and the identifier has left
    [untouchedEntries]. *)
Theorem X21_event_brings_record_up_to_date (w : Watching) (ev : WatchEvent)
    (path : string) (W : World) (c : string) (st : Stats) (info : EntryInfo) :
  let entry := posixRelative E (w_basePath w) path in
  let base := pathToFileURL E (w_basePath w) in
  let W1 := (start (Handler w ev) W).1 in
  ev = EvAdd path ∨ ev = EvChange path →
  MatchesGlob entry = true →
  readFile E (FileUrlOf entry base) = Ok c →
  stat E (FileUrlOf entry base) = Ok st →
  getEntryInfo E c (FileUrlOf entry base) entry st (EntryContext (w_files w))
  = Ok info →
  RelativePathOf (fileURLToPath E (FileUrlOf entry base)) ≠ "" →
  (start (Handler w ev) W).2 = Ok () →
  (∃ e, store W1 !! generateId E entry base (info_data info) = Some e ∧
        digest e = Some (generateDigest E c) ∧
        truthy_string (filePath e) = true) ∧
  generateId E entry base (info_data info) ∉ untouchedEntries W1.
Proof.
  intros entry base W1 Hev Hmatch Hread Hstat Hinfo Hpath.
  assert (Hh : Handler w ev = onChange E opts config collection w path)
    by (destruct Hev as [-> | ->]; done).
  subst W1. rewrite Hh. clear Hh Hev.
  pose proof (first_sync entry base (w_files w) W c st info Hread Hstat Hinfo Hpath)
    as Hfirst.
  revert Hfirst. unfold start, onChange. fold entry base.
  rewrite Hmatch. cbn [negb].
  destruct (SyncData entry base (w_files w) W) as [W' t]. cbn [fst snd].
  rewrite run_andThen.
  destruct (run t W') as [W2 [[] | m]]; cbn [fst snd run call store untouchedEntries];
    [| done].
  intros Hfirst _. destruct (Hfirst eq_refl) as [Hun Hout].
  split; [| exact Hout].
  apply unchanged_inv in Hun as (e & He & Hd & Hp). by exists e.
Qed.

End Further.


(** * Passes and schedules *)

Section Schedules.

Variable E : Env.
Variable opts : ObsidianMdLoaderOptions.
Variable config : AstroConfig.
Variable collection : string.

Abbreviation SyncData := (syncData E opts config collection).
Abbreviation FileUrlOf := (fileUrlOf E).
Abbreviation EntryContext := (entryContext opts config collection).
Abbreviation Files := (files E opts config).
Abbreviation BaseDir := (baseDir E opts config).
Abbreviation Schedule := (schedule E opts config collection).
Abbreviation Load_any := (load_any E opts config collection).
Abbreviation Scheduled := (scheduled E opts config collection).
Abbreviation Derives := (derives E opts config collection).
Abbreviation Distinct_identifiers := (distinct_identifiers E opts config collection).
Abbreviation Derived := (derived E opts config collection).
Abbreviation Synced := (synced E opts config collection).
Abbreviation Others_succeed := (others_succeed E opts config collection).
Abbreviation RelativePathOf := (relativePathOf E opts config).

Lemma derived_derives (entry i : string) :
  Derived entry = Some i ↔ ∃ c, Derives entry BaseDir Files i c.
Proof.
  unfold derived, derives. split.
  - destruct (readFile E _) as [c | m] eqn:Hread; [| done].
    destruct (stat E _) as [st | m] eqn:Hstat; [| done].
    destruct (getEntryInfo E _ _ _ _ _) as [info | m] eqn:Hinfo; [| done].
    intros [= <-]. exists c, st, info. done.
  - intros (c & st & info & -> & -> & -> & ->). done.
Qed.

Lemma follows_agree (own : string → Prop) (S S' Sy : gmap string DataEntry)
    (ok : bool) (t : Task) :
  (∀ i, own i → S !! i = S' !! i) →
  follows own S Sy ok t → follows own S' Sy ok t.
Proof.
  intros Hag. destruct t as [| m | k]; cbn [follows].
  - intros [Hok Hs]. split; [done |]. intros i Hi. rewrite <- Hag by done. by apply Hs.
  - intros [Hok Hs]. split; [done |]. intros i Hi. rewrite <- Hag by done. by apply Hs.
  - intros Hk W HW. apply Hk. intros i Hi. rewrite HW by done. symmetry. by apply Hag.
Qed.

(** The routine follows [synced]. *)
Lemma syncData_follows (entry : string) (S0 : gmap string DataEntry) :
  follows (λ i, Derived entry = Some i) S0 (Synced entry S0).1 (Synced entry S0).2
    (Await (SyncData entry BaseDir Files)).
Proof.
  cbn [follows]. intros W HW. unfold syncData. cbn [fst snd store call].
  intros W1 HW1.
  assert (H1 : ∀ i, Derived entry = Some i → store W1 !! i = S0 !! i)
    by (intros i Hi; rewrite HW1 by done; by apply HW).
  clear HW HW1 W. revert H1.
  unfold afterReadFile, synced, derived. cbv zeta.
  destruct (readFile E _) as [c | m] eqn:Hread; cbn [fst snd store call follows];
    intros H1 W2 HW2;
    assert (H2 : ∀ i, _ = Some i → store W2 !! i = S0 !! i)
      by (intros i Hi; rewrite HW2 by done; by apply H1);
    clear H1 HW2 W1; revert H2;
    unfold afterStat;
    (destruct (stat E _) as [st | m'] eqn:Hstat; cbn [fst snd store call follows];
     [| intros H2; split; [done | exact H2]]).
  2: { cbn. intros H2. split; [done | exact H2]. }
  destruct (noContents (Some c)) eqn:Hno.
  { by apply noContents_None in Hno. }
  cbn [fst snd store call follows].
  intros H2 W3 HW3.
  assert (H3 : ∀ i, _ = Some i → store W3 !! i = S0 !! i)
    by (intros i Hi; rewrite HW3 by done; by apply H2).
  clear H2 HW3 W2. revert H3.
  unfold afterGetEntryInfo.
  destruct (getEntryInfo E _ _ _ _ _) as [info | m'] eqn:Hinfo;
    cbn [fst snd store call follows];
    [| intros H3; split; [done | exact H3]].
  intros H3. cbn [store untouched_delete call].
  rewrite (H3 _ eq_refl).
  destruct (unchanged (S0 !! _) _) eqn:Hun.
  - destruct (S0 !! _) as [e |] eqn:He; [| done].
    destruct (truthy_bool (deferredRender e)); cbn [fst snd store call follows];
      (split; [done | exact H3]).
  - cbn [fst snd store call untouched_delete follows].
    intros W4 HW4.
    assert (H4 : ∀ i, _ = Some i → store W4 !! i = S0 !! i)
      by (intros i Hi; rewrite HW4 by done; by apply H3).
    clear H3 HW4 W3. revert H4.
    unfold afterParseData.
    destruct (parseData E _ _ _) as [pd | m'] eqn:Hparse;
      cbn [fst snd store call follows];
      [| intros H4; split; [done | exact H4]].
    intros H4 W5 HW5.
    assert (H5 : ∀ i, _ = Some i → store W5 !! i = S0 !! i)
      by (intros i Hi; rewrite HW5 by done; by apply H4).
    clear H4 HW5 W4. revert H5.
    unfold afterRender.
    destruct (render E _ _ _ _ _) as [r | m'] eqn:Hrender;
      unfold writeEntry;
      cbn [fst snd store call store_set fileToIdMap_set follows id newEntry];
      intros H5; (split; [done |]); intros i [= <-];
      by rewrite !lookup_insert_eq.
Qed.

(** Proving that a property holds of every slot of every pool that the
    event loop can reach: it holds at the start, a step of a slot leaves
    the slot with it and takes it from no other slot. *)
Lemma pool_invariant_at (R : World → nat → Slot → Prop) (p p' : Pool) :
  pool_steps p p' →
  (∀ j s, p.1.2 !! j = Some s → R p.1.1 j s) →
  (∀ W (slots : list Slot) j s W1 t1,
     (∀ j' s', slots !! j' = Some s' → R W j' s') →
     slots !! j = Some s → slot_step s W = Some (W1, t1) →
     R W1 j (Running t1) ∧
     ∀ j' s', j' ≠ j → slots !! j' = Some s' → R W1 j' s') →
  ∀ j s, p'.1.2 !! j = Some s → R p'.1.1 j s.
Proof.
  intros Hsteps HR Hkeep.
  induction Hsteps as [p | p1 p2 p3 Hstep _ IH]; [done |].
  destruct p1 as [[W slots] r], p2 as [[W2 slots2] r2].
  apply pool_step_slot in Hstep as (j & s & t' & Hj & Hs & -> & ->).
  cbn [fst snd] in *.
  destruct (Hkeep _ _ _ _ _ _ HR Hj Hs) as [Hown Hothers].
  apply IH. intros j' s' Hj'.
  destruct (decide (j' = j)) as [-> | Hne].
  - rewrite list_lookup_insert_eq in Hj' by (by eapply lookup_lt_Some).
    by injection Hj' as <-.
  - rewrite list_lookup_insert_ne in Hj' by done. by apply Hothers.
Qed.

(** Under any schedule, the task of each file follows [synced]. *)
Lemma pool_follows (W0 W2 : World) (slots : list Slot) (r : option string) :
  Distinct_identifiers → NoDup Files →
  pool_steps (W0, Schedule, None) (W2, slots, r) →
  ∀ j s entry,
    slots !! j = Some s → Files !! j = Some entry →
    isConfigFile E entry BaseDir = false →
    follows_slot (λ i, Derived entry = Some i) (store W2)
      (Synced entry (store W0)).1 (Synced entry (store W0)).2 s.
Proof.
  intros Hids Hnodup Hsteps.
  pose proof (pool_invariant_at
    (λ W j s,
       ∃ entry, Files !! j = Some entry ∧ Scheduled entry s ∧
                (isConfigFile E entry BaseDir = false →
                 follows_slot (λ i, Derived entry = Some i) (store W)
                   (Synced entry (store W0)).1 (Synced entry (store W0)).2 s))
    _ _ Hsteps) as Hinv.
  cbn [fst snd] in Hinv.
  intros j s entry Hj Hentry Hcfg.
  destruct (Hinv) with (j := j) (s := s) as (entry' & Hentry' & _ & Hfollows);
    [| | done | ].
  - intros j0 s0 Hj0.
    destruct (Forall2_lookup_r _ _ _ _ _
                (schedule_scheduled E opts config collection) Hj0)
      as (entry0 & Hentry0 & Hsched).
    exists entry0. split; [done |]. split; [done |].
    intros Hcfg0. destruct Hsched as [_ Hs0]. rewrite Hcfg0 in Hs0.
    unfold schedule in Hj0. rewrite list_lookup_fmap, Hentry0 in Hj0.
    cbn in Hj0. rewrite Hcfg0 in Hj0. injection Hj0 as <-.
    apply syncData_follows.
  - clear j s entry Hj Hentry Hcfg.
    intros W slots0 j s W1 t1 HR Hj Hstep.
    destruct (HR j s Hj) as (entry & Hentry & Hsched & Hfollows).
    destruct (scheduled_step E opts config collection _ _ _ _ _ Hsched Hstep)
      as (Hin & Hcfg & Hph & Hsched').
    split.
    + exists entry. split; [done |]. split; [done |]. intros _.
      specialize (Hfollows Hcfg).
      destruct s as [a | [| m | k]]; cbn [slot_step] in Hstep;
        try discriminate Hstep; injection Hstep as Hstep;
        cbn [follows_slot follows] in Hfollows;
        specialize (Hfollows W (λ _ _, eq_refl)); by rewrite Hstep in Hfollows.
    + intros j' s' Hne Hj'.
      destruct (HR j' s' Hj') as (entry' & Hentry' & Hsched0 & Hfollows').
      exists entry'. split; [done |]. split; [done |].
      intros Hcfg'. specialize (Hfollows' Hcfg').
      assert (Hdiff : entry' ≠ entry).
      { intros ->. apply Hne. by eapply NoDup_lookup. }
      assert (Hag : ∀ i, Derived entry' = Some i → store W !! i = store W1 !! i).
      { intros i Hi.
        destruct (phase_effect E opts config collection _ _ _ _ _ Hph Hstep)
          as [_ [-> | (i0 & c0 & e0 & Hd0 & ->)]]; [done |].
        rewrite lookup_insert_ne; [done |]. intros ->.
        apply derived_derives in Hi as [c Hd].
        apply Hdiff. eapply (Hids entry' entry); try done.
        by eapply list_elem_of_lookup_2. }
      destruct s' as [a | t]; cbn [follows_slot] in *;
        by eapply follows_agree.
  - rewrite Hentry in Hentry'. injection Hentry' as <-. by apply Hfollows.
Qed.

(** A rejection that has been noted is the rejection of a task. *)
Lemma noted_is_rejected (p p' : Pool) :
  pool_steps p p' →
  (p.2 ≠ None → ∃ j m, p.1.2 !! j = Some (Running (Rejected m))) →
  p'.2 ≠ None → ∃ j m, p'.1.2 !! j = Some (Running (Rejected m)).
Proof.
  intros Hsteps. apply (pool_steps_keep
    (λ p, p.2 ≠ None → ∃ j m, p.1.2 !! j = Some (Running (Rejected m))));
    [| done].
  clear. intros p1 p2 Hinv Hstep.
  destruct p1 as [[W slots] r], p2 as [[W2 slots2] r2].
  apply pool_step_slot in Hstep as (j & s & t' & Hj & Hs & -> & ->).
  cbn [fst snd] in *. intros Hnoted.
  destruct r as [m |].
  - destruct Hinv as (j0 & m0 & Hj0); [done |].
    exists j0, m0. rewrite list_lookup_insert_ne; [done |].
    intros ->. rewrite Hj in Hj0. injection Hj0 as ->. done.
  - destruct t' as [| m | k]; try done.
    exists j, m. apply list_lookup_insert_eq. by eapply lookup_lt_Some.
Qed.

Lemma follows_run (own : string → Prop) (Sy : gmap string DataEntry) (ok : bool)
    (t : Task) :
  ∀ W, follows own (store W) Sy ok t →
       is_ok (run t W).2 = ok ∧ ∀ i, own i → store (run t W).1 !! i = Sy !! i.
Proof.
  induction t as [| m | f IH] using Task_segments_ind; intros W Hf.
  - destruct Hf as [-> Hs]. done.
  - destruct Hf as [-> Hs]. done.
  - cbn [follows] in Hf. specialize (Hf W (λ _ _, eq_refl)).
    cbn [run]. specialize (IH W). destruct (f W) as [W' t'].
    cbn [fst snd] in *. by apply IH.
Qed.

(** The routine by itself comes to what [synced] says. *)
Lemma start_synced (entry : string) (W : World) :
  is_ok (start (SyncData entry BaseDir Files) W).2 = (Synced entry (store W)).2 ∧
  ∀ i, Derived entry = Some i →
       store (start (SyncData entry BaseDir Files) W).1 !! i
       = (Synced entry (store W)).1 !! i.
Proof.
  pose proof (syncData_follows entry (store W)) as Hf.
  cbn [follows] in Hf. specialize (Hf W (λ _ _, eq_refl)).
  unfold start. destruct (SyncData entry BaseDir Files W) as [W' t].
  cbn [fst snd] in Hf. by apply follows_run.
Qed.

Lemma pool_scheduled (W0 W2 : World) (slots : list Slot) (r : option string) :
  pool_steps (W0, Schedule, None) (W2, slots, r) →
  Forall2 Scheduled Files slots.
Proof.
  intros Hsteps.
  apply (pool_invariant (λ _, Scheduled) (λ _ _ _, True) Files) in Hsteps as [H _];
    [done | apply schedule_scheduled | done |].
  intros W slots0 r0 j entry s W1 t1 _ _ HR Hstep.
  destruct (scheduled_step E opts config collection _ _ _ _ _ HR Hstep)
    as (_ & _ & _ & HR').
  done.
Qed.

(** What the tasks of a pass come to, under any schedule: for each file
    what the routine by itself comes to on the store as the pass found
    it. *)
Lemma pool_outcome (W W2 : World) (slots : list Slot) (r : option string) :
  Distinct_identifiers → NoDup Files →
  pool_steps (untouched_init W, Schedule, None) (W2, slots, r) →
  quiescent slots →
  (∀ entry i, entry ∈ Files → isConfigFile E entry BaseDir = false →
              Derived entry = Some i →
              store W2 !! i = (Synced entry (store W)).1 !! i ∧
              i ∉ untouchedEntries W2) ∧
  (∀ i, (∀ entry, entry ∈ Files → isConfigFile E entry BaseDir = false →
                  Derived entry ≠ Some i) →
        store W2 !! i = store W !! i ∧
        (i ∈ untouchedEntries W2 ↔ i ∈ dom (store W))) ∧
  (r = None ↔
   ∀ entry, entry ∈ Files → isConfigFile E entry BaseDir = false →
            (Synced entry (store W)).2 = true).
Proof.
  intros Hids Hnodup Hsteps Hq.
  pose proof (pool_follows _ _ _ _ Hids Hnodup Hsteps) as Hfollows.
  pose proof (pool_scheduled _ _ _ _ Hsteps) as Hsched.
  cbn [store untouched_init] in Hfollows.
  assert (Hslot : ∀ entry, entry ∈ Files → isConfigFile E entry BaseDir = false →
            ∃ j s, slots !! j = Some s ∧ settled s = true ∧
                   follows_slot (λ i, Derived entry = Some i) (store W2)
                     (Synced entry (store W)).1 (Synced entry (store W)).2 s).
  { intros entry Hin Hcfg. apply list_elem_of_lookup in Hin as [j Hj].
    destruct (Forall2_lookup_l _ _ _ _ _ Hsched Hj) as (s & Hs & _).
    exists j, s. split; [done |]. split.
    - by eapply Forall_lookup_1 in Hq.
    - by eapply Hfollows. }
  split; [| split].
  - intros entry i Hin Hcfg Hi. split.
    + destruct (Hslot entry Hin Hcfg) as (j & s & _ & Hset & Hf).
      destruct s as [a | [| m | k]]; try done; cbn in Hf; by apply Hf.
    + apply derived_derives in Hi as [c Hd].
      pose proof (pool_touches E opts config collection _ _ _ _ Hsteps) as Hall.
      apply list_elem_of_lookup in Hin as [j Hj].
      destruct (Forall2_lookup_l _ _ _ _ _ Hall Hj) as (s & Hs & Htouch).
      destruct (Htouch Hcfg i c Hd) as [Hout | Hwill]; [done |].
      eapply Forall_lookup_1 in Hq; [| exact Hs].
      by destruct s as [a | [| m | k]].
  - intros i Hnone.
    assert (Hnew : ∀ entry c, entry ∈ Files → isConfigFile E entry BaseDir = false →
                              ¬ Derives entry BaseDir Files i c).
    { intros entry c Hin Hcfg Hd. apply (Hnone entry Hin Hcfg).
      apply derived_derives. by exists c. }
    split.
    + destruct (pool_keeps_records E opts config collection _ _ _ _ Hsteps)
        as [_ Hsame].
      by apply Hsame.
    + split.
      * destruct (pass_store_accounted E opts config collection _ _ _ _ Hsteps)
          as [_ Hsub].
        apply Hsub.
      * intros Hi. by eapply stale_stays_untouched.
  - split.
    + intros -> entry Hin Hcfg.
      destruct (Hslot entry Hin Hcfg) as (j & s & Hs & Hset & Hf).
      destruct s as [a | [| m | k]]; try done; cbn in Hf; [by apply Hf |].
      exfalso.
      apply (pool_invariant (λ _, Scheduled)
               (λ _ slots r, rejections_noted slots r) Files)
        in Hsteps as [_ Hnoted]; [| apply schedule_scheduled
                                  | apply schedule_no_rejection |].
      * by eapply Hnoted.
      * intros W0 slots0 r0 j0 entry0 s0 W1 t1 Hn Hj0 HR Hstep.
        destruct (scheduled_step E opts config collection _ _ _ _ _ HR Hstep)
          as (_ & _ & _ & HR').
        split; [| by split].
        apply rejections_noted_step; [by eapply lookup_lt_Some | done].
    + intros Hall. destruct r as [m |]; [| done]. exfalso.
      apply noted_is_rejected in Hsteps; [| done | done].
      destruct Hsteps as (j & m' & Hj). cbn [fst snd] in Hj.
      destruct (Forall2_lookup_r _ _ _ _ _ Hsched Hj) as (entry & Hentry & Hin & Hs).
      destruct (isConfigFile E entry BaseDir) eqn:Hcfg; [done |].
      pose proof (Hfollows _ _ _ Hj Hentry Hcfg) as Hf. cbn in Hf.
      destruct Hf as [Hok _]. rewrite (Hall entry Hin Hcfg) in Hok. done.
Qed.

(** When the routine by itself resolves for every file, no task of the
    pass has rejected [Promise.all], at any point of any schedule. *)
Lemma pool_rejection (W W2 : World) (slots : list Slot) (r : option string) :
  Distinct_identifiers → NoDup Files →
  pool_steps (untouched_init W, Schedule, None) (W2, slots, r) →
  (∀ entry, entry ∈ Files → isConfigFile E entry BaseDir = false →
            (Synced entry (store W)).2 = true) →
  r = None.
Proof.
  intros Hids Hnodup Hsteps Hall.
  pose proof (pool_follows _ _ _ _ Hids Hnodup Hsteps) as Hfollows.
  pose proof (pool_scheduled _ _ _ _ Hsteps) as Hsched.
  cbn [store untouched_init] in Hfollows.
  destruct r as [m |]; [| done]. exfalso.
  apply noted_is_rejected in Hsteps; [| done | done].
  destruct Hsteps as (j & m' & Hj). cbn [fst snd] in Hj.
  destruct (Forall2_lookup_r _ _ _ _ _ Hsched Hj) as (entry & Hentry & Hin & Hs).
  destruct (isConfigFile E entry BaseDir) eqn:Hcfg; [done |].
  pose proof (Hfollows _ _ _ Hj Hentry Hcfg) as Hf. cbn in Hf.
  destruct Hf as [Hok _]. rewrite (Hall entry Hin Hcfg) in Hok. done.
Qed.

(** What a pass that has resolved leaves for a file of its list. *)
Lemma pass_record (watcher : bool) (W W' : World) (w : option Watching)
    (entry : string) :
  Distinct_identifiers → NoDup Files →
  Load_any watcher W (W', Ok w) →
  entry ∈ Files → isConfigFile E entry BaseDir = false →
  (Synced entry (store W)).2 = true ∧
  ∀ i, Derived entry = Some i → store W' !! i = (Synced entry (store W)).1 !! i.
Proof.
  intros Hids Hnodup (W2 & slots & r & Hsteps & Hq & Hfin) Hin Hcfg.
  destruct (pool_outcome _ _ _ _ Hids Hnodup Hsteps Hq) as (Hown & _ & Hok).
  unfold finish in Hfin. destruct r as [m |]; [done |]. injection Hfin as -> _.
  split; [by apply Hok |].
  intros i Hi. destruct (Hown entry i Hin Hcfg Hi) as [Hrec Hout].
  rewrite <- Hrec. by apply sweep_touched.
Qed.

(** X22: tasks of a pass do not interfere.  Take distinct files to yield
    distinct identifiers and the list of files to have no file twice.
    Under any schedule, once [load] has resolved, for every file of the
    list that is not a configuration file the routine resolves when it runs
    by itself on the world as the pass found it, and the pass has left, at
    the identifier that the routine derives from the file, the record that
    the routine by itself leaves there.  And when the routine by itself
    resolves for every such file, no task has rejected [Promise.all], at
    any point of any schedule. *)
Theorem X22_tasks_of_a_pass_do_not_interfere (W : World) :
  Distinct_identifiers → NoDup Files →
  (∀ watcher W' w entry,
     Load_any watcher W (W', Ok w) →
     entry ∈ Files → isConfigFile E entry BaseDir = false →
     (start (SyncData entry BaseDir Files) W).2 = Ok () ∧
     ∀ i c, Derives entry BaseDir Files i c →
            store W' !! i = store (start (SyncData entry BaseDir Files) W).1 !! i) ∧
  (∀ W2 slots r,
     pool_steps (untouched_init W, Schedule, None) (W2, slots, r) →
     (∀ entry, entry ∈ Files → isConfigFile E entry BaseDir = false →
               (start (SyncData entry BaseDir Files) W).2 = Ok ()) →
     r = None).
Proof.
  intros Hids Hnodup. split.
  - intros watcher W' w entry Hload Hin Hcfg.
    destruct (pass_record _ _ _ _ _ Hids Hnodup Hload Hin Hcfg) as [Hok Hrec].
    destruct (start_synced entry W) as [Hsame Hstore].
    split.
    + rewrite Hok in Hsame. by destruct (start _ _).2 as [[] | m].
    + intros i c Hd.
      assert (Hi : Derived entry = Some i) by (apply derived_derives; by exists c).
      by rewrite (Hstore i Hi), (Hrec i Hi).
  - intros W2 slots r Hsteps Hall.
    apply (pool_rejection _ _ _ _ Hids Hnodup Hsteps).
    intros entry Hin Hcfg.
    destruct (start_synced entry W) as [Hsame _].
    by rewrite (Hall entry Hin Hcfg) in Hsame.
Qed.

(** X23: the store that a pass leaves does not depend on the schedule.
    Take distinct files to yield distinct identifiers and the list of
    files to have no file twice.  Two full passes from one world that have
    resolved, under any two schedules of their tasks, have left the same
    store. *)
Theorem X23_store_does_not_depend_on_schedule (watcher1 watcher2 : bool)
    (W W1 W2 : World) (w1 w2 : option Watching) :
  Distinct_identifiers → NoDup Files →
  Load_any watcher1 W (W1, Ok w1) →
  Load_any watcher2 W (W2, Ok w2) →
  store W1 = store W2.
Proof.
  intros Hids Hnodup (Wa & slotsa & ra & Hstepsa & Hqa & Hfina)
    (Wb & slotsb & rb & Hstepsb & Hqb & Hfinb).
  destruct (pool_outcome _ _ _ _ Hids Hnodup Hstepsa Hqa) as (Howna & Hresta & _).
  destruct (pool_outcome _ _ _ _ Hids Hnodup Hstepsb Hqb) as (Hownb & Hrestb & _).
  assert (Hboth : ∀ i, store Wa !! i = store Wb !! i ∧
                       (i ∈ untouchedEntries Wa ↔ i ∈ untouchedEntries Wb)).
  { intros i.
    destruct (decide (Exists (λ entry, isConfigFile E entry BaseDir = false ∧
                                       Derived entry = Some i) Files))
      as [Hex | Hnone].
    - apply Exists_exists in Hex as (entry & Hin & Hcfg & Hi).
      destruct (Howna entry i Hin Hcfg Hi) as [-> ?].
      destruct (Hownb entry i Hin Hcfg Hi) as [-> ?]. done.
    - assert (Hno : ∀ entry, entry ∈ Files → isConfigFile E entry BaseDir = false →
                             Derived entry ≠ Some i).
      { intros entry Hin Hcfg Hi. apply Hnone, Exists_exists. by exists entry. }
      destruct (Hresta i Hno) as [-> ->].
      destruct (Hrestb i Hno) as [-> ->]. done. }
  unfold finish in Hfina, Hfinb.
  destruct ra as [ma |]; [done |]. destruct rb as [mb |]; [done |].
  injection Hfina as -> _. injection Hfinb as -> _.
  apply map_eq. intros i.
  destruct (decide (i ∈ untouchedEntries Wa)) as [Hi | Hi].
  - rewrite !sweep_untouched; [done | by apply Hboth | done].
  - rewrite !sweep_touched; [apply Hboth | by rewrite <- (proj2 (Hboth i)) | done].
Qed.

(** ** A render that fails, in a pass *)

Lemma says_agree (own : string → Prop) (S S' : gmap string DataEntry) (c : Call)
    (t : Task) :
  (∀ i, own i → S !! i = S' !! i) →
  says own S c t → says own S' c t.
Proof.
  intros Hag. destruct t as [| m | k]; cbn [says]; [done | done |].
  intros Hk W HW. apply Hk. intros i Hi. rewrite HW by done. symmetry. by apply Hag.
Qed.

(** The routine logs the failure of the render, when it comes to it. *)
Lemma syncData_says (entry : string) (S0 : gmap string DataEntry)
    (c : string) (st : Stats) (info : EntryInfo) (pd : Data) (m : string) :
  readFile E (FileUrlOf entry BaseDir) = Ok c →
  stat E (FileUrlOf entry BaseDir) = Ok st →
  getEntryInfo E c (FileUrlOf entry BaseDir) entry st (EntryContext Files) = Ok info →
  unchanged (S0 !! generateId E entry BaseDir (info_data info)) (generateDigest E c)
  = false →
  parseData E (generateId E entry BaseDir (info_data info)) (info_data info)
    (fileURLToPath E (FileUrlOf entry BaseDir)) = Ok pd →
  render E (generateId E entry BaseDir (info_data info)) pd (info_body info)
    (fileURLToPath E (FileUrlOf entry BaseDir)) (generateDigest E c) = Fail m →
  says (λ i, Derived entry = Some i) S0
    (CLogError ("Error rendering " +:+ entry +:+ ": " +:+ m))
    (Await (SyncData entry BaseDir Files)).
Proof.
  intros Hread Hstat Hinfo Hun Hparse Hrender.
  assert (Hi : Derived entry = Some (generateId E entry BaseDir (info_data info)))
    by (unfold derived; by rewrite Hread, Hstat, Hinfo).
  cbn [says]. intros W HW. right. unfold syncData. cbn [fst snd store call].
  intros W1 HW1. right.
  assert (H1 : ∀ i, Derived entry = Some i → store W1 !! i = S0 !! i)
    by (intros i Hi'; rewrite HW1 by done; by apply HW).
  clear HW HW1 W. revert H1.
  unfold afterReadFile. rewrite Hread. cbn [fst snd store call says].
  intros H1 W2 HW2. right.
  assert (H2 : ∀ i, Derived entry = Some i → store W2 !! i = S0 !! i)
    by (intros i Hi'; rewrite HW2 by done; by apply H1).
  clear H1 HW2 W1. revert H2.
  unfold afterStat. rewrite Hstat.
  destruct (noContents (Some c)) eqn:Hno.
  { by apply noContents_None in Hno. }
  cbn [fst snd store call says].
  intros H2 W3 HW3. right.
  assert (H3 : ∀ i, Derived entry = Some i → store W3 !! i = S0 !! i)
    by (intros i Hi'; rewrite HW3 by done; by apply H2).
  clear H2 HW3 W2. revert H3.
  unfold afterGetEntryInfo. rewrite Hinfo.
  cbn [fst snd store call says untouched_delete].
  intros H3. rewrite (H3 _ Hi), Hun.
  cbn [fst snd store call untouched_delete says].
  intros W4 HW4. right.
  assert (H4 : ∀ i, Derived entry = Some i → store W4 !! i = S0 !! i)
    by (intros i Hi'; rewrite HW4 by done; by apply H3).
  clear H3 HW4 W3. revert H4.
  unfold afterParseData. rewrite Hparse.
  cbn [fst snd store call says].
  intros H4 W5 HW5. left.
  unfold afterRender. rewrite Hrender. unfold writeEntry.
  cbn [fst snd]. made_simpl. elem_solve.
Qed.

(** Under any schedule, the task of each file makes the calls that the
    routine makes whatever the others do, or has them to make. *)
Lemma pool_says (W0 W2 : World) (slots : list Slot) (r : option string) :
  Distinct_identifiers → NoDup Files →
  pool_steps (W0, Schedule, None) (W2, slots, r) →
  ∀ j s entry c,
    slots !! j = Some s → Files !! j = Some entry →
    isConfigFile E entry BaseDir = false →
    says (λ i, Derived entry = Some i) (store W0) c
      (Await (SyncData entry BaseDir Files)) →
    c ∈ made (W0, W2) ∨ says_slot (λ i, Derived entry = Some i) (store W2) c s.
Proof.
  intros Hids Hnodup Hsteps.
  pose proof (pool_invariant_at
    (λ W j s,
       (∃ l, calls W = calls W0 ++ l) ∧
       ∃ entry, Files !! j = Some entry ∧ Scheduled entry s ∧
                (isConfigFile E entry BaseDir = false →
                 ∀ c, says (λ i, Derived entry = Some i) (store W0) c
                        (Await (SyncData entry BaseDir Files)) →
                      c ∈ made (W0, W)
                      ∨ says_slot (λ i, Derived entry = Some i) (store W) c s))
    _ _ Hsteps) as Hinv.
  cbn [fst snd] in Hinv.
  intros j s entry c Hj Hentry Hcfg Hsays.
  destruct (Hinv) with (j := j) (s := s)
    as (_ & entry' & Hentry' & _ & Hall); [| | done |].
  - intros j0 s0 Hj0. split; [exists []; by rewrite app_nil_r |].
    destruct (Forall2_lookup_r _ _ _ _ _
                (schedule_scheduled E opts config collection) Hj0)
      as (entry0 & Hentry0 & Hsched).
    exists entry0. split; [done |]. split; [done |].
    intros Hcfg0 c0 Hc0. right.
    unfold schedule in Hj0. rewrite list_lookup_fmap, Hentry0 in Hj0.
    cbn in Hj0. rewrite Hcfg0 in Hj0. injection Hj0 as <-. exact Hc0.
  - clear j s entry c Hj Hentry Hcfg Hsays.
    intros W slots0 j s W1 t1 HR Hj Hstep.
    destruct (HR j s Hj) as ((l & Hl) & entry & Hentry & Hsched & Hall).
    destruct (scheduled_step E opts config collection _ _ _ _ _ Hsched Hstep)
      as (Hin & Hcfg & Hph & Hsched').
    destruct (phase_calls E opts config collection _ _ _ _ _ _ _ Hph Hstep)
      as (l1 & Hl1 & _).
    pose proof (made_grows _ _ _ _ _ Hl Hl1) as Hmade.
    split.
    + split; [exists (l ++ l1); by rewrite Hl1, Hl, app_assoc |].
      exists entry. split; [done |]. split; [done |]. intros _ c Hc.
      destruct (Hall Hcfg c Hc) as [Hbefore | Hwill].
      { left. rewrite Hmade. apply elem_of_app. by left. }
      destruct s as [a | [| m | k]]; cbn [slot_step] in Hstep;
        try discriminate Hstep; injection Hstep as Hstep;
        cbn [says_slot says] in Hwill;
        (destruct (Hwill W (λ _ _, eq_refl)) as [Hnow | Hlater];
         [ left; rewrite Hstep in Hnow; cbn [fst snd] in Hnow;
           rewrite Hmade; apply elem_of_app; right;
           by rewrite (made_app _ _ _ Hl1) in Hnow
         | right; by rewrite Hstep in Hlater ]).
    + intros j' s' Hne Hj'.
      destruct (HR j' s' Hj') as (_ & entry' & Hentry' & Hsched0 & Hall').
      split; [exists (l ++ l1); by rewrite Hl1, Hl, app_assoc |].
      exists entry'. split; [done |]. split; [done |].
      intros Hcfg' c Hc.
      destruct (Hall' Hcfg' c Hc) as [Hbefore | Hwill].
      { left. rewrite Hmade. apply elem_of_app. by left. }
      right.
      assert (Hdiff : entry' ≠ entry).
      { intros ->. apply Hne. by eapply NoDup_lookup. }
      assert (Hag : ∀ i, Derived entry' = Some i → store W !! i = store W1 !! i).
      { intros i Hi.
        destruct (phase_effect E opts config collection _ _ _ _ _ Hph Hstep)
          as [_ [-> | (i0 & c0 & e0 & Hd0 & ->)]]; [done |].
        rewrite lookup_insert_ne; [done |]. intros ->.
        apply derived_derives in Hi as [c' Hd].
        apply Hdiff. eapply (Hids entry' entry); try done.
        by eapply list_elem_of_lookup_2. }
      destruct s' as [a | t]; cbn [says_slot] in *; by eapply says_agree.
  - rewrite Hentry in Hentry'. injection Hentry' as <-. by apply Hall.
Qed.

(** C6: a failed render is logged and the record is written all the same,
    without a rendered artifact and without asset imports, and the other
    entries of the pass are synced as they are without it.  Let the
    renderer fail on given arguments.

    The routine: under any interleaving with other tasks, the routine that
    calls the renderer with these arguments resolves, logs the error, and
    calls [store.set] with a record that has the validated data, the body
    and the digest but neither [rendered] nor [assetImports]; of the store,
    its segments change the record of its own identifier only.

    The tasks of a pass: when [stat], the splitter and the validation
    succeed for the files of the pass, no task has rejected [Promise.all],
    at any point of any schedule, whatever the renderer does.

    The pass: take distinct files to yield distinct identifiers and the
    list of files to have no file twice, and let [load] have resolved,
    under any schedule.  For a file of the list for which the routine comes
    to call the renderer with these arguments (the record of its identifier
    was not up to date when the pass began), the pass has logged the error,
    and the store has at this identifier a record with the validated data,
    the body and the digest, and neither [rendered] nor [assetImports].
    For every file of the list that is read and split, the failing one and
    the others alike: when the record of its identifier was up to date, it
    is as it was; otherwise the validation has succeeded and the store has
    the record that the routine writes, with what the renderer returns for
    it, or nothing where the renderer fails. *)
Theorem C6_render_failure_still_stored (i : string) (parsedData : Data)
    (b fp d m : string) :
  render E i parsedData b fp d = Fail m →
  (∀ entry base fs l o,
     executes (SyncData entry base fs) l o →
     makes l (CRender i parsedData b fp d) →
     o = Ok () ∧
     makes l (CLogError ("Error rendering " +:+ entry +:+ ": " +:+ m)) ∧
     (∃ e,
        makes l (CStoreSet e) ∧
        id e = i ∧ data e = parsedData ∧ body e = Some b ∧ digest e = Some d ∧
        rendered e = None ∧ assetImports e = None ∧
        ∃ p, p ∈ l ∧ store p.2 = <[i := e]> (store p.1)) ∧
     (∀ p j, p ∈ l → j ≠ i → store p.2 !! j = store p.1 !! j)) ∧
  (Others_succeed →
   ∀ W0 W2 slots r, pool_steps (W0, Schedule, None) (W2, slots, r) → r = None) ∧
  (Distinct_identifiers → NoDup Files →
   ∀ watcher W W' w,
     Load_any watcher W (W', Ok w) →
     (∀ entry c st info,
        entry ∈ Files → isConfigFile E entry BaseDir = false →
        readFile E (FileUrlOf entry BaseDir) = Ok c →
        stat E (FileUrlOf entry BaseDir) = Ok st →
        getEntryInfo E c (FileUrlOf entry BaseDir) entry st (EntryContext Files)
        = Ok info →
        generateId E entry BaseDir (info_data info) = i →
        parseData E i (info_data info) fp = Ok parsedData →
        info_body info = b →
        fileURLToPath E (FileUrlOf entry BaseDir) = fp →
        generateDigest E c = d →
        unchanged (store W !! i) d = false →
        CLogError ("Error rendering " +:+ entry +:+ ": " +:+ m) ∈ made (W, W') ∧
        ∃ e,
          store W' !! i = Some e ∧
          id e = i ∧ data e = parsedData ∧ body e = Some b ∧ digest e = Some d ∧
          rendered e = None ∧ assetImports e = None) ∧
     (∀ entry c st info,
        entry ∈ Files → isConfigFile E entry BaseDir = false →
        readFile E (FileUrlOf entry BaseDir) = Ok c →
        stat E (FileUrlOf entry BaseDir) = Ok st →
        getEntryInfo E c (FileUrlOf entry BaseDir) entry st (EntryContext Files)
        = Ok info →
        let i' := generateId E entry BaseDir (info_data info) in
        let fp' := fileURLToPath E (FileUrlOf entry BaseDir) in
        let d' := generateDigest E c in
        if unchanged (store W !! i') d' then store W' !! i' = store W !! i'
        else
          ∃ pd,
            parseData E i' (info_data info) fp' = Ok pd ∧
            store W' !! i'
            = Some (newEntry i' pd (info_body info) (RelativePathOf fp') d'
                      (match render E i' pd (info_body info) fp' d' with
                       | Ok r => Some r
                       | Fail _ => None
                       end)))).
Proof.
  intros Hfail. split; [| split].
  - intros entry base fs l o Hex Hcall.
    by eapply (render_failure_stored E opts config collection).
  - intros Hok W0 W2 slots r Hsteps.
    by eapply (pool_not_rejected E opts config collection).
  - intros Hids Hnodup watcher W W' w Hload.
    assert (Hrec : ∀ entry c st info,
              entry ∈ Files → isConfigFile E entry BaseDir = false →
              readFile E (FileUrlOf entry BaseDir) = Ok c →
              stat E (FileUrlOf entry BaseDir) = Ok st →
              getEntryInfo E c (FileUrlOf entry BaseDir) entry st (EntryContext Files)
              = Ok info →
              let i' := generateId E entry BaseDir (info_data info) in
              let fp' := fileURLToPath E (FileUrlOf entry BaseDir) in
              let d' := generateDigest E c in
              if unchanged (store W !! i') d' then store W' !! i' = store W !! i'
              else
                ∃ pd,
                  parseData E i' (info_data info) fp' = Ok pd ∧
                  store W' !! i'
                  = Some (newEntry i' pd (info_body info) (RelativePathOf fp') d'
                            (match render E i' pd (info_body info) fp' d' with
                             | Ok r => Some r
                             | Fail _ => None
                             end))).
    { intros entry c st info Hin Hcfg Hread Hstat Hinfo i' fp' d'.
      destruct (pass_record _ _ _ _ entry Hids Hnodup Hload Hin Hcfg) as [Hok Hstore].
      assert (Hi : Derived entry = Some i')
        by (unfold derived; by rewrite Hread, Hstat, Hinfo).
      rewrite (Hstore i' Hi). revert Hok.
      unfold synced. cbv zeta. rewrite Hstat, Hread, Hinfo.
      fold i' fp' d'.
      destruct (unchanged (store W !! i') d') eqn:Hun; [done |].
      destruct (parseData E i' (info_data info) fp') as [pd | m'] eqn:Hparse;
        [| done].
      intros _. exists pd. split; [done |]. cbn [fst]. by rewrite lookup_insert_eq. }
    split; [| exact Hrec].
    intros entry c st info Hin Hcfg Hread Hstat Hinfo Hid Hparse Hbody Hfp Hd Hun.
    split.
    + destruct Hload as (W2 & slots & r & Hsteps & Hq & Hfin).
      apply list_elem_of_lookup in Hin as [j Hj].
      pose proof (pool_scheduled _ _ _ _ Hsteps) as Hsched.
      destruct (Forall2_lookup_l _ _ _ _ _ Hsched Hj) as (s & Hs & _).
      assert (Hsays : says (λ i0, Derived entry = Some i0) (store W)
                        (CLogError ("Error rendering " +:+ entry +:+ ": " +:+ m))
                        (Await (SyncData entry BaseDir Files))).
      { apply (syncData_says entry (store W) c st info parsedData m);
          try done; by subst. }
      destruct (pool_says _ _ _ _ Hids Hnodup Hsteps j s entry _ Hs Hj Hcfg Hsays)
        as [Hmade | Hwill].
      * rewrite made_untouched_init in Hmade.
        destruct (pool_calls E opts config collection _ _ _ _ Hsteps)
          as [(l & Hl & _) _].
        destruct (finish_calls E opts config _ _ _ _ _ Hfin) as (l' & Hl' & _).
        cbn [calls untouched_init] in Hl.
        rewrite (made_app _ _ _ Hl) in Hmade.
        rewrite (made_app W W' (l ++ l')) by (by rewrite Hl', Hl, app_assoc).
        apply elem_of_app. by left.
      * exfalso. eapply Forall_lookup_1 in Hq; [| exact Hs].
        by destruct s as [a | [| m' | k]].
    + specialize (Hrec entry c st info Hin Hcfg Hread Hstat Hinfo).
      cbv zeta in Hrec. rewrite Hid, Hfp, Hd, Hun in Hrec.
      destruct Hrec as (pd & Hpd & Hstore).
      rewrite Hparse in Hpd. injection Hpd as <-.
      rewrite Hbody, Hfail in Hstore.
      eexists. split; [exact Hstore |]. done.
Qed.

End Schedules.

(** ** Instances of the further properties *)

Lemma X1_store_set_writes_synced_record_witness :
  ∃ e, makes Vault.b_alone (CStoreSet e) ∧
       filePath e = Some "vault/b.md" ∧ digest e = Some "sha:" ∧
       deferredRender e = None.
Proof.
  assert (Hset : ∃ e, makes Vault.b_alone (CStoreSet e))
    by (eexists; unfold Vault.b_alone; makes_compute).
  destruct Hset as [e Hset]. exists e. split; [exact Hset |].
  destruct (X1_store_set_writes_synced_record Vault.vault Vault.opts Vault.config
              Vault.collection "b.md" Vault.base Vault.globbed Vault.b_alone _ e
              (executes_alone _ _) Hset)
    as (_ & c & st & info & pd & found & Hread & _ & _ & _ & _ & _ & _ & _ & _
        & Hfp & Hdig & _ & _ & Hdr & _).
  vm_compute in Hread. injection Hread as <-.
  split; [exact Hfp |]. split; [exact Hdig | exact Hdr].
Defined.

Lemma X2_stale_record_is_rewritten_witness :
  readFile Vault.edited Vault.a_md = Ok "alpha, edited" ∧
  (∃ found, makes Vault.a_edited_alone (CStoreGet "a" found) ∧
            unchanged found "sha:alpha, edited" = false) ∧
  ∃ d, makes Vault.a_edited_alone (CParseData "a" d "/site/vault/a.md").
Proof.
  split; [reflexivity |].
  assert (Hget : ∃ found, makes Vault.a_edited_alone (CStoreGet "a" found) ∧
                          unchanged found "sha:alpha, edited" = false).
  { eexists. split; [unfold Vault.a_edited_alone; makes_compute |].
    vm_compute. reflexivity. }
  split; [exact Hget |].
  destruct Hget as (found & Hget & Hun).
  destruct (X2_stale_record_is_rewritten Vault.edited Vault.opts Vault.config
              Vault.collection "a.md" Vault.base Vault.globbed Vault.a_edited_alone _
              "alpha, edited" "a" found (executes_alone _ _) eq_refl Hget Hun)
    as (d & Hd & _).
  exists d. exact Hd.
Defined.

Lemma X3_module_import_only_for_deferred_witness :
  makes Vault.a_deferred_alone (CStoreGet "a" (Some Vault.deferred_entry)) ∧
  makes Vault.a_deferred_alone (CAddModuleImport "vault/a.md").
Proof.
  assert (Hget : makes Vault.a_deferred_alone
                   (CStoreGet "a" (Some Vault.deferred_entry)))
    by (unfold Vault.a_deferred_alone; makes_compute).
  split; [exact Hget |].
  destruct (X3_module_import_only_for_deferred Vault.vault Vault.opts Vault.config
              Vault.collection "a.md" Vault.base Vault.globbed
              Vault.a_deferred_alone _ (executes_alone _ _)) as [_ Hiff].
  apply (Hiff "alpha" "a" Vault.deferred_entry "vault/a.md" eq_refl Hget
           eq_refl eq_refl).
  - discriminate.
  - reflexivity.
Defined.

Lemma X4_unreadable_file_is_skipped_witness :
  readFile Vault.unreadable Vault.b_md = Fail "EACCES: permission denied" ∧
  concat (made <$> Vault.b_unreadable_alone)
  = [CReadFile Vault.b_md;
     CLogError "Error reading b.md: EACCES: permission denied";
     CStat Vault.b_md;
     CLogWarn "No contents found for b.md"].
Proof.
  split; [reflexivity |].
  apply (X4_unreadable_file_is_skipped Vault.unreadable Vault.opts Vault.config
           Vault.collection "b.md" Vault.base Vault.globbed Vault.b_unreadable_alone _
           "EACCES: permission denied" {| size := 5; mtimeMs := 0 |}
           eq_refl eq_refl (executes_alone _ _)).
Defined.

Lemma X5_uncaught_failure_rejects_routine_witness :
  stat Vault.vanished Vault.b_md = Fail Vault.ENOENT ∧
  Vault.vanished_routine.2 = Fail Vault.ENOENT ∧
  (∀ i found, ¬ makes Vault.b_vanished_alone (CStoreGet i found)).
Proof.
  split; [reflexivity |].
  destruct (X5_uncaught_failure_rejects_routine Vault.vanished Vault.opts Vault.config
              Vault.collection "b.md" Vault.base Vault.globbed Vault.ENOENT
              Vault.b_vanished_alone _ (or_introl eq_refl) (executes_alone _ _))
    as (Ho & _ & Hget & _).
  split; [exact Ho | exact Hget].
Defined.

Lemma X6_routine_touches_own_entry_only_witness :
  (∀ i, ¬ makes Vault.b_alone (CStoreDelete i)) ∧
  (∀ p, p ∈ Vault.b_alone → dom (store p.1) ⊆ dom (store p.2)).
Proof.
  destruct (X6_routine_touches_own_entry_only Vault.vault Vault.opts Vault.config
              Vault.collection "b.md" Vault.base Vault.globbed Vault.b_alone _
              (executes_alone _ _)) as [Hdel Hframe].
  split; [exact Hdel |].
  intros p Hp. destruct (Hframe p Hp) as (_ & Hdom & _). exact Hdom.
Defined.

Lemma X7_sync_twice_is_sync_once_witness :
  Vault.a_synced.2 = Ok () ∧
  Vault.a_synced_again.2 = Ok () ∧
  store Vault.a_synced_again.1 = store Vault.a_synced.1 ∧
  (∀ c, c ∈ made (Vault.a_synced.1, Vault.a_synced_again.1) → ¬ transforms c).
Proof.
  split; [reflexivity |].
  assert (Hpath : relativePathOf Vault.vault Vault.opts Vault.config
                    (fileURLToPath Vault.vault (fileUrlOf Vault.vault "a.md" Vault.base))
                  ≠ "") by (vm_compute; discriminate).
  destruct (X7_sync_twice_is_sync_once Vault.vault Vault.opts Vault.config
              Vault.collection "a.md" Vault.base Vault.globbed Vault.empty_world
              Hpath eq_refl) as (Ho & Hstore & _ & _ & Hcalls).
  split; [exact Ho |]. split; [exact Hstore | exact Hcalls].
Defined.

Lemma X11_pass_reads_the_scheduled_files_witness :
  CReadFile Vault.a_md ∈ made (Vault.empty_world, Vault.first_pass.1) ∧
  CReadFile Vault.config_md ∉ made (Vault.empty_world, Vault.first_pass.1).
Proof.
  pose proof (λ u, X11_pass_reads_the_scheduled_files Vault.vault Vault.opts
                     Vault.config Vault.collection true Vault.empty_world
                     Vault.first_pass.1 Vault.first_pass.2 u
                     (load_any_of_load _ _ _ _ _ _)) as Hreads.
  split.
  - apply Hreads. exists "a.md". split; [vm_compute; elem_solve |].
    split; reflexivity.
  - intros Hin. apply Hreads in Hin as (entry & Hentry & Hcfg & Hu).
    vm_compute in Hentry.
    repeat (apply elem_of_cons in Hentry as [-> | Hentry]);
      try (by apply elem_of_nil in Hentry);
      try (vm_compute in Hu; discriminate Hu);
      vm_compute in Hcfg; discriminate Hcfg.
Defined.

Lemma X12_sweep_deletes_exactly_the_stale_witness :
  CStoreDelete "b" ∈ made (Vault.first_pass.1, Vault.removed_pass.1) ∧
  CStoreDelete "a" ∉ made (Vault.first_pass.1, Vault.removed_pass.1).
Proof.
  assert (Hload : load_any Vault.removed Vault.opts Vault.config Vault.collection
                    false Vault.first_pass.1 (Vault.removed_pass.1, Ok None)).
  { replace (Ok None) with Vault.removed_pass.2 by (vm_compute; reflexivity).
    apply load_any_of_load. }
  pose proof (λ i, X12_sweep_deletes_exactly_the_stale Vault.removed Vault.opts
                     Vault.config Vault.collection false Vault.first_pass.1
                     Vault.removed_pass.1 None i Hload) as Hsweep.
  split.
  - apply Hsweep. split.
    + apply elem_of_dom. vm_compute. eexists. reflexivity.
    + intros entry c Hin Hcfg (st & info & _ & _ & _ & Hi).
      vm_compute in Hin.
      repeat (apply elem_of_cons in Hin as [-> | Hin]);
        [ vm_compute in Hi; discriminate Hi
        | vm_compute in Hcfg; discriminate Hcfg
        | by apply elem_of_nil in Hin ].
  - intros Hin. apply Hsweep in Hin as [_ Hnone].
    apply (Hnone "a.md" "alpha"); [vm_compute; elem_solve | reflexivity |].
    eexists _, _. split; [reflexivity |]. split; [reflexivity |].
    split; reflexivity.
Defined.

Lemma vanished_load_any :
  load_any Vault.vanished Vault.opts Vault.config Vault.collection true
    Vault.stale_world (Vault.vanished_pass.1, Fail Vault.ENOENT).
Proof.
  replace (Fail Vault.ENOENT) with Vault.vanished_pass.2 by (vm_compute; reflexivity).
  apply load_any_of_load.
Qed.

Lemma X13_rejected_pass_removes_nothing_witness :
  Vault.vanished_pass.2 = Fail Vault.ENOENT ∧
  (∀ i, CStoreDelete i ∉ made (Vault.stale_world, Vault.vanished_pass.1)) ∧
  dom (store Vault.stale_world) ⊆ dom (store Vault.vanished_pass.1).
Proof.
  split; [vm_compute; reflexivity |].
  destruct (X13_rejected_pass_removes_nothing Vault.vanished Vault.opts Vault.config
              Vault.collection true Vault.stale_world Vault.vanished_pass.1
              Vault.ENOENT vanished_load_any) as (Hdel & Hdom & _).
  split; [exact Hdel | exact Hdom].
Defined.

Lemma X14_uncaught_failure_rejects_pass_witness :
  stat Vault.vanished (fileUrlOf Vault.vanished "b.md" Vault.base) = Fail Vault.ENOENT ∧
  ∃ m, Vault.vanished_pass.2 = Fail m.
Proof.
  split; [reflexivity |].
  apply (X14_uncaught_failure_rejects_pass Vault.vanished Vault.opts Vault.config
           Vault.collection true Vault.stale_world Vault.vanished_pass.1
           Vault.vanished_pass.2 "b.md" Vault.ENOENT).
  - vm_compute. elem_solve.
  - reflexivity.
  - left. reflexivity.
  - apply load_any_of_load.
Defined.

Lemma X15_rejection_comes_from_a_collaborator_witness :
  (start (syncData Vault.vanished Vault.opts Vault.config Vault.collection "b.md"
            Vault.base Vault.globbed) Vault.stale_world).2 = Fail Vault.ENOENT ∧
  stat Vault.vanished (fileUrlOf Vault.vanished "b.md" Vault.base) = Fail Vault.ENOENT ∧
  ∃ W2 slots,
    Vault.invalid_pass_rejecting = Some (W2, slots, Some "invalid front-matter in a") ∧
    queued <$> slots !! 1 = Some true ∧
    ∃ entry,
      entry ∈ files Vault.invalid Vault.opts Vault.config ∧
      isConfigFile Vault.invalid entry Vault.base = false ∧
      uncaught Vault.invalid Vault.opts Vault.config Vault.collection entry Vault.base
        (files Vault.invalid Vault.opts Vault.config) "invalid front-matter in a".
Proof.
  destruct (X15_rejection_comes_from_a_collaborator Vault.vanished Vault.opts
              Vault.config Vault.collection) as [Hroutine _].
  destruct (X15_rejection_comes_from_a_collaborator Vault.invalid Vault.opts
              Vault.config Vault.collection) as [_ Hpool].
  split; [reflexivity |]. split.
  - destruct (Hroutine "b.md" Vault.base Vault.globbed Vault.b_vanished_alone
                Vault.ENOENT (executes_alone _ _))
      as [Hstat | (c & st & _ & Hstat & _)]; [exact Hstat | discriminate Hstat].
  - eexists _, _. split; [vm_compute; reflexivity |]. split; [reflexivity |].
    eapply (Hpool (untouched_init Vault.empty_world)).
    apply (turns_at_steps [0; 0; 0; 0; 0]).
    vm_compute. reflexivity.
Defined.

Lemma first_pass_load_any :
  load_any Vault.vault Vault.opts Vault.config Vault.collection true
    Vault.empty_world (Vault.first_pass.1, Ok (Some Vault.watching)).
Proof.
  replace (Ok (Some Vault.watching)) with Vault.first_pass.2
    by (vm_compute; reflexivity).
  apply load_any_of_load.
Qed.

Lemma X16_resolved_pass_leaves_store_in_step_witness :
  ∃ e, store Vault.first_pass.1 !! "a" = Some e ∧
       digest e = Some "sha:alpha" ∧
       truthy_string (filePath e) = true.
Proof.
  destruct (X16_resolved_pass_leaves_store_in_step Vault.vault Vault.opts Vault.config
              Vault.collection true Vault.empty_world Vault.first_pass.1
              (Some Vault.watching) vault_distinct_identifiers vault_known_paths
              first_pass_load_any) as [Hfiles _].
  apply (Hfiles "a.md" "a" "alpha"); [vm_compute; elem_solve | reflexivity |].
  eexists _, _. split; [reflexivity |]. split; [reflexivity |].
  split; reflexivity.
Defined.

Lemma X17_pass_records_paths_of_written_files_witness :
  fileToIdMap Vault.first_pass.1 !! "/site/vault/a.md" = Some "a" ∧
  ∃ entry c,
    entry ∈ files Vault.vault Vault.opts Vault.config ∧
    "/site/vault/a.md" = fileURLToPath Vault.vault (fileUrlOf Vault.vault entry Vault.base) ∧
    derives Vault.vault Vault.opts Vault.config Vault.collection entry Vault.base
      (files Vault.vault Vault.opts Vault.config) "a" c.
Proof.
  assert (Hmap : fileToIdMap Vault.first_pass.1 !! "/site/vault/a.md" = Some "a")
    by (vm_compute; reflexivity).
  split; [exact Hmap |].
  destruct (X17_pass_records_paths_of_written_files Vault.vault Vault.opts
              Vault.config Vault.collection true Vault.empty_world
              Vault.first_pass.1 Vault.first_pass.2 (load_any_of_load _ _ _ _ _ _))
    as [_ Hprov].
  destruct (Hprov _ _ Hmap) as [Hold | (entry & c & Hin & _ & Hp & Hd)].
  - vm_compute in Hold. discriminate Hold.
  - exists entry, c. split; [exact Hin |]. split; [exact Hp | exact Hd].
Defined.

Lemma X18_pass_without_files_empties_store_witness :
  is_Some (store Vault.first_pass.1 !! "a") ∧
  is_ok Vault.deserted_pass.2 = true ∧
  store Vault.deserted_pass.1 = ∅.
Proof.
  split; [vm_compute; eexists; reflexivity |].
  destruct (X18_pass_without_files_empties_store Vault.deserted Vault.opts
              Vault.config Vault.collection false Vault.first_pass.1
              Vault.deserted_pass.1 Vault.deserted_pass.2) as (Hok & Hstore & _).
  - intros entry Hin. vm_compute in Hin.
    repeat (apply elem_of_cons in Hin as [-> | Hin]);
      [reflexivity | by apply elem_of_nil in Hin].
  - apply load_any_of_load.
  - split; [exact Hok | exact Hstore].
Defined.

Lemma X19_reload_logged_iff_resolved_witness :
  matchesGlob Vault.edited Vault.opts
    (posixRelative Vault.edited (w_basePath Vault.watching) "/site/vault/a.md") = true ∧
  Vault.a_changed.2 = Ok () ∧
  makes Vault.a_changed_alone (CLogInfo "Reloaded data from a.md").
Proof.
  split; [reflexivity |]. split; [vm_compute; reflexivity |].
  destruct (X19_reload_logged_iff_resolved Vault.edited Vault.opts Vault.config
              Vault.collection Vault.watching (EvChange "/site/vault/a.md")
              "/site/vault/a.md" Vault.a_changed_alone _
              (or_intror eq_refl) eq_refl (executes_alone _ _))
    as (_ & Hlog & _).
  apply Hlog. vm_compute. reflexivity.
Defined.

Lemma X20_change_then_unlink_removes_witness :
  ∃ e, CStoreSet e ∈ made (Vault.first_pass.1, Vault.a_changed.1) ∧
       store Vault.a_changed.1 !! "a" = Some e ∧
       fileToIdMap Vault.a_changed.1 !! "/site/vault/a.md" = Some "a" ∧
       store Vault.a_changed_unlinked.1 = delete "a" (store Vault.a_changed.1).
Proof.
  assert (Hset : ∃ e, CStoreSet e ∈ made (Vault.first_pass.1, Vault.a_changed.1) ∧
                      id e = "a").
  { eexists. split; [vm_compute; elem_solve | reflexivity]. }
  destruct Hset as (e & Hset & Hid). exists e. split; [exact Hset |].
  destruct (X20_change_then_unlink_removes Vault.edited Vault.opts Vault.config
              Vault.collection Vault.watching "/site/vault/a.md" Vault.first_pass.1 e
              eq_refl eq_refl Hset) as (Hrec & Hmap & _ & Hunlink & _).
  rewrite Hid in Hrec, Hmap, Hunlink.
  split; [exact Hrec |]. split; [exact Hmap |].
  cbn [String.eqb Ascii.eqb Bool.eqb] in Hunlink.
  destruct Hunlink as (Hstore & _). exact Hstore.
Defined.

Lemma X21_event_brings_record_up_to_date_witness :
  readFile Vault.edited Vault.a_md = Ok "alpha, edited" ∧
  Vault.a_changed.2 = Ok () ∧
  ∃ e, store Vault.a_changed.1 !! "a" = Some e ∧
       digest e = Some "sha:alpha, edited".
Proof.
  split; [reflexivity |]. split; [vm_compute; reflexivity |].
  assert (Hpath : relativePathOf Vault.edited Vault.opts Vault.config
                    (fileURLToPath Vault.edited
                       (fileUrlOf Vault.edited
                          (posixRelative Vault.edited (w_basePath Vault.watching)
                             "/site/vault/a.md")
                          (pathToFileURL Vault.edited (w_basePath Vault.watching))))
                  ≠ "") by (vm_compute; discriminate).
  assert (Hok : (start (handler Vault.edited Vault.opts Vault.config Vault.collection
                          Vault.watching (EvChange "/site/vault/a.md"))
                   Vault.first_pass.1).2 = Ok ()) by (vm_compute; reflexivity).
  destruct (X21_event_brings_record_up_to_date Vault.edited Vault.opts Vault.config
              Vault.collection Vault.watching (EvChange "/site/vault/a.md")
              "/site/vault/a.md" Vault.first_pass.1 "alpha, edited"
              {| size := 13; mtimeMs := 0 |}
              {| info_body := "alpha, edited"; info_data := [("title", "a.md")] |}
              (or_intror eq_refl) eq_refl eq_refl eq_refl eq_refl Hpath Hok)
    as [(e & He & Hd & _) _].
  exists e. split; [exact He | exact Hd].
Defined.

Lemma vault_files_NoDup : NoDup (files Vault.vault Vault.opts Vault.config).
Proof.
  change (NoDup ["a.md"; "b.md"; "config.md"]).
  repeat (apply NoDup_cons; split;
          [ intros Hin;
            repeat (apply elem_of_cons in Hin as [Hin | Hin]; [discriminate Hin |]);
            by apply elem_of_nil in Hin |]).
  apply NoDup_nil_2.
Qed.

Lemma X22_tasks_of_a_pass_do_not_interfere_witness :
  (start (syncData Vault.vault Vault.opts Vault.config Vault.collection "a.md"
            Vault.base Vault.globbed) Vault.empty_world).2 = Ok () ∧
  store Vault.first_pass.1 !! "a" = store Vault.a_synced.1 !! "a".
Proof.
  destruct (X22_tasks_of_a_pass_do_not_interfere Vault.vault Vault.opts Vault.config
              Vault.collection Vault.empty_world vault_distinct_identifiers
              vault_files_NoDup) as [Hpass _].
  assert (Hin : "a.md" ∈ files Vault.vault Vault.opts Vault.config)
    by (vm_compute; elem_solve).
  destruct (Hpass true Vault.first_pass.1 (Some Vault.watching) "a.md"
              first_pass_load_any Hin eq_refl) as [Hok Hrec].
  split; [exact Hok |].
  apply (Hrec "a" "alpha").
  eexists _, _. split; [reflexivity |]. split; [reflexivity |].
  split; reflexivity.
Defined.

Lemma X23_store_does_not_depend_on_schedule_witness :
  ∃ W1,
    Vault.first_pass_taking_turns = Some (W1, Ok (Some Vault.watching)) ∧
    calls W1 ≠ calls Vault.first_pass.1 ∧
    store W1 = store Vault.first_pass.1.
Proof.
  eexists. split; [vm_compute; reflexivity |].
  split; [vm_compute; discriminate |].
  apply (X23_store_does_not_depend_on_schedule Vault.vault Vault.opts Vault.config
           Vault.collection true true Vault.empty_world _ Vault.first_pass.1
           (Some Vault.watching) (Some Vault.watching)
           vault_distinct_identifiers vault_files_NoDup);
    [| exact first_pass_load_any].
  apply (load_in_load_any _ _ _ _ Vault.taking_turns).
  vm_compute. reflexivity.
Defined.

Lemma unrendered_distinct_identifiers :
  distinct_identifiers Vault.unrendered Vault.opts Vault.config Vault.collection.
Proof.
  intros e1 e2 i c1 c2 Hin1 Hcfg1 Hin2 Hcfg2
    (st1 & info1 & _ & _ & _ & Hi1) (st2 & info2 & _ & _ & _ & Hi2).
  vm_compute in Hin1, Hin2.
  repeat (apply elem_of_cons in Hin1 as [-> | Hin1]);
    try (by apply elem_of_nil in Hin1);
    repeat (apply elem_of_cons in Hin2 as [-> | Hin2]);
    try (by apply elem_of_nil in Hin2);
    try reflexivity;
    try (vm_compute in Hcfg1; discriminate Hcfg1);
    try (vm_compute in Hcfg2; discriminate Hcfg2);
    vm_compute in Hi1, Hi2; subst i; discriminate Hi2.
Qed.

Lemma C6_render_failure_still_stored_witness :
  render Vault.unrendered "a" [("title", "a.md")] "alpha" "/site/vault/a.md" "sha:alpha"
  = Fail "cannot render a" ∧
  makes Vault.a_unrendered_alone (CLogError "Error rendering a.md: cannot render a") ∧
  (∃ e, makes Vault.a_unrendered_alone (CStoreSet e) ∧
        id e = "a" ∧ rendered e = None ∧ assetImports e = None) ∧
  (∃ W2 slots r,
     Vault.unrendered_pass_written = Some (W2, slots, r) ∧
     active <$> slots !! 1 = Some true ∧
     r = None) ∧
  ∃ W',
    Vault.unrendered_pass_taking_turns = Some (W', Ok (Some Vault.watching)) ∧
    CLogError "Error rendering a.md: cannot render a" ∈ made (Vault.empty_world, W') ∧
    (∃ e, store W' !! "a" = Some e ∧
          data e = [("title", "a.md")] ∧ body e = Some "alpha" ∧
          digest e = Some "sha:alpha" ∧ rendered e = None ∧ assetImports e = None) ∧
    store W' !! "b"
    = Some (newEntry "b" [("title", "b.md")] "" "vault/b.md" "sha:"
              (Some {| html := "<p></p>"; metadata := None |})).
Proof.
  split; [reflexivity |].
  assert (Hcall : makes Vault.a_unrendered_alone
            (CRender "a" [("title", "a.md")] "alpha" "/site/vault/a.md" "sha:alpha"))
    by (unfold Vault.a_unrendered_alone; makes_compute).
  pose proof (C6_render_failure_still_stored Vault.unrendered Vault.opts Vault.config
                Vault.collection "a" [("title", "a.md")] "alpha"
                "/site/vault/a.md" "sha:alpha" "cannot render a" eq_refl)
    as (Hone & Hnone & Hpass).
  destruct (Hone "a.md" Vault.base Vault.globbed Vault.a_unrendered_alone _
              (executes_alone _ _) Hcall)
    as (_ & Hlog & (e & Hset & Hid & _ & _ & _ & Hr & Ha & _) & _).
  split; [exact Hlog |]. split; [exists e; by repeat split |].
  split.
  { eexists _, _, _. split; [vm_compute; reflexivity |]. split; [reflexivity |].
    eapply (Hnone unrendered_others_succeed (untouched_init Vault.empty_world)).
    apply (turns_at_steps [0; 1; 0; 0; 0; 0; 0]). vm_compute. reflexivity. }
  eexists. split; [vm_compute; reflexivity |].
  match goal with
  | |- _ ∈ made (_, ?W) ∧ _ =>
      destruct (Hpass unrendered_distinct_identifiers vault_files_NoDup
                  true Vault.empty_world W (Some Vault.watching))
        as [Hfailing Hall]
  end.
  { apply (load_in_load_any _ _ _ _ Vault.taking_turns). vm_compute. reflexivity. }
  assert (Ha_md : "a.md" ∈ files Vault.unrendered Vault.opts Vault.config)
    by (vm_compute; elem_solve).
  assert (Hb_md : "b.md" ∈ files Vault.unrendered Vault.opts Vault.config)
    by (vm_compute; elem_solve).
  destruct (Hfailing "a.md" "alpha" {| size := 5; mtimeMs := 0 |}
              {| info_body := "alpha"; info_data := [("title", "a.md")] |}
              Ha_md eq_refl eq_refl eq_refl eq_refl eq_refl eq_refl eq_refl
              eq_refl eq_refl eq_refl)
    as [Hlogged (e' & He' & _ & Hdata & Hbody & Hdigest & Hrendered & Hassets)].
  split; [exact Hlogged |].
  split; [exists e'; by repeat split |].
  pose proof (Hall "b.md" "" {| size := 0; mtimeMs := 0 |}
                {| info_body := ""; info_data := [("title", "b.md")] |}
                Hb_md eq_refl eq_refl eq_refl eq_refl) as Hb.
  destruct Hb as (pd & Hpd & Hstore). injection Hpd as <-. exact Hstore.
Defined.
